(** * spectre.parallel.algorithmic: grouped layout, NaN-aware reductions, rolling windows

    A shallow embedding of [src/spectre/parallel/algorithmic.py].

    Conventions of the embedding.
    - A tensor handled by [ParallelGroupBy] is a [dtype], a [shape] and its
      row-major flattened contents; [torch.take] works on the flattened contents.
    - The key vector is a list of rationals.  The double-precision arithmetic of
      [keys + torch.linspace(0, 0.9, n, dtype=torch.double)] and the conversion
      [Tensor.int()] are an interface ([TorchDouble]): numbers are given by their
      exact rational value, and nothing is assumed about the rounding.  One
      instance, [binary64], computes them in IEEE 754 double precision.
    - [torch.sort] is an interface ([TorchSort]): any function that returns a
      permutation of the positions along which the input ascends.  Nothing is
      assumed about how it orders equal elements.
    - Floating-point buffers of the reductions and of [Rolling] hold
      [spec_float] values (IEEE 754 binary formats, parameters [prec], [emax]).
      A sum along an axis is accumulated from the left; the tensor library
      leaves the order open.
    - Python's floats, in the computation of the chunk size of [Rolling], are
      binary64 values, with the errors that Python raises on them.
    - The scores that [nanlast] compares are evaluated exactly. *)

From Stdlib Require Import String Ascii DecimalString.
From Stdlib Require Import List Arith ZArith QArith Qround Lia Bool.
From Stdlib Require Import Permutation Sorted Lqa.
From Stdlib Require Import SpecFloat.
Import ListNotations.
Close Scope Q_scope.
Open Scope nat_scope.

Set Implicit Arguments.

(** ** Python sequence helpers *)

(** [l[s:e]] for [0 <= s], [0 <= e]. *)
Definition slice {A} (s e : nat) (l : list A) : list A := firstn (e - s) (skipn s l).

(** Element-wise binary operation of two sequences of equal length. *)
Fixpoint map2 {A B C} (f : A -> B -> C) (xs : list A) (ys : list B) : list C :=
  match xs, ys with
  | x :: xs', y :: ys' => f x y :: map2 f xs' ys'
  | _, _ => []
  end.

(** Consecutive pairs of a list: [zip(b[:-1], b[1:])]. *)
Definition pairs (b : list nat) : list (nat * nat) := combine (removelast b) (tl b).

(** [l[i] = v] on an immutable list; out of range leaves the list alone. *)
Fixpoint set_nth {A} (i : nat) (v : A) (l : list A) : list A :=
  match l, i with
  | [], _ => []
  | _ :: l', O => v :: l'
  | x :: l', S i' => x :: set_nth i' v l'
  end.

Fixpoint mapM {A B} (f : A -> option B) (l : list A) : option (list B) :=
  match l with
  | [] => Some []
  | x :: l' =>
      match f x, mapM f l' with
      | Some y, Some ys => Some (y :: ys)
      | _, _ => None
      end
  end.

(** ** Errors *)

Inductive error : Type :=
| AssertionError (msg : string)
| ValueError (msg : string)
| IndexError
| RuntimeError
| ZeroDivisionError
| OverflowError.

Definition result (A : Type) : Type := (error + A)%type.

(** ** Element types *)

Inductive dtype : Type :=
| float16 | float32 | float64 | uint8 | int8 | int16 | int32 | int64 | bool_.

Definition dtype_eqb (a b : dtype) : bool :=
  match a, b with
  | float16, float16 | float32, float32 | float64, float64 | uint8, uint8
  | int8, int8 | int16, int16 | int32, int32 | int64, int64 | bool_, bool_ => true
  | _, _ => false
  end.

Definition is_floating_point (d : dtype) : bool :=
  match d with float16 | float32 | float64 => true | _ => false end.

(** The element types whose values are signed or unsigned integers. *)
Definition is_integral (d : dtype) : bool :=
  match d with uint8 | int8 | int16 | int32 | int64 => true | _ => false end.

(** The Python objects compared by the assertion of [split]: a dtype object
    such as [torch.int8], and the bound method obtained by reading the
    attribute [type] of a tensor without calling it. *)
Inductive pyobj : Type :=
| PyDtype (d : dtype)
| PyBoundMethod (name : string).

Definition pyobj_eqb (a b : pyobj) : bool :=
  match a, b with
  | PyDtype x, PyDtype y => dtype_eqb x y
  | PyBoundMethod x, PyBoundMethod y => String.eqb x y
  | _, _ => false
  end.

Record tensor (A : Type) : Type := Tensor {
  t_dtype : dtype;
  t_shape : list nat;
  t_data : list A
}.

Arguments Tensor {A} _ _ _.

(** [t.type]: the attribute, not a call. *)
Definition tensor_type_attr {A} (t : tensor A) : pyobj := PyBoundMethod "type".

(** ** The sort primitive *)

Definition key_at (l : list Q) (i : nat) : Q := nth i l 0%Q.

(** [torch.sort(l)] returns the sorted values and the positions they came
    from; [argsort] is the second component, the first is [gather]. *)
Class TorchSort : Type := {
  argsort : list Q -> list nat;
  argsort_perm : forall l, Permutation (argsort l) (seq 0 (length l));
  argsort_sorted : forall l,
      StronglySorted (fun i j => (key_at l i <= key_at l j)%Q) (argsort l)
}.

Definition gather (l : list Q) (idx : list nat) : list Q := map (key_at l) idx.

(** An insertion sort, as one instance. *)
Fixpoint insert_idx (l : list Q) (i : nat) (s : list nat) : list nat :=
  match s with
  | [] => [i]
  | j :: s' =>
      if Qle_bool (key_at l i) (key_at l j) then i :: s else j :: insert_idx l i s'
  end.

Definition insertion_argsort (l : list Q) : list nat :=
  fold_right (insert_idx l) [] (seq 0 (length l)).

(** ** torch.linspace, Tensor.int, nonzero, numpy.diff *)

(** [steps] evenly spaced values from [start] to [stop] inclusive; a single
    step yields [start] (the quotient by zero is zero in [Q]). *)
Definition linspace (start stop : Q) (steps : nat) : list Q :=
  map (fun i => start + (stop - start)
                       * (inject_Z (Z.of_nat i) / inject_Z (Z.of_nat (steps - 1))))%Q
      (seq 0 steps).

(** Conversion of a floating value to an integer: truncation toward zero. *)
Definition Qtrunc (q : Q) : Z := Z.quot (Qnum q) (Zpos (Qden q)).

(** ** Double precision and int32 *)

(** What the constructor uses of the tensor library's arithmetic.
    [linspace_double start stop n] is
    [torch.linspace(start, stop, n, dtype=torch.double)], [add_double k o]
    the sum of a key with a double, rounded to a double, and [to_int32] the
    conversion [Tensor.int()].  A number is given by its exact rational
    value.  The interface fixes the length of [linspace], and of the
    conversion that its result is an int32 and is the truncation toward zero
    of every value whose truncation is an int32; for the other values the
    conversion is not specified. *)
Class TorchDouble : Type := {
  linspace_double : Q -> Q -> nat -> list Q;
  add_double : Q -> Q -> Q;
  to_int32 : Q -> Z;
  linspace_double_length :
    forall start stop n, length (linspace_double start stop n) = n;
  to_int32_range : forall q, (- 2 ^ 31 <= to_int32 q < 2 ^ 31)%Z;
  to_int32_trunc :
    forall q, (- 2 ^ 31 <= Qtrunc q < 2 ^ 31)%Z -> to_int32 q = Qtrunc q
}.

(** The int32 that a difference of two int32 wraps around to. *)
Definition wrap32 (z : Z) : Z := ((z + 2 ^ 31) mod 2 ^ 32 - 2 ^ 31)%Z.

(** [a[1:] - a[:-1]] *)
Definition adjacent_diff (a : list Z) : list Z := map2 Z.sub (tl a) (removelast a).

(** Positions of the non-zero entries, ascending. *)
Definition nonzero (l : list Z) : list nat :=
  map fst (filter (fun p => negb (snd p =? 0)%Z) (combine (seq 0 (length l)) l)).

(** [np.diff] on a list of naturals that ascends. *)
Definition np_diff (b : list nat) : list nat := map2 Nat.sub (tl b) (removelast b).

Definition list_max_nat (l : list nat) : nat := fold_right Nat.max 0 l.

(** ** torch.take and masked_fill_ *)

(** One element of [torch.take(input, index)]: the input is read as if it
    were flat; an index [i] in [-numel, numel) is accepted and a negative one
    counts from the end; anything else raises. *)
Definition take_one {A} (flat : list A) (i : Z) : option A :=
  let numel := Z.of_nat (length flat) in
  if ((0 <=? i) && (i <? numel))%Z then nth_error flat (Z.to_nat i)
  else if ((- numel <=? i) && (i <? 0))%Z then nth_error flat (Z.to_nat (i + numel))
  else None.

Definition take {A} (flat : list A) (index : list Z) : option (list A) :=
  mapM (take_one flat) index.

Definition masked_fill {A} (data : list A) (mask : list bool) (v : A) : list A :=
  map2 (fun x (m : bool) => if m then v else x) data mask.

(** ** Shapes in messages *)

(** The double-quote character. *)
Definition dquote : string := String (Ascii.ascii_of_nat 34) EmptyString.

Definition str_of_nat (n : nat) : string := NilEmpty.string_of_uint (Nat.to_uint n).

Fixpoint join_comma (l : list string) : string :=
  match l with
  | [] => EmptyString
  | [x] => x
  | x :: l' => x ++ ", " ++ join_comma l'
  end.

(** [str] of a tuple of integers: [()], [(3,)], [(3, 4)]. *)
Definition tuple_str (t : list nat) : string :=
  match t with
  | [] => "()"
  | [x] => "(" ++ str_of_nat x ++ ",)"
  | _ => "(" ++ join_comma (map str_of_nat t) ++ ")"
  end.

(** [sub] occurs in [s]. *)
Definition includes (sub s : string) : Prop :=
  exists pre post : string, s = (pre ++ sub ++ post)%string.

Definition shape_eqb (a b : list nat) : bool :=
  if list_eq_dec Nat.eq_dec a b then true else false.

(** ** ParallelGroupBy *)

Module ParallelGroupBy.

Record t : Type := Build {
  _boundary : list nat;
  _sorted_indices : list (list Z);
  _padding_mask : list (list bool);
  _inverse_indices : list Z;
  _width : nat;
  _groups : nat;
  _data_shape : list nat
}.

Section Init.
Context {sorter : TorchSort} {arith : TorchDouble}.
Variable keys : list Q.

Definition n : nat := length keys.

  (** [keys + torch.linspace(0, 0.9, n, dtype=torch.double)] *)
Definition relative_key : list Q :=
    map2 add_double keys (linspace_double 0 (9 # 10) n).

Definition sorted_indices : list nat := argsort relative_key.

  (** [sorted_keys.int()] *)
Definition sorted_keys : list Z := map to_int32 (gather relative_key sorted_indices).

  (** [sorted_keys[1:] - sorted_keys[:-1]], on int32 *)
Definition diff : list Z := map wrap32 (adjacent_diff sorted_keys).

Definition boundary : list nat := [0] ++ map S (nonzero diff) ++ [n].

Definition width : nat := list_max_nat (np_diff boundary).

Definition groups : nat := length boundary - 1.

Definition new_full (fill : Z) : list (list Z) := repeat (repeat fill width) groups.

  (** [m[i, 0:(stop - start)] = sorted_indices[start:stop]]; the two sides
      have the same length here, as [width] is the largest run. *)
Definition assign_run (m : list (list Z)) (run : nat * nat * nat) : list (list Z) :=
    let '(start, stop, i) := run in
    let src := map Z.of_nat (slice start stop sorted_indices) in
    set_nth i (src ++ skipn (stop - start) (nth i m [])) m.

  (** [zip(boundary[:-1], boundary[1:], range(groups))] *)
Definition runs : list (nat * nat * nat) :=
    combine (pairs boundary) (seq 0 groups).

  (** The rectangular layout, padded with [fill]. *)
Definition fill_matrix (fill : Z) : list (list Z) :=
    fold_left assign_run runs (new_full fill).

  (** [torch.sort(inverse_indices.flatten())[1][:n]] *)
Definition inverse_indices : list Z :=
    map Z.of_nat
        (firstn n (argsort (map inject_Z (concat (fill_matrix (Z.of_nat (n + 1))))))).

Definition take_indices : list (list Z) := fill_matrix (-1).

Definition padding_mask : list (list bool) :=
    map (map (fun c => (c =? -1)%Z)) take_indices.

Definition init : t :=
    {| _boundary := boundary;
       _sorted_indices := take_indices;
       _padding_mask := padding_mask;
       _inverse_indices := inverse_indices;
       _width := width;
       _groups := groups;
       _data_shape := [groups; width] |}.
End Init.

Section Ops.
Variable A : Type.
  (** The missing-value marker of a floating element type. *)
Variable nan : A.
  (** What [masked_fill_] stores for [np.nan] in a tensor whose element type
      is not floating ([None]: the conversion is refused).  This is the
      behaviour of the tensor library, not of this module. *)
Variable nan_as : dtype -> option A.

Definition fill_scalar (d : dtype) : option A :=
    if is_floating_point d then Some nan else nan_as d.

  (** The condition of the [assert] in [split]. *)
Definition split_assertion (ret : tensor A) : bool :=
    negb (existsb (pyobj_eqb (tensor_type_attr ret))
                  [PyDtype int8; PyDtype int16; PyDtype int32; PyDtype int64]).

Definition split (g : t) (data : tensor A) : result (tensor A) :=
    match take (t_data data) (concat (_sorted_indices g)) with
    | None => inl IndexError
    | Some taken =>
        let ret := Tensor (t_dtype data) [_groups g; _width g] taken in
        if split_assertion ret then
          match fill_scalar (t_dtype data) with
          | Some v =>
              inr (Tensor (t_dtype data) [_groups g; _width g]
                          (masked_fill taken (concat (_padding_mask g)) v))
          | None => inl RuntimeError
          end
        else
          inl (AssertionError
                 "tensor cannot be any type of int, recommended to use float32")
    end.

Definition multi_value_msg (shape : list nat) (dbg_str : string) (expected : list nat)
    : string :=
    "The downstream needs shape" ++ tuple_str expected
      ++ ", and the input factor " ++ dquote ++ dbg_str ++ dquote ++ " is shape"
      ++ tuple_str shape
      ++ ". Look like this factor has multiple return values, use slice to select a value before using it, for example: `factor[0]`.".

Definition shape_msg (shape : list nat) (dbg_str : string) (expected : list nat)
    : string :=
    "The return data shape" ++ tuple_str shape ++ " of Factor `" ++ dbg_str
      ++ "` must same as input" ++ tuple_str expected ++ ".".

Definition revert (g : t) (split_data : tensor A) (dbg_str : string)
    : result (tensor A) :=
    if negb (shape_eqb (t_shape split_data) (_data_shape g)) then
      if shape_eqb (firstn 2 (t_shape split_data)) (firstn 2 (_data_shape g)) then
        inl (ValueError (multi_value_msg (t_shape split_data) dbg_str (_data_shape g)))
      else
        inl (ValueError (shape_msg (t_shape split_data) dbg_str (_data_shape g)))
    else
      match take (t_data split_data) (_inverse_indices g) with
      | Some d => inr (Tensor (t_dtype split_data) [length (_inverse_indices g)] d)
      | None => inl IndexError
      end.

  (** [create(dtype, values, nan_fill)] *)
Definition create (g : t) (d : dtype) (values nan_fill : A) : tensor A :=
    Tensor d [_groups g; _width g]
           (masked_fill (repeat values (_groups g * _width g))
                        (concat (_padding_mask g)) nan_fill).
End Ops.

End ParallelGroupBy.

(** ** The layout seen as cells

    A cell of the rectangular layout either holds a row index or is padding.
    The two matrices built by [__init__] are this one layout with padding
    written as [n + 1] and as [-1]. *)

Section Cells.
Context {sorter : TorchSort} {arith : TorchDouble}.
Variable keys : list Q.

Definition run_cells (p : nat * nat) : list (option nat) :=
  map Some (slice (fst p) (snd p) (ParallelGroupBy.sorted_indices keys))
      ++ repeat None (ParallelGroupBy.width keys - (snd p - fst p)).

Definition cells : list (list (option nat)) :=
  map run_cells (pairs (ParallelGroupBy.boundary keys)).

Definition decode (fill : Z) (c : option nat) : Z :=
  match c with Some i => Z.of_nat i | None => fill end.

Definition is_padding (c : option nat) : bool :=
  match c with Some _ => false | None => true end.

(** The row indices held by a sequence of cells, in order. *)
Definition somes (l : list (option nat)) : list nat :=
  flat_map (fun c => match c with Some i => [i] | None => [] end) l.
End Cells.

(** ** The invariant of a layout *)









(** Among the rows with one key the perturbed keys, as computed, grow
    strictly with the row position: the rounding creates no tie. *)
Definition perturbed_tie_free {arith : TorchDouble} (keys : list Q) : Prop :=
  forall i j, i < j -> j < length keys ->
    (key_at keys i == key_at keys j)%Q ->
    (key_at (ParallelGroupBy.relative_key keys) i
     < key_at (ParallelGroupBy.relative_key keys) j)%Q.

(** ** Order in the layout *)






(** ** The error monad *)

Definition bind {A B} (r : result A) (k : A -> result B) : result B :=
  match r with inl e => inl e | inr a => k a end.

Notation "x <- c ;; k" := (bind c (fun x => k))
  (at level 61, c at next level, right associativity).

(** Sequential evaluation of a list comprehension: the first error wins. *)
Fixpoint mapR {A B} (f : A -> result B) (l : list A) : result (list B) :=
  match l with
  | [] => inr []
  | x :: l' => y <- f x ;; ys <- mapR f l' ;; inr (y :: ys)
  end.

(** Element-wise operation with broadcasting along one dimension: the
    lengths agree, or one of them is 1. *)
Definition broadcast2 {A B C} (f : A -> B -> result C) (xs : list A) (ys : list B)
  : result (list C) :=
  if length xs =? length ys then mapR (fun p => f (fst p) (snd p)) (combine xs ys)
  else match xs, ys with
       | [x], _ => mapR (fun y => f x y) ys
       | _, [y] => mapR (fun x => f x y) xs
       | _, _ => inl RuntimeError
       end.

(** [torch.cat] at the type of the results of an aggregation. *)
Class TorchCat (O : Type) : Type := { cat : list O -> result O }.

(** Results indexed by row: concatenation along the row axis.  An empty
    list of tensors is refused. *)
#[export] Instance cat_rows (B : Type) : TorchCat (list B) :=
  {| cat := fun chunks => match chunks with
                          | [] => inl RuntimeError
                          | _ => inr (concat chunks)
                          end |}.

(** Python indexing and slicing of a sequence. *)
Definition py_get {A} (l : list A) (i : Z) : result A :=
  let len := Z.of_nat (length l) in
  let j := if (i <? 0)%Z then (i + len)%Z else i in
  if ((0 <=? j) && (j <? len))%Z then
    match nth_error l (Z.to_nat j) with Some x => inr x | None => inl IndexError end
  else inl IndexError.

Definition py_bound (len : nat) (default : nat) (i : option Z) : nat :=
  match i with
  | None => default
  | Some z =>
      if (z <? 0)%Z then Z.to_nat (Z.max (z + Z.of_nat len) 0)
      else Nat.min (Z.to_nat z) len
  end.

(** [l[s:e]] where [s] and [e] are integers or [None]. *)
Definition py_slice {A} (s e : option Z) (l : list A) : list A :=
  slice (py_bound (length l) 0 s) (py_bound (length l) (length l) e) l.

(** [range(0, stop, step)] for a positive step. *)
Definition py_range (stop step : nat) : list nat :=
  map (fun k => k * step) (seq 0 ((stop + step - 1) / step)).

Fixpoint transpose {A} (width : nat) (m : list (list A)) : list (list A) :=
  match width with
  | O => []
  | S w => match mapM (@hd_error A) m with
           | Some col => col :: transpose w (map (@tl A) m)
           | None => []
           end
  end.

(** ** Floating-point buffers and the NaN-aware reductions *)

Section Float.
Variables prec emax : Z.

Definition F_of_Z (z : Z) : spec_float := binary_normalize prec emax z 0 false.

Definition is_nan (x : spec_float) : bool :=
  match x with S754_nan => true | _ => false end.

(** [data[isnan] = v] on a copy. *)
Definition fill_nan (v : spec_float) (row : list spec_float) : list spec_float :=
  map (fun x => if is_nan x then v else x) row.

(** [(~isnan).sum()] *)
Definition count_not_nan (row : list spec_float) : Z :=
  Z.of_nat (length (filter (fun x => negb (is_nan x)) row)).

(** Sum along an axis, accumulated from the left. *)
Definition fsum (row : list spec_float) : spec_float :=
  fold_left (SFadd prec emax) row (S754_zero false).

Definition fmax2 (m y : spec_float) : spec_float :=
  if is_nan m then m else if is_nan y then y else if SFltb m y then y else m.

Definition fmin2 (m y : spec_float) : spec_float :=
  if is_nan m then m else if is_nan y then y else if SFltb y m then y else m.

(** Maximum and minimum along an axis; an empty axis is refused. *)
Definition fmax (row : list spec_float) : result spec_float :=
  match row with [] => inl IndexError | x :: r => inr (fold_left fmax2 r x) end.

Definition fmin (row : list spec_float) : result spec_float :=
  match row with [] => inl IndexError | x :: r => inr (fold_left fmin2 r x) end.

Definition nansum_axis (row : list spec_float) : spec_float :=
  fsum (fill_nan (S754_zero false) row).

Definition nanmean_axis (row : list spec_float) : spec_float :=
  SFdiv prec emax (fsum (fill_nan (S754_zero false) row)) (F_of_Z (count_not_nan row)).

Definition nanmax_axis (row : list spec_float) : result spec_float :=
  fmax (fill_nan (S754_infinity true) row).

Definition nanmin_axis (row : list spec_float) : result spec_float :=
  fmin (fill_nan (S754_infinity false) row).

(** The reductions on a two-dimensional buffer, along [dim = 1]. *)
Definition nansum (data : list (list spec_float)) : list spec_float :=
  map nansum_axis data.

Definition nanmean (data : list (list spec_float)) : list spec_float :=
  map nanmean_axis data.

Definition nanmax (data : list (list spec_float)) : result (list spec_float) :=
  mapR nanmax_axis data.

Definition nanmin (data : list (list spec_float)) : result (list spec_float) :=
  mapR nanmin_axis data.

(** Position of the first minimum. *)
Fixpoint argmin_from (best : Q) (besti i : nat) (l : list Q) : nat :=
  match l with
  | [] => besti
  | x :: l' =>
      if Qle_bool best x then argmin_from best besti (S i) l'
      else argmin_from x i (S i) l'
  end.

Definition argmin (l : list Q) : nat :=
  match l with [] => 0 | x :: l' => argmin_from x 0 1 l' end.

(** [mask.float() + torch.linspace(0.1, 0, n)] along the last axis. *)
Definition nanlast_scores (row : list spec_float) : list Q :=
  map2 Qplus (map (fun x => if is_nan x then 1%Q else 0%Q) row)
       (linspace (1 # 10) 0 (length row)).

(** The entry selected by [gather] along the last axis. *)
Definition nanlast_pick (row : list spec_float) : spec_float :=
  nth (argmin (nanlast_scores row)) row S754_nan.

(** The result of [nanlast] on a three-dimensional buffer, after [squeeze]:
    one- or two-dimensional. *)
Inductive squeezed : Type :=
| Dim1 (v : list spec_float)
| Dim2 (m : list (list spec_float)).

(** [nanlast(data, dim=2)].  [squeeze()] drops every dimension of size one:
    a single row of a single time step leaves no dimension to index, and
    several rows of a single time step come back one-dimensional. *)
Definition nanlast (data : list (list (list spec_float))) : result squeezed :=
  match data with
  | [row] =>
      if length row =? 1 then inl IndexError
      else inr (Dim2 [map nanlast_pick row])
  | _ =>
      if forallb (fun row => length row =? 1) data
      then inr (Dim1 (map (fun row => nanlast_pick (hd [] row)) data))
      else inr (Dim2 (map (map nanlast_pick) data))
  end.

Definition cat_squeezed (chunks : list squeezed) : result squeezed :=
  match chunks with
  | [] => inl RuntimeError
  | Dim1 v :: rest =>
      vs <- mapR (fun c => match c with Dim1 w => inr w | Dim2 _ => inl RuntimeError end)
                 rest ;;
      inr (Dim1 (v ++ concat vs))
  | Dim2 m :: rest =>
      ms <- mapR (fun c => match c with Dim2 w => inr w | Dim1 _ => inl RuntimeError end)
                 rest ;;
      inr (Dim2 (m ++ concat ms))
  end.

#[export] Instance cat_of_squeezed : TorchCat squeezed := {| cat := cat_squeezed |}.

(** [t[:, :, None]] *)
Definition add_last_axis (t : squeezed) : result (list (list (list spec_float))) :=
  match t with
  | Dim2 m => inr (map (map (fun x => [x])) m)
  | Dim1 _ => inl IndexError
  end.

(** Reduction of a three-dimensional buffer along one axis. *)
Definition reduce_dim {B} (red : list spec_float -> result B) (axis : Z)
           (x : list (list (list spec_float))) : result (list (list B)) :=
  let dim := if (axis <? 0)%Z then (axis + 3)%Z else axis in
  let time := length (hd [] x) in
  let window := length (hd [] (hd [] x)) in
  match dim with
  | 2%Z => mapR (mapR red) x
  | 1%Z => mapR (fun row => mapR red (transpose window row)) x
  | 0%Z => mapR (fun at_t => mapR red (transpose window at_t)) (transpose time x)
  | _ => inl IndexError
  end.

End Float.

(** ** Double precision, computed *)

(** The rational value of a double. *)
Definition B2Q (x : spec_float) : Q :=
  match x with
  | S754_finite s m e => (inject_Z (cond_Zopp s (Zpos m)) * Qpower 2 e)%Q
  | _ => 0%Q
  end.

(** The double nearest to a rational: a rational whose denominator is a
    power of two is rounded as such, any other one as the quotient of its
    numerator and its denominator. *)
Definition double_of_Q (q : Q) : spec_float :=
  let k := Z.log2 (Zpos (Qden q)) in
  if (2 ^ k =? Zpos (Qden q))%Z then binary_normalize 53 1024 (Qnum q) (- k) false
  else SFdiv 53 1024 (F_of_Z 53 1024 (Qnum q)) (F_of_Z 53 1024 (Zpos (Qden q))).

(** [torch.linspace] in double precision, as the scalar loop of the CPU
    kernel computes it: from the start in the first half, from the end in
    the second. *)
Definition linspace64 (start stop : spec_float) (steps : nat) : list spec_float :=
  match steps with
  | 0 => []
  | 1 => [start]
  | _ =>
      let step := SFdiv 53 1024 (SFsub 53 1024 stop start)
                        (F_of_Z 53 1024 (Z.of_nat (steps - 1))) in
      map (fun idx =>
             if idx <? steps / 2
             then SFadd 53 1024 start
                        (SFmul 53 1024 step (F_of_Z 53 1024 (Z.of_nat idx)))
             else SFsub 53 1024 stop
                        (SFmul 53 1024 step
                               (F_of_Z 53 1024 (Z.of_nat (steps - idx - 1)))))
          (seq 0 steps)
  end.

(** [Tensor.int()] on x86: truncation toward zero, and the smallest int32
    for a value that has no int32. *)
Definition int32_of_Q (q : Q) : Z :=
  let z := Qtrunc q in
  if ((- 2 ^ 31 <=? z) && (z <? 2 ^ 31))%Z then z else (- 2 ^ 31)%Z.


(** ** Rolling *)

(** ** Python floats *)

(** Python's arithmetic on [float] is binary64.  [float(z)] rounds an
    integer to the nearest double and refuses one that is too large. *)
Definition py_float (z : Z) : result spec_float :=
  match F_of_Z 53 1024 z with
  | S754_infinity _ => inl OverflowError
  | f => inr f
  end.

(** [a / b] on floats: a zero divisor is refused. *)
Definition py_truediv (a b : spec_float) : result spec_float :=
  match b with
  | S754_zero _ => inl ZeroDivisionError
  | _ => inr (SFdiv 53 1024 a b)
  end.

(** [int(x)] on a float: truncation toward zero; infinities and NaN are
    refused. *)
Definition py_int (x : spec_float) : result Z :=
  match x with
  | S754_nan => inl (ValueError "cannot convert float NaN to integer")
  | S754_infinity _ => inl OverflowError
  | S754_zero _ => inr 0%Z
  | S754_finite s m e => inr (cond_Zopp s (Z.shiftl (Zpos m) e))
  end.

Module Rolling.

Section Engine.
Variables prec emax : Z.

Definition tensor2 : Type := list (list spec_float).
Definition tensor3 : Type := list (list (list spec_float)).

Record t : Type := Build {
  values : tensor3;
  win : nat;
  split : list (nat * nat);
  adjustments : option tensor3;
  adjustment_last : option tensor3
}.

(** [unfold(x, win, fill)]: the time axis is padded on the left with
    [win - 1] fill values and cut into the windows of size [win] at step 1.
    A window size of zero, and a padded row shorter than the window, are
    refused by the tensor library. *)
Definition unfold_row (win : nat) (fill : spec_float) (row : list spec_float)
  : result (list (list spec_float)) :=
  let new_row := repeat fill (win - 1) ++ row in
  if length new_row <? win then inl RuntimeError
  else inr (map (fun i => slice i (i + win) new_row) (seq 0 (length new_row - win + 1))).

Definition unfold (x : tensor2) (win : nat) (fill : spec_float) : result tensor3 :=
  if win =? 0 then inl RuntimeError else mapR (unfold_row win fill) x.

Definition nelement (v : tensor3) : nat :=
  list_sum (map (fun row => list_sum (map (@length spec_float) row)) v).

(** The class constant [_split_multi = 64], as the double that the product
    with [memory_usage] converts it to. *)
Definition _split_multi : spec_float := F_of_Z 53 1024 64.

(** [max(int(rows / memory_usage), 1)] with
    [memory_usage = nelement / 1024. ** 3 * _split_multi], in Python's
    floats. *)
Definition chunk_step (split_multi : spec_float) (v : tensor3) : result nat :=
  elements <- py_float (Z.of_nat (nelement v)) ;;
  memory_usage0 <- py_truediv elements (F_of_Z 53 1024 (1024 ^ 3)) ;;
  let memory_usage := SFmul 53 1024 memory_usage0 split_multi in
  rows <- py_float (Z.of_nat (length v)) ;;
  quotient <- py_truediv rows memory_usage ;;
  step <- py_int quotient ;;
  inr (Z.to_nat (Z.max step 1)).

(** [zip(boundary[:-1], boundary[1:])] for
    [boundary = list(range(0, rows, step)) + [rows]]. *)
Definition chunk_split (rows step : nat) : list (nat * nat) :=
  pairs (py_range rows step ++ [rows]).

(** [Rolling(x, win)], without adjustment. *)
Definition init_plain (split_multi : spec_float) (x : tensor2) (win : nat) : result t :=
  v <- unfold x win S754_nan ;;
  step <- chunk_step split_multi v ;;
  inr {| values := v; win := win; split := chunk_split (length v) step;
         adjustments := None; adjustment_last := None |}.

Definition mul3 (a b : tensor3) : result tensor3 :=
  broadcast2 (broadcast2 (broadcast2 (fun x y => inr (SFmul prec emax x y)))) a b.

Definition div3 (a b : tensor3) : result tensor3 :=
  broadcast2 (broadcast2 (broadcast2 (fun x y => inr (SFdiv prec emax x y)))) a b.

Definition adjusted (r : t) (s e : option Z) : result tensor3 :=
  match adjustments r, adjustment_last r with
  | Some adj, Some last =>
      m <- mul3 (py_slice s e (values r)) (py_slice s e adj) ;;
      div3 m (py_slice s e last)
  | _, _ => inr (py_slice s e (values r))
  end.

Definition agg {O} {C : TorchCat O} (op : tensor3 -> list tensor3 -> result O)
           (r : t) (others : list t) : result O :=
  if forallb (fun o => win o =? win r) others then
    chunks <- mapR (fun se =>
                      x <- adjusted r (Some (Z.of_nat (fst se))) (Some (Z.of_nat (snd se))) ;;
                      os <- mapR (fun o => adjusted o (Some (Z.of_nat (fst se)))
                                                    (Some (Z.of_nat (snd se)))) others ;;
                      op x os)
                   (split r) ;;
    cat chunks
  else inl (AssertionError "`others` must have same `win` with `self`").

(** [x[:, :, i]] *)
Definition index_axis2 (i : Z) (x : tensor3) : result tensor2 :=
  mapR (mapR (fun w => py_get w i)) x.

Definition loc (r : t) (i : Z) : result tensor2 :=
  if (i =? -1)%Z then index_axis2 i (values r)
  else agg (fun x _ => index_axis2 i x) r [].

Definition last (r : t) : result tensor2 := loc r (-1).

Definition first (r : t) : result tensor2 := loc r 0.

Definition last_nonnan (r : t) : result squeezed :=
  agg (fun x _ => nanlast x) r [].

(** [Rolling(x, win, _adjustment)] *)
Definition init (split_multi : spec_float) (x : tensor2) (win : nat) (_adjustment : option tensor2)
  : result t :=
  r <- init_plain split_multi x win ;;
  match _adjustment with
  | None => inr r
  | Some a =>
      rolling_adj <- init_plain split_multi a win ;;
      nl <- last_nonnan rolling_adj ;;
      al <- add_last_axis nl ;;
      inr {| values := values r; win := win; split := split r;
             adjustments := Some (values rolling_adj); adjustment_last := Some al |}
  end.

Definition sum (r : t) (axis : Z) : result tensor2 :=
  agg (fun x _ => reduce_dim (fun w => inr (fsum prec emax w)) axis x) r [].

Definition nansum (r : t) (axis : Z) : result tensor2 :=
  agg (fun x _ => reduce_dim (fun w => inr (nansum_axis prec emax w)) axis x) r [].

Definition mean (r : t) (axis : Z) : result tensor2 :=
  agg (fun x _ =>
         s <- reduce_dim (fun w => inr (fsum prec emax w)) axis x ;;
         inr (map (map (fun v => SFdiv prec emax v (F_of_Z prec emax (Z.of_nat (win r))))) s))
      r [].

Definition nanmean (r : t) (axis : Z) : result tensor2 :=
  agg (fun x _ => reduce_dim (fun w => inr (nanmean_axis prec emax w)) axis x) r [].

Definition max (r : t) : result tensor2 :=
  agg (fun x _ => reduce_dim (@fmax) 2 x) r [].

Definition min (r : t) : result tensor2 :=
  agg (fun x _ => reduce_dim (@fmin) 2 x) r [].

Definition nanmax (r : t) : result tensor2 :=
  agg (fun x _ => reduce_dim (@nanmax_axis) 2 x) r [].

Definition nanmin (r : t) : result tensor2 :=
  agg (fun x _ => reduce_dim (@nanmin_axis) 2 x) r [].

End Engine.

End Rolling.

(** ** Operators that treat rows independently *)

(** The operator that applies [f] to each row of the buffer and to the
    corresponding rows of the other buffers, and collects the results in row
    order. *)
Definition rowwise {B} (f : list (list spec_float) ->
                            list (option (list (list spec_float))) -> result B)
           (x : Rolling.tensor3) (os : list Rolling.tensor3) : result (list B) :=
  mapR (fun i => f (nth i x []) (map (fun o => nth_error o i) os)) (seq 0 (length x)).

(** Chunking is invisible for [op]: aggregating over the chunks gives what
    [op] gives on the whole adjusted buffers. *)
Definition chunk_invisible (prec emax : Z) {O} {C : TorchCat O}
           (op : Rolling.tensor3 -> list Rolling.tensor3 -> result O)
           (r : Rolling.t) (others : list Rolling.t) : Prop :=
  Rolling.agg prec emax op r others
  = (x <- Rolling.adjusted prec emax r None None ;;
     os <- mapR (fun o => Rolling.adjusted prec emax o None None) others ;;
     op x os).

(** The adjustment buffers have as many rows as the values. *)
Definition rows_agree (r : Rolling.t) : Prop :=
  match Rolling.adjustments r, Rolling.adjustment_last r with
  | Some a, Some l =>
      length a = length (Rolling.values r) /\ length l = length (Rolling.values r)
  | _, _ => True
  end.

(** * Proofs *)

(** ** The insertion sort implements the sort interface *)

Lemma insert_idx_perm (l : list Q) (i : nat) (s : list nat) :
  Permutation (insert_idx l i s) (i :: s).
Proof.
  induction s as [|j s IH]; simpl; [reflexivity|].
  destruct (Qle_bool _ _); [reflexivity|].
  rewrite IH. apply perm_swap.
Qed.

Lemma insert_idx_sorted (l : list Q) (i : nat) (s : list nat) :
  StronglySorted (fun a b => (key_at l a <= key_at l b)%Q) s ->
  StronglySorted (fun a b => (key_at l a <= key_at l b)%Q) (insert_idx l i s).
Proof.
  induction s as [|j s IH]; simpl; intros Hs.
  - repeat constructor.
  - apply StronglySorted_inv in Hs. destruct Hs as [Hs Hj].
    destruct (Qle_bool (key_at l i) (key_at l j)) eqn:E.
    + apply Qle_bool_iff in E.
      constructor; [constructor; assumption|].
      constructor; [assumption|].
      eapply Forall_impl; [|exact Hj].
      intros a Ha. eapply Qle_trans; eassumption.
    + assert (Hlt : (key_at l j <= key_at l i)%Q).
      { destruct (Qlt_le_dec (key_at l j) (key_at l i)) as [H|H].
        - apply Qlt_le_weak, H.
        - apply Qle_bool_iff in H. congruence. }
      constructor; [apply IH, Hs|].
      eapply Permutation_Forall; [symmetry; apply insert_idx_perm|].
      constructor; assumption.
Qed.

Lemma fold_insert_perm (l : list Q) (xs : list nat) :
  Permutation (fold_right (insert_idx l) [] xs) xs.
Proof.
  induction xs as [|x xs IH]; simpl; [reflexivity|].
  rewrite insert_idx_perm. now constructor.
Qed.

Lemma fold_insert_sorted (l : list Q) (xs : list nat) :
  StronglySorted (fun a b => (key_at l a <= key_at l b)%Q)
                 (fold_right (insert_idx l) [] xs).
Proof.
  induction xs as [|x xs IH]; simpl; [constructor|].
  apply insert_idx_sorted, IH.
Qed.

#[export] Instance insertion_sort : TorchSort := {|
  argsort := insertion_argsort;
  argsort_perm := fun l => fold_insert_perm l (seq 0 (length l));
  argsort_sorted := fun l => fold_insert_sorted l (seq 0 (length l))
|}.

(** ** Double precision implements the arithmetic interface *)

Lemma linspace64_length (start stop : spec_float) (steps : nat) :
  length (linspace64 start stop steps) = steps.
Proof.
  unfold linspace64. destruct steps as [|[|k]]; try reflexivity.
  now rewrite length_map, length_seq.
Qed.

Lemma int32_of_Q_range (q : Q) : (- 2 ^ 31 <= int32_of_Q q < 2 ^ 31)%Z.
Proof.
  unfold int32_of_Q.
  destruct (Z.leb_spec (- 2 ^ 31) (Qtrunc q)); cbn [andb]; [|lia].
  destruct (Z.ltb_spec (Qtrunc q) (2 ^ 31)); lia.
Qed.

Lemma int32_of_Q_trunc (q : Q) :
  (- 2 ^ 31 <= Qtrunc q < 2 ^ 31)%Z -> int32_of_Q q = Qtrunc q.
Proof.
  intros [H1 H2]. unfold int32_of_Q.
  destruct (Z.leb_spec (- 2 ^ 31) (Qtrunc q)); [|lia].
  destruct (Z.ltb_spec (Qtrunc q) (2 ^ 31)); [reflexivity|lia].
Qed.

#[export] Instance binary64 : TorchDouble := {|
  linspace_double := fun start stop steps =>
    map B2Q (linspace64 (double_of_Q start) (double_of_Q stop) steps);
  add_double := fun k o => B2Q (SFadd 53 1024 (double_of_Q k) (double_of_Q o));
  to_int32 := int32_of_Q;
  linspace_double_length := fun start stop steps =>
    eq_trans (length_map B2Q _) (linspace64_length _ _ steps);
  to_int32_range := int32_of_Q_range;
  to_int32_trunc := int32_of_Q_trunc
|}.

(** ** Lists *)

Lemma map2_length {A B C} (f : A -> B -> C) xs ys :
  length (map2 f xs ys) = Nat.min (length xs) (length ys).
Proof.
  revert ys; induction xs as [|x xs IH]; intros [|y ys]; simpl; auto.
Qed.

Lemma nth_error_map2 {A B C} (f : A -> B -> C) xs ys i x y :
  nth_error xs i = Some x -> nth_error ys i = Some y ->
  nth_error (map2 f xs ys) i = Some (f x y).
Proof.
  revert ys i; induction xs as [|a xs IH]; intros [|b ys] [|i]; simpl;
    try discriminate; intros Hx Hy.
  - congruence.
  - now apply IH.
Qed.

Lemma set_nth_app {A} (done rest : list A) (v x : A) :
  set_nth (length done) v (done ++ x :: rest) = done ++ v :: rest.
Proof.
  induction done as [|d done IH]; simpl; [reflexivity|]. now rewrite IH.
Qed.

Lemma nth_middle_here {A} (done rest : list A) (x d : A) :
  nth (length done) (done ++ x :: rest) d = x.
Proof.
  induction done as [|y done IH]; simpl; auto.
Qed.

Lemma mapM_map {A B} (f : A -> option B) (g : A -> B) (l : list A) :
  (forall x, In x l -> f x = Some (g x)) -> mapM f l = Some (map g l).
Proof.
  induction l as [|x l IH]; simpl; intros H; [reflexivity|].
  rewrite (H x (or_introl eq_refl)), IH; auto.
Qed.

Lemma mapM_map_map {A B C} (f : B -> option C) (h : A -> B) (g : A -> C) (l : list A) :
  (forall x, In x l -> f (h x) = Some (g x)) -> mapM f (map h l) = Some (map g l).
Proof.
  induction l as [|x l IH]; simpl; intros H; [reflexivity|].
  rewrite (H x (or_introl eq_refl)), IH; auto.
Qed.

Lemma map2_map_same {A B C D} (f : B -> C -> D) (g : A -> B) (h : A -> C) (l : list A) :
  map2 f (map g l) (map h l) = map (fun x => f (g x) (h x)) l.
Proof.
  induction l as [|x l IH]; simpl; congruence.
Qed.

Lemma slice_app {A} (l : list A) (s m e : nat) :
  s <= m -> m <= e -> slice s m l ++ slice m e l = slice s e l.
Proof.
  unfold slice. intros Hsm Hme.
  replace (e - s) with ((m - s) + (e - m)) by lia.
  replace (skipn m l) with (skipn (m - s) (skipn s l)).
  2:{ rewrite skipn_skipn. f_equal. lia. }
  generalize (skipn s l) as k. generalize (e - m) as b. generalize (m - s) as a.
  induction a as [|a IH]; intros b k; simpl; [reflexivity|].
  destruct k as [|x k]; simpl.
  - now rewrite firstn_nil.
  - f_equal. apply IH.
Qed.

Lemma slice_all {A} (l : list A) : slice 0 (length l) l = l.
Proof. unfold slice. rewrite Nat.sub_0_r. simpl. apply firstn_all. Qed.

Lemma slice_length {A} (l : list A) (s e : nat) :
  e <= length l -> length (slice s e l) = e - s.
Proof.
  intros H. unfold slice. rewrite length_firstn, length_skipn. lia.
Qed.

Lemma nth_error_slice {A} (l : list A) (s e k : nat) :
  k < e - s -> nth_error (slice s e l) k = nth_error l (s + k).
Proof.
  intros H. unfold slice. rewrite nth_error_firstn.
  destruct (Nat.ltb_spec k (e - s)); [|lia].
  apply nth_error_skipn.
Qed.

Lemma pairs_cons2 (x y : nat) (r : list nat) :
  pairs (x :: y :: r) = (x, y) :: pairs (y :: r).
Proof. reflexivity. Qed.

Lemma pairs_length (b : list nat) : length (pairs b) = length b - 1.
Proof.
  unfold pairs. rewrite length_combine.
  rewrite removelast_firstn_len, length_firstn.
  destruct b as [|x b]; simpl; lia.
Qed.

Lemma last_cons_cons {A} (x y : A) (l : list A) (d d' : A) :
  last (x :: y :: l) d = last (y :: l) d'.
Proof.
  revert y; induction l as [|z l IH]; intros y; [reflexivity|].
  change (last (x :: y :: z :: l) d) with (last (y :: z :: l) d).
  change (last (y :: z :: l) d) with (last (z :: l) d).
  change (last (y :: z :: l) d') with (last (z :: l) d').
  destruct l as [|w l]; [reflexivity|].
  rewrite <- (IH z). reflexivity.
Qed.

Lemma sorted_le_last (b : list nat) (y : nat) :
  StronglySorted le (y :: b) -> y <= last (y :: b) y.
Proof.
  intros H. apply StronglySorted_inv in H. destruct H as [_ H].
  destruct b as [|z b]; [simpl; lia|].
  rewrite (last_cons_cons y z b y z).
  rewrite Forall_forall in H. apply H.
  destruct (@exists_last _ (z :: b)) as [l' [a E]]; [discriminate|].
  rewrite E, last_last, <- E.
  rewrite E. apply in_or_app. right. now left.
Qed.

Lemma concat_slices {A} (l : list A) (b : list nat) (s : nat) :
  StronglySorted le (s :: b) ->
  concat (map (fun p => slice (fst p) (snd p) l) (pairs (s :: b)))
  = slice s (last (s :: b) s) l.
Proof.
  revert s; induction b as [|y b IH]; intros s Hs.
  - simpl. unfold slice. now rewrite Nat.sub_diag.
  - rewrite pairs_cons2. cbn [map concat fst snd].
    apply StronglySorted_inv in Hs. destruct Hs as [Hyb Hs].
    rewrite (IH y Hyb).
    rewrite (last_cons_cons s y b s y).
    apply slice_app.
    + inversion Hs; assumption.
    + now apply sorted_le_last.
Qed.

(** ** The fill loop writes the layout *)

Section LayoutFacts.
Context {sorter : TorchSort} {arith : TorchDouble}.
Variable keys : list Q.

Let n := ParallelGroupBy.n keys.
Let si := ParallelGroupBy.sorted_indices keys.
Let b := ParallelGroupBy.boundary keys.
Let width := ParallelGroupBy.width keys.

Lemma skipn_repeat_sub {A} (x : A) (k m : nat) : skipn k (repeat x m) = repeat x (m - k).
Proof.
  revert k; induction m as [|m IH]; intros [|k]; simpl; auto.
Qed.

Lemma decode_run_cells (fill : Z) (p : nat * nat) :
  map (decode fill) (run_cells keys p)
  = map Z.of_nat (slice (fst p) (snd p) si) ++ repeat fill (width - (snd p - fst p)).
Proof.
  unfold run_cells. rewrite map_app, map_map, map_repeat. reflexivity.
Qed.

Lemma fold_assign_run (fill : Z) (ps : list (nat * nat)) (done : list (list Z)) :
  fold_left (ParallelGroupBy.assign_run keys)
            (combine ps (seq (length done) (length ps)))
            (done ++ repeat (repeat fill width) (length ps))
  = done ++ map (fun p => map (decode fill) (run_cells keys p)) ps.
Proof.
  revert done; induction ps as [|[s e] ps IH]; intros done.
  - simpl. reflexivity.
  - cbn [length seq combine fold_left repeat map].
    unfold ParallelGroupBy.assign_run at 2.
    rewrite nth_middle_here, set_nth_app, skipn_repeat_sub.
    specialize (IH (done ++ [map (decode fill) (run_cells keys (s, e))])).
    rewrite length_app, Nat.add_1_r, <- !app_assoc in IH. cbn [app] in IH.
    rewrite decode_run_cells in IH. cbn [fst snd] in IH.
    fold si width. rewrite IH. rewrite decode_run_cells. reflexivity.
Qed.

Lemma fill_matrix_cells (fill : Z) :
  ParallelGroupBy.fill_matrix keys fill = map (map (decode fill)) (cells keys).
Proof.
  unfold ParallelGroupBy.fill_matrix, ParallelGroupBy.runs, ParallelGroupBy.new_full,
    ParallelGroupBy.groups, cells.
  rewrite <- pairs_length.
  pose proof (fold_assign_run fill (pairs (ParallelGroupBy.boundary keys)) []) as H.
  cbn [length app] in H. fold width. rewrite H. now rewrite map_map.
Qed.

(** *** Lengths *)

Lemma linspace_length (a c : Q) (k : nat) : length (linspace a c k) = k.
Proof. unfold linspace. now rewrite length_map, length_seq. Qed.

Lemma relative_key_length : length (ParallelGroupBy.relative_key keys) = n.
Proof.
  unfold ParallelGroupBy.relative_key. rewrite map2_length, linspace_double_length.
  unfold n, ParallelGroupBy.n. lia.
Qed.

Lemma sorted_indices_perm : Permutation si (seq 0 n).
Proof.
  unfold si, ParallelGroupBy.sorted_indices.
  rewrite <- relative_key_length. apply argsort_perm.
Qed.

Lemma sorted_indices_length : length si = n.
Proof. rewrite (Permutation_length sorted_indices_perm). apply length_seq. Qed.

Lemma sorted_keys_length : length (ParallelGroupBy.sorted_keys keys) = n.
Proof.
  unfold ParallelGroupBy.sorted_keys, gather. rewrite !length_map.
  apply sorted_indices_length.
Qed.

Lemma adjacent_diff_length (a : list Z) : length (adjacent_diff a) = length a - 1.
Proof.
  unfold adjacent_diff. rewrite map2_length, removelast_firstn_len, length_firstn.
  destruct a; simpl; lia.
Qed.

Lemma diff_length : length (ParallelGroupBy.diff keys) = n - 1.
Proof.
  unfold ParallelGroupBy.diff.
  now rewrite length_map, adjacent_diff_length, sorted_keys_length.
Qed.

End LayoutFacts.

(** ** nonzero *)

Lemma nonzero_from_In (l : list Z) (s k : nat) :
  In k (map fst (filter (fun p => negb (snd p =? 0)%Z) (combine (seq s (length l)) l)))
  <-> s <= k < s + length l /\ nth (k - s) l 0%Z <> 0%Z.
Proof.
  revert s; induction l as [|x l IH]; intros s.
  - simpl. split; [tauto|lia].
  - cbn [length seq combine filter snd].
    destruct (Z.eqb_spec x 0) as [E|E]; cbn [negb map fst In]; rewrite IH.
    + split.
      * intros [H1 H2]. split; [lia|].
        replace (k - s) with (S (k - S s)) by lia. exact H2.
      * intros [H1 H2]. destruct (Nat.eq_dec k s) as [->|Hks].
        { rewrite Nat.sub_diag in H2. simpl in H2. contradiction. }
        split; [lia|]. replace (k - s) with (S (k - S s)) in H2 by lia. exact H2.
    + split.
      * intros [<-|[H1 H2]].
        { split; [lia|]. now rewrite Nat.sub_diag. }
        split; [lia|]. replace (k - s) with (S (k - S s)) by lia. exact H2.
      * intros [H1 H2]. destruct (Nat.eq_dec s k) as [->|Hks]; [now left|right].
        split; [lia|]. replace (k - s) with (S (k - S s)) in H2 by lia. exact H2.
Qed.

Lemma nonzero_In (l : list Z) (k : nat) :
  In k (nonzero l) <-> k < length l /\ nth k l 0%Z <> 0%Z.
Proof.
  unfold nonzero. rewrite nonzero_from_In, Nat.sub_0_r. simpl. intuition lia.
Qed.

Lemma nonzero_from_sorted (l : list Z) (s : nat) :
  StronglySorted lt
    (map fst (filter (fun p => negb (snd p =? 0)%Z) (combine (seq s (length l)) l))).
Proof.
  revert s; induction l as [|x l IH]; intros s; [constructor|].
  cbn [length seq combine filter snd].
  destruct (negb (x =? 0)%Z); cbn [map fst]; [|apply IH].
  constructor; [apply IH|].
  apply Forall_forall. intros k Hk. apply nonzero_from_In in Hk. lia.
Qed.

Lemma nonzero_sorted (l : list Z) : StronglySorted lt (nonzero l).
Proof. apply nonzero_from_sorted. Qed.

(** ** Sorted lists *)

Lemma StronglySorted_app_intro {A} (R : A -> A -> Prop) (l1 l2 : list A) :
  StronglySorted R l1 -> StronglySorted R l2 ->
  (forall x y, In x l1 -> In y l2 -> R x y) ->
  StronglySorted R (l1 ++ l2).
Proof.
  induction l1 as [|a l1 IH]; simpl; intros H1 H2 H; [assumption|].
  apply StronglySorted_inv in H1. destruct H1 as [H1 Ha].
  constructor.
  - apply IH; auto.
  - apply Forall_app. split; [assumption|].
    apply Forall_forall. intros y Hy. apply H; auto.
Qed.

Lemma StronglySorted_map_S (l : list nat) :
  StronglySorted lt l -> StronglySorted lt (map S l).
Proof.
  induction 1 as [|a l Hl IH Ha]; simpl; constructor; auto.
  rewrite Forall_map. eapply Forall_impl; [|exact Ha]. simpl. intros; lia.
Qed.

Lemma StronglySorted_weaken {A} (R R' : A -> A -> Prop) (l : list A) :
  (forall x y, R x y -> R' x y) -> StronglySorted R l -> StronglySorted R' l.
Proof.
  intros HR. induction 1 as [|a l Hl IH Ha]; constructor; auto.
  eapply Forall_impl; [|exact Ha]. auto.
Qed.

(** ** The boundary *)

Section BoundaryFacts.
Context {sorter : TorchSort} {arith : TorchDouble}.
Variable keys : list Q.

Let n := ParallelGroupBy.n keys.
Let si := ParallelGroupBy.sorted_indices keys.
Let b := ParallelGroupBy.boundary keys.

Lemma boundary_mid_In (x : nat) :
  In x (map S (nonzero (ParallelGroupBy.diff keys))) <->
  exists k, x = S k /\ S k < n /\ nth k (ParallelGroupBy.diff keys) 0%Z <> 0%Z.
Proof.
  rewrite in_map_iff. split.
  - intros [k [<- Hk]]. apply nonzero_In in Hk. rewrite diff_length in Hk.
    exists k. fold n in Hk. repeat split; try tauto; lia.
  - intros [k [-> [Hk Hd]]]. exists k. split; [reflexivity|].
    apply nonzero_In. rewrite diff_length. fold n. split; [lia|assumption].
Qed.

Lemma boundary_sorted_lt : 0 < n -> StronglySorted lt b.
Proof.
  intros Hn. unfold b, ParallelGroupBy.boundary.
  apply StronglySorted_app_intro.
  - repeat constructor.
  - apply StronglySorted_app_intro.
    + apply StronglySorted_map_S, nonzero_sorted.
    + repeat constructor.
    + intros x y Hx [<-|[]]. apply boundary_mid_In in Hx.
      destruct Hx as [k [-> [Hk _]]]. exact Hk.
  - intros x y [<-|[]] Hy. apply in_app_or in Hy. destruct Hy as [Hy|[<-|[]]].
    + apply boundary_mid_In in Hy. destruct Hy as [k [-> _]]. lia.
    + exact Hn.
Qed.

Lemma boundary_sorted_le : StronglySorted le b.
Proof.
  destruct (Nat.eq_dec n 0) as [E|E].
  - unfold b, ParallelGroupBy.boundary.
    assert (Hnz : nonzero (ParallelGroupBy.diff keys) = []).
    { destruct (nonzero (ParallelGroupBy.diff keys)) as [|k l] eqn:Hk; [reflexivity|].
      assert (Hin : In k (nonzero (ParallelGroupBy.diff keys))) by (rewrite Hk; now left).
      apply nonzero_In in Hin. rewrite diff_length in Hin. fold n in Hin. lia. }
    rewrite Hnz. simpl. fold n. rewrite E. repeat constructor.
  - apply StronglySorted_weaken with (R := lt); [intros; lia|].
    apply boundary_sorted_lt. lia.
Qed.

Lemma boundary_last : last b 0 = n.
Proof.
  unfold b, ParallelGroupBy.boundary. rewrite app_assoc. apply last_last.
Qed.

Lemma boundary_head : exists r, b = 0 :: r.
Proof. unfold b, ParallelGroupBy.boundary. simpl. eauto. Qed.

(** The runs cut [sorted_indices] into consecutive pieces. *)
Lemma concat_runs :
  concat (map (fun p => slice (fst p) (snd p) si) (pairs b)) = si.
Proof.
  destruct boundary_head as [r Hr].
  pose proof boundary_sorted_le as Hs. pose proof boundary_last as Hl.
  rewrite Hr in *. rewrite concat_slices by assumption.
  rewrite Hl. unfold n. rewrite <- sorted_indices_length. apply slice_all.
Qed.

Lemma somes_app (l1 l2 : list (option nat)) : somes (l1 ++ l2) = somes l1 ++ somes l2.
Proof. apply flat_map_app. Qed.

Lemma somes_map_Some (l : list nat) : somes (map Some l) = l.
Proof. induction l as [|x l IH]; simpl; congruence. Qed.

Lemma somes_repeat_None (k : nat) : somes (repeat None k) = [].
Proof. induction k; simpl; auto. Qed.

Lemma somes_concat (ls : list (list (option nat))) :
  somes (concat ls) = concat (map somes ls).
Proof.
  induction ls as [|l ls IH]; simpl; [reflexivity|]. now rewrite somes_app, IH.
Qed.

Lemma somes_cells : somes (concat (cells keys)) = si.
Proof.
  rewrite somes_concat. unfold cells. rewrite map_map.
  rewrite <- concat_runs at 1. f_equal. apply map_ext. intros p.
  unfold run_cells. rewrite somes_app, somes_map_Some, somes_repeat_None.
  apply app_nil_r.
Qed.

End BoundaryFacts.

(** ** A sorted list is determined by its elements *)

Lemma sorted_perm_eq (l1 l2 : list Z) :
  StronglySorted Z.le l1 -> StronglySorted Z.le l2 -> Permutation l1 l2 -> l1 = l2.
Proof.
  revert l2; induction l1 as [|a l1 IH]; intros l2 H1 H2 HP.
  - apply Permutation_nil in HP. now subst.
  - destruct l2 as [|c l2].
    { apply Permutation_sym, Permutation_nil in HP. discriminate. }
    apply StronglySorted_inv in H1. destruct H1 as [H1 Ha].
    apply StronglySorted_inv in H2. destruct H2 as [H2 Hc].
    rewrite Forall_forall in Ha, Hc.
    assert (a = c).
    { assert (In a (c :: l2)) as [E|E]
          by (eapply Permutation_in; [exact HP|now left]); [now subst|].
      assert (In c (a :: l1)) as [E'|E']
          by (eapply Permutation_in; [symmetry; exact HP|now left]); [now subst|].
      apply Hc in E. apply Ha in E'. lia. }
    subst c. f_equal. apply IH; auto. eapply Permutation_cons_inv; eassumption.
Qed.

Lemma StronglySorted_map_intro {A B} (R : B -> B -> Prop) (f : A -> B) (l : list A) :
  StronglySorted (fun x y => R (f x) (f y)) l -> StronglySorted R (map f l).
Proof.
  induction 1 as [|a l Hl IH Ha]; simpl; constructor; auto.
  rewrite Forall_map. exact Ha.
Qed.

Lemma map_nth_seq {A} (l : list A) (d : A) :
  map (fun p => nth p l d) (seq 0 (length l)) = l.
Proof.
  induction l as [|x l IH]; [reflexivity|].
  cbn [length seq map nth]. f_equal.
  rewrite <- seq_shift, map_map. exact IH.
Qed.


Lemma cells_perm (l : list (option nat)) :
  Permutation l (map Some (somes l) ++ repeat None (length (filter is_padding l))).
Proof.
  induction l as [|[i|] l IH]; simpl.
  - constructor.
  - now constructor.
  - now apply Permutation_cons_app.
Qed.

Lemma somes_length_filter (l : list (option nat)) :
  length l = length (somes l) + length (filter is_padding l).
Proof.
  induction l as [|[i|] l IH]; simpl; lia.
Qed.

Lemma sorted_seq_Z (k s : nat) : StronglySorted Z.le (map Z.of_nat (seq s k)).
Proof.
  revert s; induction k as [|k IH]; intros s; simpl; constructor; [apply IH|].
  rewrite Forall_map. apply Forall_forall. intros x Hx. apply in_seq in Hx. lia.
Qed.

Lemma sorted_repeat_Z (x : Z) (k : nat) : StronglySorted Z.le (repeat x k).
Proof.
  induction k as [|k IH]; simpl; constructor; [exact IH|].
  apply Forall_forall. intros y Hy. apply repeat_spec in Hy. lia.
Qed.

(** ** The inverse index *)

Section InverseFacts.
Context {sorter : TorchSort} {arith : TorchDouble}.
Variable keys : list Q.

Let n := ParallelGroupBy.n keys.
Let si := ParallelGroupBy.sorted_indices keys.
Let fc := concat (cells keys).
Let big := Z.of_nat (n + 1).
Let flat_big := map (decode big) fc.
Let order := argsort (map inject_Z flat_big).

Lemma fill_matrix_flat (fill : Z) :
  concat (ParallelGroupBy.fill_matrix keys fill) = map (decode fill) fc.
Proof.
  rewrite fill_matrix_cells. unfold fc. now rewrite concat_map.
Qed.

Lemma cells_count : length fc = n + length (filter is_padding fc).
Proof.
  rewrite (somes_length_filter fc). unfold fc. rewrite somes_cells.
  now rewrite sorted_indices_length.
Qed.

Lemma flat_big_perm :
  Permutation flat_big
    (map Z.of_nat (seq 0 n) ++ repeat big (length (filter is_padding fc))).
Proof.
  unfold flat_big. rewrite (cells_perm fc) at 1.
  rewrite map_app, map_map, map_repeat. cbn [decode].
  apply Permutation_app_tail, Permutation_map.
  unfold fc. rewrite somes_cells. apply sorted_indices_perm.
Qed.

Lemma target_sorted (k : nat) :
  StronglySorted Z.le (map Z.of_nat (seq 0 n) ++ repeat big k).
Proof.
  apply StronglySorted_app_intro.
  - apply sorted_seq_Z.
  - apply sorted_repeat_Z.
  - intros x y Hx Hy. apply repeat_spec in Hy. subst y.
    apply in_map_iff in Hx. destruct Hx as [i [<- Hi]]. apply in_seq in Hi.
    unfold big. lia.
Qed.

Lemma order_perm : Permutation order (seq 0 (length fc)).
Proof.
  unfold order. replace (length fc) with (length (map inject_Z flat_big)).
  - apply argsort_perm.
  - unfold flat_big. now rewrite !length_map.
Qed.

Lemma order_values :
  map (fun p => nth p flat_big 0%Z) order
  = map Z.of_nat (seq 0 n) ++ repeat big (length (filter is_padding fc)).
Proof.
  apply sorted_perm_eq.
  - apply StronglySorted_map_intro.
    eapply StronglySorted_weaken; [|apply (argsort_sorted (map inject_Z flat_big))].
    intros x y. unfold key_at. change 0%Q with (inject_Z 0).
    rewrite !map_nth, <- Zle_Qle. auto.
  - apply target_sorted.
  - rewrite <- flat_big_perm. rewrite (Permutation_map _ order_perm).
    replace (length fc) with (length flat_big) by (unfold flat_big; apply length_map).
    now rewrite map_nth_seq.
Qed.

(** Entry [j] of the inverse index is the flat position of the cell that
    holds row [j]. *)
Lemma order_cell (j : nat) :
  j < n ->
  exists p, nth_error (firstn n order) j = Some p /\ nth_error fc p = Some (Some j).
Proof.
  intros Hj.
  assert (HL : length order = length fc)
    by (rewrite (Permutation_length order_perm); apply length_seq).
  pose proof cells_count as Hc.
  destruct (nth_error order j) as [p|] eqn:Hp.
  2:{ apply nth_error_None in Hp. lia. }
  exists p. split.
  { rewrite nth_error_firstn. destruct (Nat.ltb_spec j n); [assumption|lia]. }
  assert (Hpl : p < length fc).
  { apply nth_error_In in Hp. eapply Permutation_in in Hp; [|apply order_perm].
    apply in_seq in Hp. lia. }
  assert (Hv : nth p flat_big 0%Z = Z.of_nat j).
  { assert (E : nth_error (map (fun p => nth p flat_big 0%Z) order) j
                = Some (nth p flat_big 0%Z))
      by (rewrite nth_error_map, Hp; reflexivity).
    rewrite order_values, nth_error_app1 in E by (rewrite length_map, length_seq; lia).
    rewrite nth_error_map, nth_error_seq in E.
    destruct (Nat.ltb_spec j n); [|lia]. simpl in E. congruence. }
  destruct (nth_error fc p) as [c|] eqn:Hcell.
  2:{ apply nth_error_None in Hcell. lia. }
  f_equal. unfold flat_big in Hv.
  rewrite (nth_error_nth _ _ _ (map_nth_error (decode big) _ _ Hcell)) in Hv.
  destruct c as [i|]; simpl in Hv; [f_equal; lia|unfold big in Hv; lia].
Qed.

Lemma inverse_indices_eq :
  ParallelGroupBy.inverse_indices keys = map Z.of_nat (firstn n order).
Proof.
  unfold ParallelGroupBy.inverse_indices. rewrite fill_matrix_flat. reflexivity.
Qed.

Lemma inverse_order_length : length (firstn n order) = n.
Proof.
  rewrite length_firstn, (Permutation_length order_perm), length_seq.
  pose proof cells_count. lia.
Qed.


End InverseFacts.

(** ** split followed by revert *)

Lemma in_somes (l : list (option nat)) (i : nat) : In (Some i) l <-> In i (somes l).
Proof.
  unfold somes. rewrite in_flat_map. split.
  - intros H. exists (Some i). split; [assumption|now left].
  - intros [[j|] [H1 H2]]; simpl in H2; [|contradiction].
    destruct H2 as [->|[]]. assumption.
Qed.

Lemma take_one_nat {A} (flat : list A) (p : nat) :
  p < length flat -> take_one flat (Z.of_nat p) = nth_error flat p.
Proof.
  intros H. unfold take_one.
  destruct (Z.leb_spec 0 (Z.of_nat p)); [|lia].
  destruct (Z.ltb_spec (Z.of_nat p) (Z.of_nat (length flat))); [|lia].
  simpl. now rewrite Nat2Z.id.
Qed.

Lemma take_one_minus_one {A} (flat : list A) :
  0 < length flat -> take_one flat (-1) = nth_error flat (length flat - 1).
Proof.
  intros H. unfold take_one. cbn [Z.leb Z.compare andb].
  destruct (Z.leb_spec (- Z.of_nat (length flat)) (-1)); [|lia].
  cbn [Z.ltb Z.compare andb]. f_equal. lia.
Qed.

Section RoundTrip.
Context {sorter : TorchSort} {arith : TorchDouble}.
Variable keys : list Q.
Variable A : Type.
Variable nan : A.
Variable nan_as : dtype -> option A.

Let n := ParallelGroupBy.n keys.
Let fc := concat (cells keys).

Lemma boundary_empty : n = 0 -> ParallelGroupBy.boundary keys = [0; 0].
Proof.
  intros E. unfold ParallelGroupBy.boundary.
  assert (Hnz : nonzero (ParallelGroupBy.diff keys) = []).
  { destruct (nonzero (ParallelGroupBy.diff keys)) as [|k l] eqn:Hk; [reflexivity|].
    assert (Hin : In k (nonzero (ParallelGroupBy.diff keys))) by (rewrite Hk; now left).
    apply nonzero_In in Hin. rewrite diff_length in Hin. fold n in Hin. lia. }
  rewrite Hnz. simpl. fold n. now rewrite E.
Qed.

Lemma cells_empty : n = 0 -> fc = [].
Proof.
  intros E. unfold fc, cells, run_cells, ParallelGroupBy.width.
  rewrite (boundary_empty E). reflexivity.
Qed.

Lemma cell_index_range (i : nat) : In (Some i) fc -> i < n.
Proof.
  intros H. apply in_somes in H. unfold fc in H. rewrite somes_cells in H.
  eapply Permutation_in in H; [|apply sorted_indices_perm]. apply in_seq in H.
  unfold n. lia.
Qed.

(** What [split] stores in a cell. *)
Definition cell_value (v : list A) (c : option nat) : A :=
  match c with Some i => nth i v nan | None => nan end.

Lemma padding_mask_flat :
  concat (ParallelGroupBy.padding_mask keys) = map is_padding fc.
Proof.
  unfold ParallelGroupBy.padding_mask, ParallelGroupBy.take_indices.
  rewrite <- concat_map, fill_matrix_flat, map_map.
  apply map_ext. intros [i|]; simpl; [|reflexivity].
  destruct (Z.eqb_spec (Z.of_nat i) (-1)); [lia|reflexivity].
Qed.

Lemma split_value (v : tensor A) :
  is_floating_point (t_dtype v) = true ->
  length (t_data v) = n ->
  ParallelGroupBy.split nan nan_as (ParallelGroupBy.init keys) v
  = inr (Tensor (t_dtype v) [ParallelGroupBy.groups keys; ParallelGroupBy.width keys]
                (map (cell_value (t_data v)) fc)).
Proof.
  intros Hf Hlen. unfold ParallelGroupBy.split.
  cbn [ParallelGroupBy.init ParallelGroupBy._sorted_indices ParallelGroupBy._padding_mask
       ParallelGroupBy._groups ParallelGroupBy._width].
  unfold ParallelGroupBy.take_indices. rewrite fill_matrix_flat. fold fc.
  unfold take.
  rewrite (mapM_map_map _ _ (fun c => match c with
                             | Some i => nth i (t_data v) nan
                             | None => nth (n - 1) (t_data v) nan
                             end)).
  - change (ParallelGroupBy.split_assertion _) with true.
    unfold ParallelGroupBy.fill_scalar. rewrite Hf. cbv iota. do 2 f_equal.
    rewrite padding_mask_flat. unfold masked_fill. rewrite map2_map_same.
    apply map_ext. intros [i|]; reflexivity.
  - intros c Hc. destruct c as [i|]; cbn [decode].
    + apply cell_index_range in Hc.
      rewrite take_one_nat by lia. apply nth_error_nth'. lia.
    + assert (0 < n).
      { destruct (Nat.eq_dec n 0) as [E|E]; [|lia].
        rewrite (cells_empty E) in Hc. contradiction. }
      rewrite take_one_minus_one by lia. rewrite Hlen. apply nth_error_nth'. lia.
Qed.

End RoundTrip.

(** ** The layout is a rectangle *)

Lemma map2_combine {A B C} (f : A -> B -> C) (xs : list A) (ys : list B) :
  map2 f xs ys = map (fun p => f (fst p) (snd p)) (combine xs ys).
Proof.
  revert ys; induction xs as [|x xs IH]; intros [|y ys]; simpl; try reflexivity.
  now rewrite IH.
Qed.

Lemma list_max_nat_ge (l : list nat) (x : nat) : In x l -> x <= list_max_nat l.
Proof.
  induction l as [|y l IH]; simpl; [tauto|]. intros [->|H]; [lia|].
  apply IH in H. lia.
Qed.

Lemma concat_length_rect {A} (ls : list (list A)) (w : nat) :
  (forall l, In l ls -> length l = w) -> length (concat ls) = length ls * w.
Proof.
  induction ls as [|l ls IH]; simpl; intros H; [reflexivity|].
  rewrite length_app, IH, (H l) by auto. reflexivity.
Qed.

Lemma pairs_In_snd (b : list nat) (s e : nat) : In (s, e) (pairs b) -> In e b.
Proof.
  intros H. apply in_combine_r in H. destruct b; simpl in *; auto.
Qed.


Section Rectangle.
Context {sorter : TorchSort} {arith : TorchDouble}.
Variable keys : list Q.

Let n := ParallelGroupBy.n keys.
Let width := ParallelGroupBy.width keys.
Let groups := ParallelGroupBy.groups keys.
Let fc := concat (cells keys).

Lemma boundary_le_n (x : nat) : In x (ParallelGroupBy.boundary keys) -> x <= n.
Proof.
  unfold ParallelGroupBy.boundary. cbn [app In]. intros [<-|H]; [lia|].
  apply in_app_or in H. destruct H as [H|[<-|[]]]; [|unfold n; lia].
  apply boundary_mid_In in H. destruct H as [k [-> [Hk _]]]. unfold n. lia.
Qed.

Lemma run_width (s e : nat) :
  In (s, e) (pairs (ParallelGroupBy.boundary keys)) -> e - s <= width.
Proof.
  intros H. unfold width, ParallelGroupBy.width, np_diff.
  apply list_max_nat_ge. rewrite map2_combine.
  apply in_map_iff. exists (e, s). split; [reflexivity|].
  unfold pairs in H. clear -H.
  revert H. generalize (ParallelGroupBy.boundary keys) as b.
  intros b. generalize (removelast b), (tl b). intros l1 l2.
  revert l2; induction l1 as [|x l1 IH]; intros [|y l2]; simpl; try tauto.
  intros [E|H]; [left; congruence|right; auto].
Qed.

Lemma run_cells_length (p : nat * nat) :
  In p (pairs (ParallelGroupBy.boundary keys)) -> length (run_cells keys p) = width.
Proof.
  destruct p as [s e]. intros H. unfold run_cells.
  rewrite length_app, length_map, repeat_length. cbn [fst snd].
  rewrite slice_length.
  - apply run_width in H. fold width. lia.
  - rewrite sorted_indices_length. apply boundary_le_n.
    eapply pairs_In_snd; eassumption.
Qed.

Lemma cells_length : length (cells keys) = groups.
Proof.
  unfold cells, groups, ParallelGroupBy.groups. now rewrite length_map, pairs_length.
Qed.

Lemma cells_flat_length : length fc = groups * width.
Proof.
  unfold fc. rewrite (@concat_length_rect _ (cells keys) width), cells_length;
    [reflexivity|].
  intros l Hl. unfold cells in Hl. apply in_map_iff in Hl.
  destruct Hl as [p [<- Hp]]. now apply run_cells_length.
Qed.

End Rectangle.

(** ** revert *)

Lemma shape_eqb_eq (a b : list nat) : shape_eqb a b = true <-> a = b.
Proof. unfold shape_eqb. destruct (list_eq_dec Nat.eq_dec a b); intuition congruence. Qed.

Section Revert.
Context {sorter : TorchSort} {arith : TorchDouble}.
Variable keys : list Q.
Variable A : Type.

Let n := ParallelGroupBy.n keys.
Let fc := concat (cells keys).
Let g := ParallelGroupBy.init keys.

(** The positions read by [revert]. *)
Definition inverse_order : list nat :=
  firstn (ParallelGroupBy.n keys)
         (argsort (map inject_Z
                       (map (decode (Z.of_nat (ParallelGroupBy.n keys + 1)))
                            (concat (cells keys))))).

Lemma inverse_order_range (p : nat) : In p inverse_order -> p < length fc.
Proof.
  intros H. unfold inverse_order in H.
  apply (In_nth_error _ _) in H. destruct H as [j Hj].
  rewrite nth_error_firstn in Hj.
  destruct (Nat.ltb_spec j (ParallelGroupBy.n keys)); [|discriminate].
  apply nth_error_In in Hj. eapply Permutation_in in Hj; [|apply order_perm].
  apply in_seq in Hj. fold fc in Hj. lia.
Qed.

Lemma revert_ok (buf : tensor A) (d : A) (label : string) :
  t_shape buf = ParallelGroupBy._data_shape g ->
  length (t_data buf) = ParallelGroupBy.groups keys * ParallelGroupBy.width keys ->
  ParallelGroupBy.revert g buf label
  = inr (Tensor (t_dtype buf) [n] (map (fun p => nth p (t_data buf) d) inverse_order)).
Proof.
  intros Hs Hl. unfold ParallelGroupBy.revert.
  rewrite (proj2 (shape_eqb_eq _ _) Hs). cbn [negb].
  unfold g. cbn [ParallelGroupBy.init ParallelGroupBy._inverse_indices].
  rewrite inverse_indices_eq. fold inverse_order.
  unfold take. rewrite (mapM_map_map _ _ (fun p => nth p (t_data buf) d)).
  - rewrite length_map. unfold inverse_order. rewrite inverse_order_length. reflexivity.
  - intros p Hp. apply inverse_order_range in Hp.
    unfold fc in Hp. rewrite cells_flat_length, <- Hl in Hp.
    rewrite take_one_nat by assumption. now apply nth_error_nth'.
Qed.

End Revert.

(** ** C1: the round trip *)

(** C1.  For every sort primitive, every key vector of length N and every
    floating-point value vector [v] of length N, [split] succeeds and
    [revert] of its result, under any label, returns [v] itself: the same
    element type, the same shape and the same contents, position by
    position. *)
Theorem revert_split_roundtrip
        (sorter : TorchSort) (arith : TorchDouble) (A : Type) (nan : A) (nan_as : dtype -> option A)
        (keys : list Q) (v : tensor A) (label : string) :
  is_floating_point (t_dtype v) = true ->
  t_shape v = [length keys] ->
  length (t_data v) = length keys ->
  exists sd,
    ParallelGroupBy.split nan nan_as (ParallelGroupBy.init keys) v = inr sd /\
    ParallelGroupBy.revert (ParallelGroupBy.init keys) sd label = inr v.
Proof.
  intros Hf Hshape Hlen.
  rewrite (@split_value sorter arith keys A nan nan_as v Hf Hlen).
  eexists. split; [reflexivity|].
  rewrite (@revert_ok sorter arith keys A _ nan label); cbn [t_shape t_data t_dtype].
  2: reflexivity.
  2:{ rewrite length_map. apply cells_flat_length. }
  destruct v as [dt sh data]. cbn [t_shape t_data t_dtype] in *.
  subst sh. do 2 f_equal.
  apply nth_error_ext. intros j.
  destruct (Nat.lt_ge_cases j (ParallelGroupBy.n keys)) as [Hj|Hj].
  - destruct (@order_cell sorter arith keys j Hj) as [p [Hp Hcell]].
    unfold inverse_order. rewrite nth_error_map, Hp. cbn [option_map].
    rewrite (nth_error_nth _ _ _ (map_nth_error (cell_value nan data) _ _ Hcell)).
    cbn [cell_value]. symmetry. apply nth_error_nth'.
    unfold ParallelGroupBy.n in Hj. lia.
  - transitivity (@None A).
    + apply nth_error_None. rewrite length_map. unfold inverse_order.
      rewrite inverse_order_length. exact Hj.
    + symmetry. apply nth_error_None. unfold ParallelGroupBy.n in Hj. lia.
Qed.

Lemma revert_split_roundtrip_witness :
  exists sd,
    ParallelGroupBy.split 0%Z (fun _ => None)
      (ParallelGroupBy.init [1; 0; 1; 2; 0; 1]%Q)
      (Tensor float32 [6] [10; 20; 30; 40; 50; 60]%Z) = inr sd /\
    ParallelGroupBy.revert (ParallelGroupBy.init [1; 0; 1; 2; 0; 1]%Q) sd "f"
    = inr (Tensor float32 [6] [10; 20; 30; 40; 50; 60]%Z).
Proof.
  apply (@revert_split_roundtrip insertion_sort binary64 Z 0%Z (fun _ => None)
           [1; 0; 1; 2; 0; 1]%Q (Tensor float32 [6] [10; 20; 30; 40; 50; 60]%Z) "f");
    reflexivity.
Defined.

(** ** C6: the errors of revert *)

Lemma string_app_assoc (a b c : string) : ((a ++ b) ++ c = a ++ (b ++ c))%string.
Proof. induction a as [|x a IH]; simpl; congruence. Qed.

Lemma includes_here (pre sub post : string) : includes sub (pre ++ sub ++ post).
Proof. exists pre, post. reflexivity. Qed.

Lemma includes_after (pre sub s : string) : includes sub s -> includes sub (pre ++ s).
Proof.
  intros [a [c ->]]. exists (pre ++ a)%string, c. now rewrite string_app_assoc.
Qed.

Lemma includes_last (pre sub : string) : includes sub (pre ++ sub).
Proof.
  exists pre, EmptyString. f_equal. induction sub as [|x sub IH]; simpl; congruence.
Qed.

Lemma multi_value_msg_includes (shape expected : list nat) (label : string) :
  includes (tuple_str shape) (ParallelGroupBy.multi_value_msg shape label expected) /\
  includes (tuple_str expected) (ParallelGroupBy.multi_value_msg shape label expected) /\
  includes label (ParallelGroupBy.multi_value_msg shape label expected).
Proof.
  unfold ParallelGroupBy.multi_value_msg. repeat split.
  - do 6 apply includes_after. apply includes_here.
  - apply includes_here.
  - do 3 apply includes_after. apply includes_here.
Qed.

Lemma shape_msg_includes (shape expected : list nat) (label : string) :
  includes (tuple_str shape) (ParallelGroupBy.shape_msg shape label expected) /\
  includes (tuple_str expected) (ParallelGroupBy.shape_msg shape label expected) /\
  includes label (ParallelGroupBy.shape_msg shape label expected).
Proof.
  unfold ParallelGroupBy.shape_msg. repeat split.
  - apply includes_here.
  - do 4 apply includes_after. apply includes_here.
  - do 2 apply includes_after. apply includes_here.
Qed.

Lemma messages_differ (s1 e1 s2 e2 : list nat) (l1 l2 : string) :
  ParallelGroupBy.multi_value_msg s1 l1 e1 <> ParallelGroupBy.shape_msg s2 l2 e2.
Proof.
  unfold ParallelGroupBy.multi_value_msg, ParallelGroupBy.shape_msg.
  cbn [String.append]. intros H. discriminate H.
Qed.

(** C6.  [revert] on a buffer whose shape is not [(groups, width)] raises a
    [ValueError] whose message contains the shape received, the shape
    expected and the label; the message is the "multiple return values" hint
    exactly when the first two dimensions agree, and the generic message
    otherwise, and the two messages are never equal.  On a buffer of shape
    [(groups, width)] (with that many elements) [revert] returns a value. *)
Theorem revert_shape_errors
        (sorter : TorchSort) (arith : TorchDouble) (A : Type) (keys : list Q) (buf : tensor A) (label : string) :
  let g := ParallelGroupBy.init keys in
  let expected := [ParallelGroupBy.groups keys; ParallelGroupBy.width keys] in
  (t_shape buf <> expected ->
   exists msg,
     ParallelGroupBy.revert g buf label = inl (ValueError msg) /\
     includes (tuple_str (t_shape buf)) msg /\
     includes (tuple_str expected) msg /\
     includes label msg /\
     (firstn 2 (t_shape buf) = expected ->
      msg = ParallelGroupBy.multi_value_msg (t_shape buf) label expected) /\
     (firstn 2 (t_shape buf) <> expected ->
      msg = ParallelGroupBy.shape_msg (t_shape buf) label expected)) /\
  (forall s1 s2 l1 l2,
      ParallelGroupBy.multi_value_msg s1 l1 expected
      <> ParallelGroupBy.shape_msg s2 l2 expected) /\
  (t_shape buf = expected ->
   length (t_data buf) = ParallelGroupBy.groups keys * ParallelGroupBy.width keys ->
   exists r, ParallelGroupBy.revert g buf label = inr r).
Proof.
  intros g expected. repeat split.
  - intros Hne. unfold ParallelGroupBy.revert.
    change (ParallelGroupBy._data_shape g) with expected.
    destruct (shape_eqb (t_shape buf) expected) eqn:E.
    { apply shape_eqb_eq in E. contradiction. }
    cbn [negb]. change (firstn 2 expected) with expected.
    destruct (shape_eqb (firstn 2 (t_shape buf)) expected) eqn:E2.
    + apply shape_eqb_eq in E2. eexists. split; [reflexivity|].
      destruct (multi_value_msg_includes (t_shape buf) expected label) as [H1 [H2 H3]].
      repeat split; auto. intros; contradiction.
    + assert (firstn 2 (t_shape buf) <> expected).
      { intros H. apply shape_eqb_eq in H. congruence. }
      eexists. split; [reflexivity|].
      destruct (shape_msg_includes (t_shape buf) expected label) as [H1 [H2 H3]].
      repeat split; auto. intros; contradiction.
  - intros. apply messages_differ.
  - intros Hs Hl.
    destruct (t_data buf) as [|d rest] eqn:Hd.
    + eexists. unfold ParallelGroupBy.revert.
      change (ParallelGroupBy._data_shape g) with expected.
      rewrite (proj2 (shape_eqb_eq _ _) Hs). cbn [negb].
      unfold g. cbn [ParallelGroupBy.init ParallelGroupBy._inverse_indices].
      rewrite inverse_indices_eq, Hd.
      assert (Hn : ParallelGroupBy.n keys = 0).
      { pose proof (@cells_count sorter arith keys) as Hc.
        rewrite cells_flat_length in Hc. simpl in Hl. lia. }
      rewrite Hn. reflexivity.
    + eexists. apply (@revert_ok sorter arith keys A buf d label); [exact Hs|].
      rewrite Hd. exact Hl.
Qed.

Lemma revert_shape_errors_witness :
  exists msg,
    ParallelGroupBy.revert (ParallelGroupBy.init [1; 0; 1; 2; 0; 1]%Q)
                           (Tensor float32 [3; 4] (repeat 0%Z 12)) "f"
    = inl (ValueError msg) /\ includes "(3, 4)" msg /\ includes "(3, 3)" msg.
Proof.
  destruct (@revert_shape_errors insertion_sort binary64 Z [1; 0; 1; 2; 0; 1]%Q
              (Tensor float32 [3; 4] (repeat 0%Z 12)) "f") as [H _].
  destruct H as [msg [H1 [H2 [H3 _]]]].
  - cbv. discriminate.
  - exists msg. repeat split; assumption.
Defined.

(** ** Evenly spaced values and truncation *)

Lemma linspace_nth (a c : Q) (k i : nat) :
  i < k ->
  key_at (linspace a c k) i
  = (a + (c - a) * (inject_Z (Z.of_nat i) / inject_Z (Z.of_nat (k - 1))))%Q.
Proof.
  intros H. unfold key_at, linspace. apply nth_error_nth.
  rewrite nth_error_map, nth_error_seq.
  destruct (Nat.ltb_spec i k); [reflexivity|lia].
Qed.

Lemma ratio_bounds (i m : nat) :
  i <= m -> (0 <= inject_Z (Z.of_nat i) / inject_Z (Z.of_nat m) <= 1)%Q.
Proof.
  intros H. destruct m as [|m].
  - replace i with 0 by lia. split; discriminate.
  - assert (Hm : (0 < inject_Z (Z.of_nat (S m)))%Q).
    { change 0%Q with (inject_Z 0). rewrite <- Zlt_Qlt. lia. }
    split.
    + apply Qle_shift_div_l; [assumption|]. rewrite Qmult_0_l.
      change 0%Q with (inject_Z 0). rewrite <- Zle_Qle. lia.
    + apply Qle_shift_div_r; [assumption|]. rewrite Qmult_1_l.
      rewrite <- Zle_Qle. lia.
Qed.

Lemma ratio_lt (i j m : nat) :
  i < j -> j <= m ->
  (inject_Z (Z.of_nat i) / inject_Z (Z.of_nat m)
   < inject_Z (Z.of_nat j) / inject_Z (Z.of_nat m))%Q.
Proof.
  intros Hij Hjm. unfold Qdiv. apply Qmult_lt_compat_r.
  - apply Qinv_lt_0_compat. change 0%Q with (inject_Z 0). rewrite <- Zlt_Qlt. lia.
  - rewrite <- Zlt_Qlt. lia.
Qed.


(** ** C2: the invariant of the layout *)



Section Invariant.
Context {sorter : TorchSort} {arith : TorchDouble}.
Variable keys : list Q.

Let g := ParallelGroupBy.init keys.
Let fc := concat (cells keys).




End Invariant.

(** *** One matrix row, one key *)







Section SameRow.
Context {sorter : TorchSort} {arith : TorchDouble}.
Variable keys : list Q.

Let n := ParallelGroupBy.n keys.
Let si := ParallelGroupBy.sorted_indices keys.
Let b := ParallelGroupBy.boundary keys.










End SameRow.





(** Keys beyond the int32 range: 2^31 and 2^31 + 1 both convert to the
    smallest int32, so the two rows share a matrix row. *)
Example group_layout_int32 :
  ParallelGroupBy._sorted_indices
    (@ParallelGroupBy.init insertion_sort binary64
       [inject_Z (2 ^ 31); inject_Z (2 ^ 31 + 1)])
  = [[0; 1]]%Z.
Proof. vm_compute. reflexivity. Qed.

(** ** C4: stability *)


Lemma concat_nth_error {A} (ls : list (list A)) (p : nat) (x : A) :
  nth_error (concat ls) p = Some x ->
  exists r c row, nth_error ls r = Some row /\ nth_error row c = Some x.
Proof.
  revert p; induction ls as [|l ls IH]; intros p H.
  - destruct p; discriminate.
  - cbn [concat] in H. destruct (Nat.lt_ge_cases p (length l)) as [Hp|Hp].
    + rewrite nth_error_app1 in H by assumption. exists 0, p, l. split; [reflexivity|assumption].
    + rewrite nth_error_app2 in H by assumption.
      destruct (IH _ H) as [r [c [row [H1 H2]]]]. exists (S r), c, row. split; assumption.
Qed.

Lemma concat_lex {A} (ls : list (list A)) (p q : nat) (x y : A) :
  p < q -> nth_error (concat ls) p = Some x -> nth_error (concat ls) q = Some y ->
  exists r1 c1 r2 c2 row1 row2,
    nth_error ls r1 = Some row1 /\ nth_error row1 c1 = Some x /\
    nth_error ls r2 = Some row2 /\ nth_error row2 c2 = Some y /\
    (r1 < r2 \/ (r1 = r2 /\ c1 < c2)).
Proof.
  revert p q; induction ls as [|l ls IH]; intros p q Hpq Hp Hq.
  - destruct p; discriminate.
  - cbn [concat] in Hp, Hq.
    destruct (Nat.lt_ge_cases p (length l)) as [Hpl|Hpl].
    + rewrite nth_error_app1 in Hp by assumption.
      destruct (Nat.lt_ge_cases q (length l)) as [Hql|Hql].
      * rewrite nth_error_app1 in Hq by assumption.
        exists 0, p, 0, q, l, l. repeat split; auto.
      * rewrite nth_error_app2 in Hq by assumption.
        destruct (concat_nth_error _ _ Hq) as [r [c [row [H1 H2]]]].
        exists 0, p, (S r), c, l, row. repeat split; auto. left. lia.
    + rewrite nth_error_app2 in Hp, Hq by lia.
      destruct (IH (p - length l) (q - length l)) as
          [r1 [c1 [r2 [c2 [row1 [row2 [H1 [H2 [H3 [H4 H5]]]]]]]]]]; try assumption; [lia|].
      exists (S r1), c1, (S r2), c2, row1, row2. repeat split; auto. lia.
Qed.


Section Stability.
Context {sorter : TorchSort} {arith : TorchDouble}.
Variable keys : list Q.

Let n := ParallelGroupBy.n keys.
Let si := ParallelGroupBy.sorted_indices keys.
Let b := ParallelGroupBy.boundary keys.











End Stability.





(** ** C5: the element type check of split *)

Lemma split_assertion_true (A : Type) (ret : tensor A) :
  ParallelGroupBy.split_assertion ret = true.
Proof. reflexivity. Qed.

(** C5.  The assertion of [split] compares the attribute [ret.type], a bound
    method, with dtype objects, so its condition holds for every tensor:
    [split] never raises its "tensor cannot be any type of int" error.  A
    floating-point buffer of length N is split without error; for an
    integral buffer of length N the outcome is whatever [masked_fill_] does
    with [np.nan]: a filled tensor, or the error of the conversion. *)
Theorem split_type_check
        (sorter : TorchSort) (arith : TorchDouble) (A : Type) (nan : A) (nan_as : dtype -> option A)
        (keys : list Q) (data : tensor A) :
  (forall msg,
      ParallelGroupBy.split nan nan_as (ParallelGroupBy.init keys) data
      <> inl (AssertionError msg)) /\
  (is_floating_point (t_dtype data) = true -> length (t_data data) = length keys ->
   exists r, ParallelGroupBy.split nan nan_as (ParallelGroupBy.init keys) data = inr r) /\
  (is_integral (t_dtype data) = true -> length (t_data data) = length keys ->
   match nan_as (t_dtype data) with
   | Some _ =>
       exists r, ParallelGroupBy.split nan nan_as (ParallelGroupBy.init keys) data = inr r
   | None =>
       ParallelGroupBy.split nan nan_as (ParallelGroupBy.init keys) data = inl RuntimeError
   end).
Proof.
  split; [|split].
  - intros msg. unfold ParallelGroupBy.split.
    destruct (take _ _); [|discriminate].
    rewrite split_assertion_true.
    destruct (ParallelGroupBy.fill_scalar _ _ _); discriminate.
  - intros Hf Hlen. rewrite (@split_value sorter arith keys A nan nan_as data Hf Hlen). eauto.
  - intros Hi Hlen.
    assert (Hnf : is_floating_point (t_dtype data) = false)
      by (destruct (t_dtype data); simpl in *; congruence).
    pose proof (@split_value sorter arith keys A nan nan_as
                  (Tensor float32 (t_shape data) (t_data data)) eq_refl Hlen) as Hs.
    unfold ParallelGroupBy.split in *. cbn [t_data t_dtype] in Hs.
    destruct (take (t_data data) _) as [taken|]; [|discriminate Hs].
    rewrite split_assertion_true. unfold ParallelGroupBy.fill_scalar. rewrite Hnf.
    destruct (nan_as (t_dtype data)); eauto.
Qed.

Lemma split_type_check_witness :
  @ParallelGroupBy.split Z 0%Z (fun _ => None)
     (@ParallelGroupBy.init insertion_sort binary64 [0; 0; 1]%Q) (Tensor int64 [3] [1; 2; 3]%Z)
  = inl RuntimeError.
Proof.
  destruct (@split_type_check insertion_sort binary64 Z 0%Z (fun _ => None) [0; 0; 1]%Q
              (Tensor int64 [3] [1; 2; 3]%Z)) as [_ [_ H]].
  apply H; reflexivity.
Defined.

(** The integral buffer [1, 2, 3] under the keys [0, 0, 1]: no type error is
    raised; the buffer is gathered and the padded cell is filled with the
    integer that the tensor library stores for [np.nan] (here -2^63). *)
Example split_int64_buffer :
  @ParallelGroupBy.split Z 0%Z (fun _ => Some (-9223372036854775808)%Z)
     (@ParallelGroupBy.init insertion_sort binary64 [0; 0; 1]%Q) (Tensor int64 [3] [1; 2; 3]%Z)
  = inr (Tensor int64 [2; 2] [1; 2; 3; -9223372036854775808]%Z).
Proof. vm_compute. reflexivity. Qed.

(** ** C7: the NaN-aware reductions *)

Section NanReductions.
Variables prec emax : Z.

Lemma fill_nan_all (v : spec_float) (k : nat) :
  fill_nan v (repeat S754_nan k) = repeat v k.
Proof. induction k as [|k IH]; simpl; [reflexivity|]. now rewrite <- IH. Qed.

Lemma fsum_zeros (k : nat) : fsum prec emax (repeat (S754_zero false) k) = S754_zero false.
Proof.
  unfold fsum. induction k as [|k IH]; simpl; [reflexivity|]. exact IH.
Qed.

Lemma count_not_nan_all (k : nat) : count_not_nan (repeat S754_nan k) = 0%Z.
Proof.
  unfold count_not_nan. induction k as [|k IH]; simpl; [reflexivity|]. exact IH.
Qed.

Lemma fmax_ninf (k : nat) :
  fold_left fmax2 (repeat (S754_infinity true) k) (S754_infinity true) = S754_infinity true.
Proof. induction k as [|k IH]; simpl; [reflexivity|]. exact IH. Qed.

Lemma all_missing_axis (k : nat) :
  nansum_axis prec emax (repeat S754_nan k) = S754_zero false /\
  nanmean_axis prec emax (repeat S754_nan k) = S754_nan /\
  nanmax_axis (repeat S754_nan (S k)) = inr (S754_infinity true).
Proof.
  unfold nansum_axis, nanmean_axis, nanmax_axis.
  rewrite !fill_nan_all, fsum_zeros, count_not_nan_all. repeat split.
  cbn [repeat fmax]. now rewrite fmax_ninf.
Qed.

End NanReductions.

(** The row [10, 20, 30, 40] in the format [prec], [emax]. *)
Definition example_row (prec emax : Z) : list spec_float :=
  map (F_of_Z prec emax) [10; 20; 30; 40]%Z.

(** What C8 states in one format, with the default [_split_multi = 64]. *)
Definition rolling_example (prec emax : Z) : Prop :=
  let f := F_of_Z prec emax in
  Rolling.unfold [example_row prec emax] 2 S754_nan
  = inr [[[S754_nan; f 10]; [f 10; f 20]; [f 20; f 30]; [f 30; f 40]]]%Z /\
  exists r,
    Rolling.init prec emax Rolling._split_multi [example_row prec emax] 2 None = inr r /\
    Rolling.last prec emax r = inr [example_row prec emax] /\
    Rolling.first prec emax r = inr [[S754_nan; f 10; f 20; f 30]]%Z.

(** C8.  In single and in double precision, for the single row
    [10, 20, 30, 40] and [win = 2]: [unfold] yields the windows
    [[NaN,10],[10,20],[20,30],[30,40]], [last()] returns the row itself and
    [first()] returns [NaN, 10, 20, 30]. *)
Theorem rolling_window_example : rolling_example 24 128 /\ rolling_example 53 1024.
Proof.
  split.
  - split; [vm_compute; reflexivity|].
    eexists. split; [vm_compute; reflexivity|]. split; vm_compute; reflexivity.
  - split; [vm_compute; reflexivity|].
    eexists. split; [vm_compute; reflexivity|]. split; vm_compute; reflexivity.
Qed.

(** ** The error monad on lists *)

Lemma mapR_app {A B} (g : A -> result B) (l1 l2 : list A) :
  mapR g (l1 ++ l2) = (a <- mapR g l1 ;; b <- mapR g l2 ;; inr (a ++ b)).
Proof.
  induction l1 as [|x l1 IH]; simpl.
  - destruct (mapR g l2); reflexivity.
  - destruct (g x) as [e|y]; simpl; [reflexivity|].
    rewrite IH. destruct (mapR g l1) as [e|a]; simpl; [reflexivity|].
    destruct (mapR g l2); reflexivity.
Qed.

Lemma mapR_concat {A B} (g : A -> result B) (ls : list (list A)) :
  mapR g (concat ls) = (cs <- mapR (mapR g) ls ;; inr (concat cs)).
Proof.
  induction ls as [|l ls IH]; simpl; [reflexivity|].
  rewrite mapR_app, IH.
  destruct (mapR g l) as [e|a]; simpl; [reflexivity|].
  destruct (mapR (mapR g) ls); reflexivity.
Qed.

Lemma mapR_ext_in {A B} (g h : A -> result B) (l : list A) :
  (forall x, In x l -> g x = h x) -> mapR g l = mapR h l.
Proof.
  induction l as [|x l IH]; intros H; simpl; [reflexivity|].
  rewrite (H x) by now left. rewrite IH; [reflexivity|].
  intros y Hy. apply H. now right.
Qed.

Lemma mapR_map {A B C} (g : B -> result C) (h : A -> B) (l : list A) :
  mapR g (map h l) = mapR (fun x => g (h x)) l.
Proof.
  induction l as [|x l IH]; simpl; [reflexivity|]. now rewrite IH.
Qed.

Lemma mapR_length {A B} (g : A -> result B) (l : list A) (l' : list B) :
  mapR g l = inr l' -> length l' = length l.
Proof.
  revert l'; induction l as [|x l IH]; simpl; intros l' H.
  - injection H as <-. reflexivity.
  - destruct (g x) as [e|y]; simpl in H; [discriminate|].
    destruct (mapR g l) as [e|ys]; simpl in H; [discriminate|].
    injection H as <-. simpl. f_equal. now apply IH.
Qed.

Lemma mapR_pure {A B} (h : A -> B) (l : list A) :
  mapR (fun x => inr (h x)) l = inr (map h l).
Proof.
  induction l as [|x l IH]; simpl; [reflexivity|]. now rewrite IH.
Qed.

Lemma mapR_firstn {A B} (g : A -> result B) (k : nat) (l : list A) (l' : list B) :
  mapR g l = inr l' -> mapR g (firstn k l) = inr (firstn k l').
Proof.
  revert l l'; induction k as [|k IH]; intros l l' H; [reflexivity|].
  destruct l as [|x l]; simpl in H.
  - injection H as <-. reflexivity.
  - destruct (g x) as [e|y] eqn:Ex; simpl in H; [discriminate|].
    destruct (mapR g l) as [e|ys] eqn:El; simpl in H; [discriminate|].
    injection H as <-. simpl. rewrite Ex. simpl. now rewrite (IH l ys El).
Qed.

Lemma mapR_skipn {A B} (g : A -> result B) (k : nat) (l : list A) (l' : list B) :
  mapR g l = inr l' -> mapR g (skipn k l) = inr (skipn k l').
Proof.
  revert l l'; induction k as [|k IH]; intros l l' H; [exact H|].
  destruct l as [|x l]; simpl in H.
  - injection H as <-. reflexivity.
  - destruct (g x) as [e|y] eqn:Ex; simpl in H; [discriminate|].
    destruct (mapR g l) as [e|ys] eqn:El; simpl in H; [discriminate|].
    injection H as <-. simpl. now apply IH.
Qed.

Lemma mapR_slice {A B} (g : A -> result B) (s e : nat) (l : list A) (l' : list B) :
  mapR g l = inr l' -> mapR g (slice s e l) = inr (slice s e l').
Proof.
  intros H. unfold slice. apply mapR_firstn, mapR_skipn, H.
Qed.

Lemma combine_skipn {A B} (k : nat) (xs : list A) (ys : list B) :
  combine (skipn k xs) (skipn k ys) = skipn k (combine xs ys).
Proof.
  revert xs ys; induction k as [|k IH]; intros xs ys; [reflexivity|].
  destruct xs as [|x xs]; [reflexivity|].
  destruct ys as [|y ys]; simpl.
  - now rewrite combine_nil.
  - apply IH.
Qed.

Lemma combine_slice {A B} (s e : nat) (xs : list A) (ys : list B) :
  combine (slice s e xs) (slice s e ys) = slice s e (combine xs ys).
Proof.
  unfold slice. now rewrite <- combine_firstn, combine_skipn.
Qed.

Lemma slice_length_min {A} (s e : nat) (l : list A) :
  length (slice s e l) = Nat.min (e - s) (length l - s).
Proof. unfold slice. now rewrite length_firstn, length_skipn. Qed.

Lemma slice_seq (s e k : nat) : e <= k -> slice s e (seq 0 k) = seq s (e - s).
Proof.
  intros H. unfold slice. rewrite skipn_seq. simpl.
  destruct (Nat.le_gt_cases s e) as [Hse|Hse].
  2:{ replace (e - s) with 0 by lia. reflexivity. }
  replace (k - s) with ((e - s) + (k - e)) by lia.
  rewrite seq_app, firstn_app, length_seq, Nat.sub_diag. simpl.
  rewrite app_nil_r. apply firstn_all2. rewrite length_seq. lia.
Qed.

(** ** Slices of the adjusted buffer *)

Lemma slice_clamp {A} (s e : nat) (l : list A) :
  slice (Nat.min s (length l)) (Nat.min e (length l)) l = slice s e l.
Proof.
  unfold slice. destruct (Nat.le_gt_cases (length l) s) as [Hs|Hs].
  - rewrite !skipn_all2 by lia. now rewrite !firstn_nil.
  - rewrite (Nat.min_l s) by lia.
    destruct (Nat.le_gt_cases (length l) e) as [He|He].
    + rewrite (Nat.min_r e) by lia.
      rewrite !firstn_all2; [reflexivity| |]; rewrite length_skipn; lia.
    + now rewrite (Nat.min_l e) by lia.
Qed.

Lemma py_slice_nat {A} (s e : nat) (l : list A) :
  py_slice (Some (Z.of_nat s)) (Some (Z.of_nat e)) l = slice s e l.
Proof.
  unfold py_slice, py_bound.
  destruct (Z.ltb_spec (Z.of_nat s) 0); [lia|].
  destruct (Z.ltb_spec (Z.of_nat e) 0); [lia|].
  rewrite !Nat2Z.id. apply slice_clamp.
Qed.

Lemma py_slice_all {A} (l : list A) : py_slice None None l = l.
Proof. unfold py_slice, py_bound. apply slice_all. Qed.

Lemma py_slice_length_eq {A B} (s e : option Z) (xs : list A) (ys : list B) :
  length xs = length ys -> length (py_slice s e xs) = length (py_slice s e ys).
Proof.
  intros H. unfold py_slice. rewrite !slice_length_min, H. reflexivity.
Qed.

Lemma broadcast2_zip {A B C} (f : A -> B -> result C) (xs : list A) (ys : list B) :
  length xs = length ys ->
  broadcast2 f xs ys = mapR (fun p => f (fst p) (snd p)) (combine xs ys).
Proof.
  intros H. unfold broadcast2. rewrite H, Nat.eqb_refl. reflexivity.
Qed.

Lemma broadcast2_slice {A B C} (f : A -> B -> result C) (s e : nat)
      (xs : list A) (ys : list B) (zs : list C) :
  length xs = length ys ->
  broadcast2 f xs ys = inr zs ->
  broadcast2 f (slice s e xs) (slice s e ys) = inr (slice s e zs).
Proof.
  intros H Hz. rewrite broadcast2_zip in Hz by exact H.
  rewrite broadcast2_zip by (rewrite !slice_length_min, H; reflexivity).
  rewrite combine_slice. now apply mapR_slice.
Qed.

Lemma broadcast2_length {A B C} (f : A -> B -> result C)
      (xs : list A) (ys : list B) (zs : list C) :
  length xs = length ys -> broadcast2 f xs ys = inr zs -> length zs = length xs.
Proof.
  intros H Hz. rewrite broadcast2_zip in Hz by exact H.
  apply mapR_length in Hz. rewrite Hz, length_combine, H. apply Nat.min_id.
Qed.

Section AdjustedSlices.
Variables prec emax : Z.

Lemma adjusted_slice (o : Rolling.t) (full : Rolling.tensor3) (s e : nat) :
  rows_agree o ->
  Rolling.adjusted prec emax o None None = inr full ->
  Rolling.adjusted prec emax o (Some (Z.of_nat s)) (Some (Z.of_nat e))
  = inr (slice s e full).
Proof.
  unfold rows_agree, Rolling.adjusted. intros Hr Hf.
  destruct (Rolling.adjustments o) as [a|].
  2:{ rewrite py_slice_all in Hf. injection Hf as <-. now rewrite py_slice_nat. }
  destruct (Rolling.adjustment_last o) as [l|].
  2:{ rewrite py_slice_all in Hf. injection Hf as <-. now rewrite py_slice_nat. }
  destruct Hr as [Ha Hl]. rewrite !py_slice_all in Hf. rewrite !py_slice_nat.
  destruct (Rolling.mul3 prec emax (Rolling.values o) a) as [err|m] eqn:Hm;
    [discriminate|].
  cbn [bind] in Hf. unfold Rolling.mul3 in *. unfold Rolling.div3 in *.
  rewrite (broadcast2_slice _ s e _ _ (eq_sym Ha) Hm). cbn [bind].
  apply broadcast2_slice; [|exact Hf].
  rewrite (broadcast2_length _ _ _ (eq_sym Ha) Hm). now symmetry.
Qed.

Lemma adjusted_length (o : Rolling.t) (full : Rolling.tensor3) :
  rows_agree o ->
  Rolling.adjusted prec emax o None None = inr full ->
  length full = length (Rolling.values o).
Proof.
  unfold rows_agree, Rolling.adjusted. intros Hr Hf.
  destruct (Rolling.adjustments o) as [a|].
  2:{ rewrite py_slice_all in Hf. now injection Hf as <-. }
  destruct (Rolling.adjustment_last o) as [l|].
  2:{ rewrite py_slice_all in Hf. now injection Hf as <-. }
  destruct Hr as [Ha Hl]. rewrite !py_slice_all in Hf.
  destruct (Rolling.mul3 prec emax (Rolling.values o) a) as [err|m] eqn:Hm;
    [discriminate|].
  cbn [bind] in Hf. unfold Rolling.mul3, Rolling.div3 in *.
  pose proof (broadcast2_length _ _ _ (eq_sym Ha) Hm) as Hlm.
  rewrite (broadcast2_length _ _ _ (eq_trans Hlm (eq_sym Hl)) Hf). exact Hlm.
Qed.

Lemma adjusted_others (others : list Rolling.t) (fulls : list Rolling.tensor3)
      (s e : nat) :
  Forall rows_agree others ->
  mapR (fun o => Rolling.adjusted prec emax o None None) others = inr fulls ->
  mapR (fun o => Rolling.adjusted prec emax o (Some (Z.of_nat s)) (Some (Z.of_nat e)))
       others
  = inr (map (slice s e) fulls).
Proof.
  intros Hall. revert fulls. induction Hall as [|o others Ho Hall IH]; intros fulls H.
  - simpl in H. injection H as <-. reflexivity.
  - simpl in H.
    destruct (Rolling.adjusted prec emax o None None) as [err|full] eqn:Hf;
      [discriminate|].
    cbn [bind] in H.
    destruct (mapR (fun o => Rolling.adjusted prec emax o None None) others)
      as [err|rest] eqn:Hrest; [discriminate|].
    cbn [bind] in H. injection H as <-.
    simpl. rewrite (adjusted_slice o s e Ho Hf). cbn [bind].
    rewrite (IH rest eq_refl). reflexivity.
Qed.

End AdjustedSlices.

(** ** The chunk ranges *)

Lemma py_range_In (stop step x : nat) :
  1 <= step -> In x (py_range stop step) -> x < stop.
Proof.
  intros Hs H. unfold py_range in H. apply in_map_iff in H.
  destruct H as [k [<- Hk]]. apply in_seq in Hk.
  pose proof (Nat.Div0.mul_div_le (stop + step - 1) step) as Hq.
  nia.
Qed.

Lemma py_range_sorted (stop step : nat) : StronglySorted le (py_range stop step).
Proof.
  unfold py_range. generalize ((stop + step - 1) / step) as q. generalize 0 as a.
  intros a q. revert a. induction q as [|q IH]; intros a; simpl; constructor.
  - apply IH.
  - rewrite Forall_map. apply Forall_forall. intros k Hk. apply in_seq in Hk. nia.
Qed.

Lemma py_range_head (stop step : nat) :
  1 <= step -> 1 <= stop -> exists r, py_range stop step = 0 :: r.
Proof.
  intros Hs Hr. unfold py_range.
  assert (0 < (stop + step - 1) / step) by (apply Nat.div_str_pos; lia).
  destruct ((stop + step - 1) / step) as [|q]; [lia|]. simpl. eauto.
Qed.

Lemma chunk_boundary_sorted (rows step : nat) :
  1 <= step -> StronglySorted le (py_range rows step ++ [rows]).
Proof.
  intros Hs. apply StronglySorted_app_intro.
  - apply py_range_sorted.
  - repeat constructor.
  - intros x y Hx [<-|[]]. apply py_range_In in Hx; lia.
Qed.

Lemma chunk_split_snd (rows step s e : nat) :
  1 <= step -> In (s, e) (Rolling.chunk_split rows step) -> e <= rows.
Proof.
  intros Hs H. apply pairs_In_snd in H. apply in_app_or in H.
  destruct H as [H|[<-|[]]]; [|lia]. apply py_range_In in H; lia.
Qed.

Lemma chunk_split_nonempty (rows step : nat) :
  1 <= step -> 1 <= rows -> Rolling.chunk_split rows step <> [].
Proof.
  intros Hs Hr. unfold Rolling.chunk_split.
  destruct (py_range_head Hs Hr) as [r ->].
  intros H. apply (f_equal (@length _)) in H. rewrite pairs_length in H.
  simpl in H. rewrite length_app in H. simpl in H. lia.
Qed.

(** The chunk ranges cover the rows once, in order. *)
Lemma chunk_split_cover (rows step : nat) :
  1 <= step -> 1 <= rows ->
  concat (map (fun se => seq (fst se) (snd se - fst se)) (Rolling.chunk_split rows step))
  = seq 0 rows.
Proof.
  intros Hs Hr.
  transitivity (concat (map (fun se => slice (fst se) (snd se) (seq 0 rows))
                            (Rolling.chunk_split rows step))).
  - f_equal. apply map_ext_in. intros [s e] Hin. cbn [fst snd].
    symmetry. apply slice_seq. apply (@chunk_split_snd rows step s e Hs Hin).
  - unfold Rolling.chunk_split.
    pose proof (chunk_boundary_sorted rows Hs) as Hsorted.
    destruct (py_range_head Hs Hr) as [r Hr0]. rewrite Hr0 in *.
    cbn [app] in *. rewrite concat_slices by exact Hsorted.
    replace (last (0 :: r ++ [rows]) 0) with rows.
    + pose proof (slice_all (seq 0 rows)) as Hall.
      rewrite length_seq in Hall. exact Hall.
    + change (0 :: r ++ [rows]) with ((0 :: r) ++ [rows]). now rewrite last_last.
Qed.

(** ** C3: chunking and row-wise operators *)

Lemma nth_of_nth_error {A} (l l' : list A) (i j : nat) (d : A) :
  nth_error l i = nth_error l' j -> nth i l d = nth j l' d.
Proof.
  intros H. rewrite <- !nth_default_eq. unfold nth_default. now rewrite H.
Qed.

Lemma mapR_seq_shift {B} (g : nat -> result B) (s a k : nat) :
  mapR g (seq (s + a) k) = mapR (fun i => g (s + i)) (seq a k).
Proof.
  revert a; induction k as [|k IH]; intros a; simpl; [reflexivity|].
  replace (S (s + a)) with (s + S a) by lia. now rewrite IH.
Qed.

Section ChunkInvisible.
Variables prec emax : Z.
Variable B : Type.
Variable f : list (list spec_float) -> list (option (list (list spec_float))) -> result B.

(** What [rowwise f] computes for row [i] of the whole buffers. *)
Definition row_result (full : Rolling.tensor3) (fulls : list Rolling.tensor3) (i : nat)
  : result B :=
  f (nth i full []) (map (fun o => nth_error o i) fulls).

Lemma rowwise_slice (full : Rolling.tensor3) (fulls : list Rolling.tensor3) (s e : nat) :
  e <= length full ->
  rowwise f (slice s e full) (map (slice s e) fulls)
  = mapR (row_result full fulls) (seq s (e - s)).
Proof.
  intros He. unfold rowwise. rewrite slice_length by exact He.
  replace (seq s (e - s)) with (seq (s + 0) (e - s)) by (f_equal; lia).
  rewrite mapR_seq_shift. apply mapR_ext_in. intros i Hi. apply in_seq in Hi.
  unfold row_result. f_equal.
  - apply nth_of_nth_error. apply nth_error_slice. lia.
  - rewrite map_map. apply map_ext. intros o. apply nth_error_slice. lia.
Qed.

Lemma agg_rowwise (r : Rolling.t) (others : list Rolling.t) (step : nat)
      (full : Rolling.tensor3) (fulls : list Rolling.tensor3) :
  1 <= step ->
  Rolling.values r <> [] ->
  Rolling.split r = Rolling.chunk_split (length (Rolling.values r)) step ->
  forallb (fun o => Rolling.win o =? Rolling.win r) others = true ->
  rows_agree r -> Forall rows_agree others ->
  Rolling.adjusted prec emax r None None = inr full ->
  mapR (fun o => Rolling.adjusted prec emax o None None) others = inr fulls ->
  Rolling.agg prec emax (rowwise f) r others = rowwise f full fulls.
Proof.
  intros Hstep Hne Hsplit Hwin Hr Hothers Hfull Hfulls.
  pose proof (adjusted_length prec emax r Hr Hfull) as Hlen.
  assert (Hrows : 1 <= length (Rolling.values r))
    by (destruct (Rolling.values r); [contradiction|simpl; lia]).
  unfold Rolling.agg. rewrite Hwin, Hsplit.
  rewrite (mapR_ext_in _
             (fun se => mapR (row_result full fulls) (seq (fst se) (snd se - fst se)))).
  2:{ intros [s e] Hin. cbn [fst snd].
      rewrite (adjusted_slice prec emax r s e Hr Hfull). cbn [bind].
      rewrite (adjusted_others prec emax s e Hothers Hfulls). cbn [bind].
      apply rowwise_slice. rewrite Hlen.
      apply (@chunk_split_snd _ step s e Hstep Hin). }
  unfold rowwise at 1. rewrite Hlen.
  rewrite <- (@chunk_split_cover (length (Rolling.values r)) step Hstep Hrows).
  rewrite mapR_concat, mapR_map.
  destruct (mapR _ (Rolling.chunk_split (length (Rolling.values r)) step))
    as [err|cs] eqn:Hcs; [reflexivity|].
  cbn [bind cat cat_rows]. apply mapR_length in Hcs.
  destruct cs as [|c cs]; [|reflexivity].
  exfalso. apply (@chunk_split_nonempty (length (Rolling.values r)) step Hstep Hrows).
  apply length_zero_iff_nil. simpl in Hcs. lia.
Qed.

End ChunkInvisible.

(** The engine has rows, and its chunk list is the one computed from some
    positive chunk size. *)
Definition chunked (r : Rolling.t) : Prop :=
  exists step,
    1 <= step /\ Rolling.values r <> [] /\
    Rolling.split r = Rolling.chunk_split (length (Rolling.values r)) step.

Lemma nelement_nil : Rolling.nelement [] = 0.
Proof. reflexivity. Qed.

(** The chunk size is at least one whenever it is computed. *)
Lemma chunk_step_positive (split_multi : spec_float) (v : Rolling.tensor3) (step : nat) :
  Rolling.chunk_step split_multi v = inr step -> 1 <= step.
Proof.
  unfold Rolling.chunk_step. intros H.
  destruct (py_float (Z.of_nat (Rolling.nelement v))) as [e|elements]; [discriminate|].
  cbn [bind] in H.
  destruct (py_truediv elements (F_of_Z 53 1024 (1024 ^ 3))) as [e|m0]; [discriminate|].
  cbn [bind] in H.
  destruct (py_float (Z.of_nat (length v))) as [e|rows]; [discriminate|].
  cbn [bind] in H.
  destruct (py_truediv rows (SFmul 53 1024 m0 split_multi)) as [e|q]; [discriminate|].
  cbn [bind] in H.
  destruct (py_int q) as [e|i]; [discriminate|].
  cbn [bind] in H. injection H as <-. lia.
Qed.

(** On a buffer without rows the computation of the chunk size raises: the
    memory usage is zero, or NaN for a constant that is infinite or NaN. *)
Lemma chunk_step_nil (split_multi : spec_float) :
  exists e, Rolling.chunk_step split_multi [] = inl e.
Proof.
  unfold Rolling.chunk_step. rewrite nelement_nil.
  change (py_float (Z.of_nat 0)) with (@inr error _ (S754_zero false)).
  cbn [bind length].
  change (py_truediv (S754_zero false) (F_of_Z 53 1024 (1024 ^ 3)))
    with (@inr error _ (S754_zero false)).
  cbn [bind].
  change (py_float (Z.of_nat 0)) with (@inr error _ (S754_zero false)).
  cbn [bind].
  destruct split_multi as [s|s| |s m e]; cbn; eexists; reflexivity.
Qed.

Lemma init_plain_chunked (split_multi : spec_float) (x : Rolling.tensor2) (win : nat)
      (r : Rolling.t) :
  Rolling.init_plain split_multi x win = inr r ->
  chunked r /\ Rolling.win r = win /\
  Rolling.unfold x win S754_nan = inr (Rolling.values r) /\
  Rolling.adjustments r = None.
Proof.
  unfold Rolling.init_plain. intros H.
  destruct (Rolling.unfold x win S754_nan) as [err|v] eqn:Hv; [discriminate|].
  cbn [bind] in H.
  destruct (Rolling.chunk_step split_multi v) as [err|step] eqn:Hstep; [discriminate|].
  cbn [bind] in H. injection H as <-.
  split; [|repeat split].
  exists step. cbn [Rolling.values Rolling.split]. split; [|split; [|reflexivity]].
  - exact (chunk_step_positive _ _ Hstep).
  - intros E. rewrite E in Hstep.
    destruct (chunk_step_nil split_multi) as [e He]. congruence.
Qed.

Lemma init_chunked (prec emax : Z) (split_multi : spec_float) (x : Rolling.tensor2) (win : nat)
      (adj : option Rolling.tensor2) (r : Rolling.t) :
  Rolling.init prec emax split_multi x win adj = inr r -> chunked r.
Proof.
  unfold Rolling.init. intros H.
  destruct (Rolling.init_plain split_multi x win) as [err|r0] eqn:H0; [discriminate|].
  cbn [bind] in H. destruct (init_plain_chunked _ _ _ H0) as [Hc _].
  destruct adj as [a|]; [|now injection H as <-].
  destruct (Rolling.init_plain split_multi a win) as [err|ra]; [discriminate|].
  cbn [bind] in H.
  destruct (Rolling.last_nonnan prec emax ra) as [err|nl]; [discriminate|].
  cbn [bind] in H. destruct (add_last_axis nl) as [err|al]; [discriminate|].
  cbn [bind] in H. injection H as <-. exact Hc.
Qed.

(** C3, as amended.  Every engine built by the constructor, whatever the
    tuning constant, has rows and a chunk list computed from a positive
    chunk size.  For every such chunk list and every operator that treats
    rows independently ([rowwise f]), when the other engines have the same
    window and the adjustment buffers have as many rows as the values,
    [agg] returns exactly what the operator returns on the whole adjusted
    buffers: the chunk results concatenated in chunk order are the rows of
    the whole result. *)
Theorem agg_chunk_invisible (prec emax : Z) :
  (forall split_multi x win adj r,
      Rolling.init prec emax split_multi x win adj = inr r -> chunked r) /\
  (forall B (f : list (list spec_float) -> list (option (list (list spec_float)))
                 -> result B)
          r others full fulls,
      chunked r ->
      forallb (fun o => Rolling.win o =? Rolling.win r) others = true ->
      rows_agree r -> Forall rows_agree others ->
      Rolling.adjusted prec emax r None None = inr full ->
      mapR (fun o => Rolling.adjusted prec emax o None None) others = inr fulls ->
      Rolling.agg prec emax (rowwise f) r others = rowwise f full fulls /\
      chunk_invisible prec emax (rowwise f) r others).
Proof.
  split.
  - intros. eapply init_chunked; eassumption.
  - intros B f r others full fulls [step [Hs [Hne Hsplit]]] Hwin Hr Ho Hfull Hfulls.
    pose proof (@agg_rowwise prec emax B f r others step full fulls
                  Hs Hne Hsplit Hwin Hr Ho Hfull Hfulls) as H.
    split; [exact H|].
    unfold chunk_invisible. rewrite H, Hfull, Hfulls. reflexivity.
Qed.

(** Two rows, two time steps, window 2, one row per chunk. *)
Definition two_chunk_engine : Rolling.t :=
  {| Rolling.values :=
       [[[S754_nan; F_of_Z 24 128 10]; [F_of_Z 24 128 10; F_of_Z 24 128 20]];
        [[S754_nan; F_of_Z 24 128 30]; [F_of_Z 24 128 30; F_of_Z 24 128 40]]];
     Rolling.win := 2;
     Rolling.split := [(0, 1); (1, 2)];
     Rolling.adjustments := None;
     Rolling.adjustment_last := None |}.

Lemma agg_chunk_invisible_witness :
  Rolling.init 24 128 (F_of_Z 53 1024 (2 ^ 30))
               [[F_of_Z 24 128 10; F_of_Z 24 128 20]; [F_of_Z 24 128 30; F_of_Z 24 128 40]]
               2 None = inr two_chunk_engine /\
  Rolling.agg 24 128 (rowwise (fun row _ => inr (map (fsum 24 128) row)))
              two_chunk_engine []
  = rowwise (fun row _ => inr (map (fsum 24 128) row))
            (Rolling.values two_chunk_engine) [].
Proof.
  split; [vm_compute; reflexivity|].
  destruct (agg_chunk_invisible 24 128) as [_ H].
  apply (H _ (fun row _ => inr (map (fsum 24 128) row)) two_chunk_engine []
           (Rolling.values two_chunk_engine) []).
  - exists 1. split; [lia|]. split; [discriminate|reflexivity].
  - reflexivity.
  - exact I.
  - constructor.
  - reflexivity.
  - reflexivity.
Defined.

(** Two rows of one time step, window 1, one row per chunk: the engine built
    from [[1], [2]] with [_split_multi = 2 ** 30]. *)
Definition two_row_engine : Rolling.t :=
  {| Rolling.values := [[[F_of_Z 24 128 1]]; [[F_of_Z 24 128 2]]];
     Rolling.win := 1;
     Rolling.split := [(0, 1); (1, 2)];
     Rolling.adjustments := None;
     Rolling.adjustment_last := None |}.

(** C3 as stated fails: the reduction [sum(axis=0)] adds over the rows of
    what it is given, so over the chunks it returns [[1], [2]], and on the
    whole buffer [[3]]. *)
Lemma agg_chunk_counterexample :
  Rolling.init 24 128 (F_of_Z 53 1024 (2 ^ 30)) [[F_of_Z 24 128 1]; [F_of_Z 24 128 2]] 1 None
  = inr two_row_engine /\
  Rolling.sum 24 128 two_row_engine 0 = inr [[F_of_Z 24 128 1]; [F_of_Z 24 128 2]] /\
  ~ chunk_invisible 24 128
      (fun x _ => reduce_dim (fun w => inr (fsum 24 128 w)) 0 x) two_row_engine [].
Proof.
  split; [vm_compute; reflexivity|]. split; [vm_compute; reflexivity|].
  unfold chunk_invisible. vm_compute. discriminate.
Qed.

(** ** The windows built by unfold *)

(** The windows of one row: window [i] holds the [win] entries of the padded
    row that end at time [i]. *)
Definition windows (win : nat) (row : list spec_float) : list (list spec_float) :=
  map (fun i => slice i (i + win) (repeat S754_nan (win - 1) ++ row)) (seq 0 (length row)).

Lemma unfold_row_windows (win : nat) (row : list spec_float) (ws : list (list spec_float)) :
  1 <= win -> Rolling.unfold_row win S754_nan row = inr ws ->
  row <> [] /\ ws = windows win row.
Proof.
  intros Hw. unfold Rolling.unfold_row.
  rewrite length_app, repeat_length.
  destruct (Nat.ltb_spec (win - 1 + length row) win) as [H|H]; [discriminate|].
  intros E. injection E as <-. split.
  - intros ->. simpl in H. lia.
  - unfold windows. f_equal. f_equal. lia.
Qed.

Lemma unfold_windows (x : Rolling.tensor2) (win : nat) (v : Rolling.tensor3) :
  Rolling.unfold x win S754_nan = inr v ->
  1 <= win /\ v = map (windows win) x /\ Forall (fun row => row <> []) x.
Proof.
  unfold Rolling.unfold. destruct (Nat.eqb_spec win 0) as [E|E]; [discriminate|].
  intros H. split; [lia|]. revert v H.
  induction x as [|row x IH]; intros v H; simpl in H.
  - injection H as <-. split; [reflexivity|constructor].
  - destruct (Rolling.unfold_row win S754_nan row) as [err|ws] eqn:Hrow; [discriminate|].
    cbn [bind] in H.
    destruct (mapR (Rolling.unfold_row win S754_nan) x) as [err|rest]; [discriminate|].
    cbn [bind] in H. injection H as <-.
    destruct (@unfold_row_windows win row ws ltac:(lia) Hrow) as [Hne ->].
    destruct (IH rest eq_refl) as [-> Hall].
    split; [reflexivity|]. constructor; assumption.
Qed.

Lemma window_nth (win : nat) (row : list spec_float) (i : nat) (w : list spec_float) :
  nth_error (windows win row) i = Some w ->
  i < length row /\ w = slice i (i + win) (repeat S754_nan (win - 1) ++ row).
Proof.
  unfold windows. rewrite nth_error_map, nth_error_seq.
  destruct (Nat.ltb_spec i (length row)); [|discriminate].
  simpl. intros E. injection E as <-. split; [assumption|reflexivity].
Qed.

(** A window that ends before time [win - 1] starts in the padding. *)
Lemma window_padding (win : nat) (row : list spec_float) (i : nat) (w : list spec_float) :
  nth_error (windows win row) i = Some w -> i < win - 1 -> In S754_nan w.
Proof.
  intros H Hi. destruct (window_nth _ _ _ H) as [_ ->].
  apply (@nth_error_In _ _ 0).
  rewrite nth_error_slice by lia. rewrite Nat.add_0_r.
  rewrite nth_error_app1 by (rewrite repeat_length; lia).
  apply nth_error_repeat. lia.
Qed.

(** ** C10: mean *)

Lemma rowwise_pure {B} (h : list (list spec_float) -> B)
      (x : Rolling.tensor3) (os : list Rolling.tensor3) :
  rowwise (fun row _ => inr (h row)) x os = inr (map h x).
Proof.
  unfold rowwise. rewrite mapR_pure. f_equal.
  rewrite <- (map_nth_seq x []) at 2. now rewrite map_map.
Qed.

Lemma agg_ext (prec emax : Z) {O} {C : TorchCat O}
      (op op' : Rolling.tensor3 -> list Rolling.tensor3 -> result O)
      (r : Rolling.t) (others : list Rolling.t) :
  (forall x os, op x os = op' x os) ->
  Rolling.agg prec emax op r others = Rolling.agg prec emax op' r others.
Proof.
  intros H. unfold Rolling.agg. destruct (forallb _ others); [|reflexivity].
  f_equal. apply mapR_ext_in. intros se _.
  destruct (Rolling.adjusted prec emax r _ _); [reflexivity|]. cbn [bind].
  destruct (mapR _ others); [reflexivity|]. cbn [bind]. apply H.
Qed.

Section Mean.
Variables prec emax : Z.

Lemma SFadd_nan_r (x : spec_float) : SFadd prec emax x S754_nan = S754_nan.
Proof. destruct x; reflexivity. Qed.

Lemma fold_add_nan (w : list spec_float) :
  fold_left (SFadd prec emax) w S754_nan = S754_nan.
Proof. induction w as [|y w IH]; simpl; [reflexivity|exact IH]. Qed.

Lemma fold_add_In_nan (w : list spec_float) (acc : spec_float) :
  In S754_nan w -> fold_left (SFadd prec emax) w acc = S754_nan.
Proof.
  revert acc; induction w as [|y w IH]; intros acc H; [contradiction|].
  simpl. destruct H as [->|H].
  - rewrite SFadd_nan_r. apply fold_add_nan.
  - now apply IH.
Qed.

Lemma fsum_In_nan (w : list spec_float) : In S754_nan w -> fsum prec emax w = S754_nan.
Proof. apply fold_add_In_nan. Qed.

(** The mean of one window: the plain sum divided by the window size. *)
Definition window_mean (win : nat) (w : list spec_float) : spec_float :=
  SFdiv prec emax (fsum prec emax w) (F_of_Z prec emax (Z.of_nat win)).

Lemma window_mean_nan (win : nat) (w : list spec_float) :
  In S754_nan w -> window_mean win w = S754_nan.
Proof. intros H. unfold window_mean. now rewrite fsum_In_nan. Qed.

Lemma reduce_dim_2_pure {B} (h : list spec_float -> B) (x : Rolling.tensor3) :
  reduce_dim (fun w => inr (h w)) 2 x = inr (map (map h) x).
Proof.
  unfold reduce_dim. cbn [Z.ltb Z.compare].
  rewrite (mapR_ext_in _ (fun row => inr (map h row))).
  - apply mapR_pure.
  - intros row _. apply mapR_pure.
Qed.

Lemma plain_adjusted (r : Rolling.t) :
  Rolling.adjustments r = None ->
  Rolling.adjusted prec emax r None None = inr (Rolling.values r) /\ rows_agree r.
Proof.
  intros H. unfold Rolling.adjusted, rows_agree. rewrite H.
  now rewrite py_slice_all.
Qed.

Lemma mean_value (r : Rolling.t) :
  chunked r -> Rolling.adjustments r = None ->
  Rolling.mean prec emax r 2
  = inr (map (map (window_mean (Rolling.win r))) (Rolling.values r)).
Proof.
  intros [step [Hs [Hne Hsplit]]] Hadj.
  destruct (plain_adjusted r Hadj) as [Hfull Hagree].
  unfold Rolling.mean.
  rewrite (agg_ext prec emax _
             (rowwise (fun row _ => inr (map (window_mean (Rolling.win r)) row)))).
  - rewrite (@agg_rowwise prec emax _ _ r [] step (Rolling.values r) []
               Hs Hne Hsplit eq_refl Hagree (Forall_nil _) Hfull eq_refl).
    apply rowwise_pure.
  - intros x os. rewrite rowwise_pure, reduce_dim_2_pure. cbn [bind].
    f_equal. rewrite map_map. apply map_ext. intros row. apply map_map.
Qed.

End Mean.

Lemma window_holds_input (win : nat) (row : list spec_float) (t u : nat) (v : spec_float) :
  1 <= win -> u <= t -> t < u + win -> nth_error row u = Some v ->
  In v (slice t (t + win) (repeat S754_nan (win - 1) ++ row)).
Proof.
  intros Hw Hut Htu Hu.
  apply (@nth_error_In _ _ (win - 1 + u - t)).
  rewrite nth_error_slice by lia.
  rewrite nth_error_app2 by (rewrite repeat_length; lia).
  rewrite repeat_length. rewrite <- Hu. f_equal. lia.
Qed.

(** C10.  For every engine built without adjustment, in every format and
    for every tuning constant, [mean()] is, window by window, the plain sum
    of the window divided by the constant [win].  Hence the result at time
    [t] of a row is missing whenever [t < win - 1] (the window starts in the
    padding) and whenever one of the inputs of the window, at a time [u]
    with [t - win < u <= t], is missing. *)
Theorem rolling_mean
        (prec emax : Z) (split_multi : spec_float) (x : Rolling.tensor2) (win : nat)
        (r : Rolling.t) :
  Rolling.init prec emax split_multi x win None = inr r ->
  let out := map (fun row => map (window_mean prec emax win) (windows win row)) x in
  Rolling.mean prec emax r 2 = inr out /\
  (forall i row t,
      nth_error x i = Some row -> t < length row ->
      (t < win - 1 \/
       exists u, u <= t /\ t < u + win /\ nth_error row u = Some S754_nan) ->
      exists outrow,
        nth_error out i = Some outrow /\ nth_error outrow t = Some S754_nan).
Proof.
  intros Hinit out. unfold Rolling.init in Hinit.
  destruct (Rolling.init_plain split_multi x win) as [err|r0] eqn:H0; [discriminate|].
  cbn [bind] in Hinit. injection Hinit as <-.
  destruct (init_plain_chunked _ _ _ H0) as [Hc [Hwin [Hunfold Hadj]]].
  destruct (unfold_windows _ _ Hunfold) as [Hw [Hv _]].
  split.
  - rewrite (mean_value prec emax Hc Hadj), Hwin, Hv. unfold out.
    now rewrite map_map.
  - intros i row t Hrow Ht Hmiss.
    exists (map (window_mean prec emax win) (windows win row)). split.
    + unfold out. rewrite nth_error_map, Hrow. reflexivity.
    + unfold windows. rewrite !nth_error_map, nth_error_seq.
      destruct (Nat.ltb_spec t (length row)); [|lia].
      cbn [option_map]. f_equal. rewrite Nat.add_0_l. apply window_mean_nan.
      destruct Hmiss as [Hpad|[u [Hu1 [Hu2 Hu3]]]].
      * apply (@window_padding win row t).
        -- unfold windows. rewrite nth_error_map, nth_error_seq.
           destruct (Nat.ltb_spec t (length row)); [reflexivity|lia].
        -- exact Hpad.
      * now apply (@window_holds_input win row t u).
Qed.

Lemma rolling_mean_witness :
  exists r,
    Rolling.init 24 128 Rolling._split_multi [example_row 24 128] 2 None = inr r /\
    Rolling.mean 24 128 r 2
    = inr [[S754_nan; F_of_Z 24 128 15; F_of_Z 24 128 25; F_of_Z 24 128 35]].
Proof.
  assert (H : exists r, Rolling.init 24 128 Rolling._split_multi [example_row 24 128] 2 None = inr r)
    by (eexists; vm_compute; reflexivity).
  destruct H as [r Hr]. exists r. split; [exact Hr|].
  destruct (@rolling_mean 24 128 Rolling._split_multi [example_row 24 128] 2 r Hr) as [Hm _].
  rewrite Hm. vm_compute. reflexivity.
Defined.

(** On the same row [nanmean] divides by the number of values present and
    returns 10 where [mean] returns NaN. *)
Example rolling_nanmean_example :
  exists r,
    Rolling.init 24 128 Rolling._split_multi [example_row 24 128] 2 None = inr r /\
    Rolling.nanmean 24 128 r 2
    = inr [[F_of_Z 24 128 10; F_of_Z 24 128 15; F_of_Z 24 128 25; F_of_Z 24 128 35]].
Proof. eexists. split; [vm_compute; reflexivity|]. vm_compute. reflexivity. Qed.

(** ** Multiplying and dividing by one *)

Lemma iter_pos_iter {A} (f : A -> A) (p : positive) (x : A) :
  iter_pos f p x = Pos.iter f x p.
Proof.
  revert x; induction p as [p IH|p IH|]; intros x; simpl.
  - rewrite !IH. now rewrite !Pos.iter_swap.
  - now rewrite !IH.
  - reflexivity.
Qed.

Lemma iter_xO_succ (m d : positive) :
  Pos.iter xO m (Pos.succ d) = Pos.iter xO (xO m) d.
Proof. rewrite Pos.iter_succ. now rewrite <- Pos.iter_swap. Qed.

Lemma shr_iter_xO (m d : positive) :
  Pos.iter shr_1 {| shr_m := Zpos (Pos.iter xO m d); shr_r := false; shr_s := false |} d
  = {| shr_m := Zpos m; shr_r := false; shr_s := false |}.
Proof.
  revert m; induction d as [|d IH] using Pos.peano_ind; intros m.
  - reflexivity.
  - rewrite iter_xO_succ, Pos.iter_succ, IH. reflexivity.
Qed.

Lemma digits_iter_xO (m d : positive) :
  digits2_pos (Pos.iter xO m d) = (digits2_pos m + d)%positive.
Proof.
  induction d as [|d IH] using Pos.peano_ind.
  - simpl. lia.
  - rewrite Pos.iter_succ. simpl. rewrite IH. lia.
Qed.

Lemma mul_iter_xO (m d : positive) : (m * Pos.iter xO 1 d = Pos.iter xO m d)%positive.
Proof.
  induction d as [|d IH] using Pos.peano_ind.
  - simpl. lia.
  - rewrite !Pos.iter_succ. rewrite <- IH. lia.
Qed.

Lemma Zpos_iter_xO (m d : positive) : Zpos (Pos.iter xO m d) = (Zpos m * 2 ^ Zpos d)%Z.
Proof.
  induction d as [|d IH] using Pos.peano_ind.
  - simpl. lia.
  - rewrite Pos.iter_succ, Pos2Z.inj_xO, IH, Pos2Z.inj_succ, Z.pow_succ_r by lia. lia.
Qed.

Section UnitFactor.
Variables prec emax : Z.
Hypothesis Hprec : (1 < prec)%Z.
Hypothesis Hemax : (prec < emax)%Z.

(** The mantissa of 1: a one followed by [prec - 1] zeros. *)
Definition one_mantissa : positive := Pos.iter xO 1%positive (Z.to_pos (prec - 1)).

Lemma bounded_canonical (m : positive) (e : Z) :
  bounded prec emax m e = true ->
  fexp prec emax (Zpos (digits2_pos m) + e) = e /\ (e <= emax - prec)%Z.
Proof.
  unfold bounded, canonical_mantissa. intros H.
  apply andb_true_iff in H. destruct H as [H1 H2].
  apply Z.eqb_eq in H1. apply Z.leb_le in H2. split; assumption.
Qed.

Lemma round_canonical (sx : bool) (m : positive) (e : Z) :
  bounded prec emax m e = true ->
  binary_round_aux prec emax sx (Zpos m) e loc_Exact = S754_finite sx m e.
Proof.
  intros H. destruct (bounded_canonical _ _ H) as [Hc He].
  unfold binary_round_aux, shr_fexp. cbn [Zdigits2 shr_record_of_loc].
  rewrite Hc, Z.sub_diag. cbn [shr shr_m loc_of_shr_record round_nearest_even Zdigits2
                                   shr_record_of_loc].
  rewrite Hc, Z.sub_diag. cbn [shr shr_m].
  apply Z.leb_le in He. now rewrite He.
Qed.

Lemma round_shifted (sx : bool) (m d : positive) (e : Z) :
  bounded prec emax m e = true ->
  binary_round_aux prec emax sx (Zpos (Pos.iter xO m d)) (e - Zpos d) loc_Exact
  = S754_finite sx m e.
Proof.
  intros H. destruct (bounded_canonical _ _ H) as [Hc He].
  unfold binary_round_aux, shr_fexp at 1. cbn [Zdigits2 shr_record_of_loc].
  rewrite digits_iter_xO.
  replace (Zpos (digits2_pos m + d) + (e - Zpos d))%Z
    with (Zpos (digits2_pos m) + e)%Z by lia.
  rewrite Hc. replace (e - (e - Zpos d))%Z with (Zpos d) by lia.
  cbn [shr]. rewrite iter_pos_iter, shr_iter_xO.
  cbn [shr_m loc_of_shr_record round_nearest_even].
  replace (e - Zpos d + Zpos d)%Z with e by lia.
  unfold shr_fexp. cbn [Zdigits2 shr_record_of_loc].
  rewrite Hc, Z.sub_diag. cbn [shr shr_m].
  apply Z.leb_le in He. now rewrite He.
Qed.

Lemma one_canonical :
  F_of_Z prec emax 1 = S754_finite false one_mantissa (1 - prec).
Proof.
  unfold F_of_Z, binary_normalize, binary_round. cbn [digits2_pos].
  assert (Hf : fexp prec emax (1 + 0) = (1 - prec)%Z).
  { unfold fexp, emin. lia. }
  rewrite Hf. unfold shl_align.
  destruct (1 - prec - 0)%Z as [|p|p] eqn:E; try lia.
  assert (Hp : p = Z.to_pos (prec - 1)) by lia.
  subst p. fold one_mantissa. apply round_canonical.
  unfold bounded, canonical_mantissa, one_mantissa. rewrite digits_iter_xO.
  cbn [digits2_pos].
  replace (Zpos (1 + Z.to_pos (prec - 1)) + (1 - prec))%Z with 1%Z by lia.
  apply andb_true_iff. split.
  - apply Z.eqb_eq. unfold fexp, emin. lia.
  - apply Z.leb_le. lia.
Qed.

Lemma mul_one (x : spec_float) :
  valid_binary prec emax x = true ->
  SFmul prec emax x (F_of_Z prec emax 1) = x.
Proof.
  intros Hv. rewrite one_canonical.
  destruct x as [s|s| |s m e]; cbn [SFmul]; try (now rewrite xorb_false_r).
  - reflexivity.
  - cbn [valid_binary] in Hv. rewrite xorb_false_r.
    unfold one_mantissa. rewrite mul_iter_xO.
    replace (e + (1 - prec))%Z with (e - Zpos (Z.to_pos (prec - 1)))%Z by lia.
    now apply round_shifted.
Qed.

Lemma div_eucl_exact (a b : Z) : (0 < b)%Z -> Z.div_eucl (a * b) b = (a, 0%Z).
Proof.
  intros Hb. destruct (Z.div_eucl (a * b) b) as [q r] eqn:E.
  assert (Hq : q = (a * b / b)%Z) by (unfold Z.div; now rewrite E).
  assert (Hr : r = ((a * b) mod b)%Z) by (unfold Z.modulo; now rewrite E).
  rewrite Z.div_mul in Hq by lia. rewrite Z.mod_mul in Hr by lia. now subst.
Qed.

Lemma one_mantissa_pow : Zpos one_mantissa = (2 ^ (prec - 1))%Z.
Proof.
  unfold one_mantissa. rewrite Zpos_iter_xO. rewrite Z2Pos.id by lia. lia.
Qed.

Lemma one_mantissa_digits : Zpos (digits2_pos one_mantissa) = prec.
Proof.
  unfold one_mantissa. rewrite digits_iter_xO. cbn [digits2_pos]. lia.
Qed.

Lemma shiftl_by_one (m : positive) (k : Z) :
  (0 <= k)%Z ->
  Z.shiftl (Zpos m) (prec - 1 + k) = (Zpos m * 2 ^ k * Zpos one_mantissa)%Z.
Proof.
  intros Hk. rewrite Z.shiftl_mul_pow2 by lia.
  rewrite one_mantissa_pow, Z.pow_add_r by lia. lia.
Qed.

Lemma new_location_zero (nb : Z) : new_location nb 0 = loc_Exact.
Proof.
  unfold new_location, new_location_even, new_location_odd.
  destruct (Z.even nb); reflexivity.
Qed.

Lemma div_core_one (m : positive) (e : Z) :
  bounded prec emax m e = true ->
  SFdiv_core_binary prec emax (Zpos m) e (Zpos one_mantissa) (1 - prec)
  = (Zpos m, e, loc_Exact) \/
  SFdiv_core_binary prec emax (Zpos m) e (Zpos one_mantissa) (1 - prec)
  = (Zpos (xO m), (e - 1)%Z, loc_Exact).
Proof.
  intros H. destruct (bounded_canonical _ _ H) as [Hc He].
  unfold SFdiv_core_binary. cbn [Zdigits2]. rewrite one_mantissa_digits.
  set (d1 := Zpos (digits2_pos m)) in *.
  assert (Hd1 : (0 < d1)%Z) by (unfold d1; lia).
  unfold fexp, emin in Hc.
  destruct (Z_lt_le_dec (3 - emax - prec) (d1 + e - prec)) as [Hn|Hn].
  - right.
    assert (He' : Z.min (fexp prec emax (d1 + e - (prec + (1 - prec)))) (e - (1 - prec))
                  = (e - 1)%Z) by (unfold fexp, emin; lia).
    rewrite He'.
    replace (e - (1 - prec) - (e - 1))%Z with (prec - 1 + 1)%Z by lia.
    destruct (prec - 1 + 1)%Z as [|p|p] eqn:Ep; try lia.
    rewrite <- Ep, shiftl_by_one by lia.
    rewrite div_eucl_exact by lia. rewrite new_location_zero.
    f_equal. f_equal. lia.
  - left.
    assert (He' : Z.min (fexp prec emax (d1 + e - (prec + (1 - prec)))) (e - (1 - prec))
                  = e) by (unfold fexp, emin; lia).
    rewrite He'.
    replace (e - (1 - prec) - e)%Z with (prec - 1 + 0)%Z by lia.
    destruct (prec - 1 + 0)%Z as [|p|p] eqn:Ep; try lia.
    rewrite <- Ep, shiftl_by_one by lia.
    rewrite div_eucl_exact by lia. rewrite new_location_zero.
    f_equal. f_equal. lia.
Qed.

Lemma div_one (x : spec_float) :
  valid_binary prec emax x = true ->
  SFdiv prec emax x (F_of_Z prec emax 1) = x.
Proof.
  intros Hv. rewrite one_canonical.
  destruct x as [s|s| |s m e]; cbn [SFdiv]; try (now rewrite xorb_false_r).
  - reflexivity.
  - cbn [valid_binary] in Hv. rewrite xorb_false_r.
    destruct (div_core_one _ _ Hv) as [E|E]; rewrite E.
    + now apply round_canonical.
    + change (Zpos m~0) with (Zpos (Pos.iter xO m 1)). now apply round_shifted.
Qed.

(** Multiplying by one and dividing by one return the operand. *)
Lemma mul_div_one (x : spec_float) :
  valid_binary prec emax x = true ->
  SFdiv prec emax (SFmul prec emax x (F_of_Z prec emax 1)) (F_of_Z prec emax 1) = x.
Proof. intros H. rewrite mul_one by exact H. now apply div_one. Qed.

End UnitFactor.

(** ** nanlast on a window whose last entry is present *)

Lemma last_as_nth {A} (l : list A) (d : A) : last l d = nth (length l - 1) l d.
Proof.
  induction l as [|x l IH]; [reflexivity|].
  destruct l as [|y l]; [reflexivity|].
  change (last (x :: y :: l) d) with (last (y :: l) d). rewrite IH.
  simpl. now rewrite Nat.sub_0_r.
Qed.

Lemma argmin_from_last (l : list Q) (best : Q) (besti i : nat) :
  l <> [] -> (last l 0 < best)%Q ->
  (forall j, j < length l - 1 -> (last l 0 < nth j l 0)%Q) ->
  argmin_from best besti i l = i + (length l - 1).
Proof.
  revert best besti i. induction l as [|x l IH]; intros best besti i Hne Hb Hall;
    [contradiction|].
  destruct l as [|y l].
  - simpl in *. destruct (Qle_bool best x) eqn:E; [|lia].
    apply Qle_bool_iff in E. apply Qle_not_lt in E. contradiction.
  - change (last (x :: y :: l) 0%Q) with (last (y :: l) 0%Q) in *.
    assert (Htail : forall j, j < length (y :: l) - 1 ->
                              (last (y :: l) 0 < nth j (y :: l) 0)%Q).
    { intros j Hj. apply (Hall (S j)). simpl in *. lia. }
    change (argmin_from best besti i (x :: y :: l))
      with (if Qle_bool best x then argmin_from best besti (S i) (y :: l)
            else argmin_from x i (S i) (y :: l)).
    destruct (Qle_bool best x).
    + rewrite IH; [simpl; lia|discriminate|exact Hb|exact Htail].
    + rewrite IH; [simpl; lia|discriminate| |exact Htail].
      apply (Hall 0). simpl. lia.
Qed.

Lemma argmin_last (l : list Q) :
  l <> [] ->
  (forall j, j < length l - 1 -> (last l 0 < nth j l 0)%Q) ->
  argmin l = length l - 1.
Proof.
  intros Hne Hall. destruct l as [|x l]; [contradiction|].
  destruct l as [|y l]; [reflexivity|].
  unfold argmin. rewrite argmin_from_last.
  - simpl. lia.
  - discriminate.
  - apply (Hall 0). simpl. lia.
  - intros j Hj. apply (Hall (S j)). simpl in *. lia.
Qed.

Lemma nanlast_scores_nth (w : list spec_float) (j : nat) (v : spec_float) :
  nth_error w j = Some v ->
  nth j (nanlast_scores w) 0%Q
  = ((if is_nan v then 1 else 0)
     + ((1 # 10) + (0 - (1 # 10))
                   * (inject_Z (Z.of_nat j) / inject_Z (Z.of_nat (length w - 1)))))%Q.
Proof.
  intros H. assert (Hj : j < length w) by (apply nth_error_Some; congruence).
  apply nth_error_nth. unfold nanlast_scores. apply nth_error_map2.
  - rewrite nth_error_map, H. reflexivity.
  - rewrite <- linspace_nth by exact Hj. unfold key_at.
    apply nth_error_nth'. now rewrite linspace_length.
Qed.

Lemma nanlast_scores_length (w : list spec_float) : length (nanlast_scores w) = length w.
Proof.
  unfold nanlast_scores. rewrite map2_length, length_map, linspace_length. lia.
Qed.

Lemma nanlast_pick_last (w : list spec_float) :
  w <> [] -> is_nan (last w S754_nan) = false -> nanlast_pick w = last w S754_nan.
Proof.
  intros Hne Hlast. unfold nanlast_pick.
  assert (Hlen : 0 < length w) by (destruct w; [contradiction|simpl; lia]).
  rewrite argmin_last.
  - rewrite nanlast_scores_length. symmetry. apply last_as_nth.
  - intros E. apply (f_equal (@length _)) in E.
    rewrite nanlast_scores_length in E. simpl in E. lia.
  - intros j Hj. rewrite nanlast_scores_length in Hj.
    rewrite last_as_nth, nanlast_scores_length.
    destruct (nth_error w j) as [v|] eqn:Ev; [|apply nth_error_None in Ev; lia].
    destruct (nth_error w (length w - 1)) as [u|] eqn:Eu;
      [|apply nth_error_None in Eu; lia].
    rewrite (nanlast_scores_nth _ _ Ev), (nanlast_scores_nth _ _ Eu).
    assert (Hu : u = last w S754_nan).
    { rewrite last_as_nth. symmetry. now apply nth_error_nth. }
    rewrite Hu, Hlast.
    pose proof (@ratio_lt j (length w - 1) (length w - 1) Hj (le_n _)) as Hr.
    destruct (is_nan v); lra.
Qed.

(** ** The last known adjustment *)

Lemma chunk_split_slices {A} (l : list A) (step : nat) :
  1 <= step -> 1 <= length l ->
  concat (map (fun se => slice (fst se) (snd se) l) (Rolling.chunk_split (length l) step))
  = l.
Proof.
  intros Hs Hr. unfold Rolling.chunk_split.
  pose proof (chunk_boundary_sorted (length l) Hs) as Hsorted.
  destruct (py_range_head Hs Hr) as [r Hr0]. rewrite Hr0 in *.
  cbn [app] in *. rewrite concat_slices by exact Hsorted.
  replace (last (0 :: r ++ [length l]) 0) with (length l).
  - apply slice_all.
  - change (0 :: r ++ [length l]) with ((0 :: r) ++ [length l]). now rewrite last_last.
Qed.

Lemma mapR_inr_Forall2 {A B} (g : A -> result B) (l : list A) (l' : list B) :
  mapR g l = inr l' -> Forall2 (fun x y => g x = inr y) l l'.
Proof.
  revert l'; induction l as [|x l IH]; simpl; intros l' H.
  - injection H as <-. constructor.
  - destruct (g x) as [e|y] eqn:Ex; simpl in H; [discriminate|].
    destruct (mapR g l) as [e|ys]; simpl in H; [discriminate|].
    injection H as <-. constructor; [exact Ex|]. now apply IH.
Qed.

Lemma nanlast_Dim2 (data : list (list (list spec_float))) (m : list (list spec_float)) :
  nanlast data = inr (Dim2 m) -> m = map (map nanlast_pick) data.
Proof.
  unfold nanlast. destruct data as [|row [|row' rest]].
  - cbn [forallb]. discriminate.
  - destruct (length row =? 1); [discriminate|]. intros H. now injection H as <-.
  - destruct (forallb _ _); [discriminate|]. intros H. now injection H as <-.
Qed.

Lemma cat_squeezed_Dim2 (chunks : list squeezed) (m : list (list spec_float)) :
  cat_squeezed chunks = inr (Dim2 m) ->
  exists ms, chunks = map Dim2 ms /\ m = concat ms.
Proof.
  unfold cat_squeezed. destruct chunks as [|[v|m0] rest]; [discriminate| |].
  - destruct (mapR _ rest); simpl; discriminate.
  - destruct (mapR (fun c => match c with
                             | Dim2 w => inr w
                             | Dim1 _ => inl RuntimeError
                             end) rest) as [e|ms] eqn:E; simpl; [discriminate|].
    intros H. injection H as <-. exists (m0 :: ms). split; [|reflexivity].
    simpl. f_equal. apply mapR_inr_Forall2 in E.
    induction E as [|c w rest ms Hc _ IH]; [reflexivity|].
    simpl. f_equal; [|exact IH]. destruct c; [discriminate|congruence].
Qed.

Lemma Forall2_map_Dim2 (V : Rolling.tensor3) (chunks : list (nat * nat))
      (ms : list (list (list spec_float))) :
  Forall2 (fun se c => nanlast (slice (fst se) (snd se) V) = inr c) chunks (map Dim2 ms) ->
  ms = map (fun se => map (map nanlast_pick) (slice (fst se) (snd se) V)) chunks.
Proof.
  revert ms; induction chunks as [|se chunks IH]; intros ms H.
  - inversion H as [E|]. destruct ms; [reflexivity|discriminate].
  - destruct ms as [|m ms]; [inversion H|]. simpl in H.
    inversion H as [|? ? ? ? H1 H2]; subst. simpl. f_equal.
    + now apply nanlast_Dim2.
    + now apply IH.
Qed.

Section LastNonNan.
Variables prec emax : Z.

Lemma last_nonnan_value (ra : Rolling.t) (m : list (list spec_float)) :
  chunked ra -> Rolling.adjustments ra = None ->
  Rolling.last_nonnan prec emax ra = inr (Dim2 m) ->
  m = map (map nanlast_pick) (Rolling.values ra).
Proof.
  intros [step [Hs [Hne Hsplit]]] Hadj H.
  unfold Rolling.last_nonnan, Rolling.agg in H. cbn [forallb] in H.
  rewrite (mapR_ext_in _
             (fun se => nanlast (slice (fst se) (snd se) (Rolling.values ra)))) in H.
  2:{ intros se _. unfold Rolling.adjusted. rewrite Hadj. cbn [bind mapR].
      now rewrite py_slice_nat. }
  destruct (mapR _ (Rolling.split ra)) as [e|chunks] eqn:Hc; [discriminate|].
  cbn [bind cat cat_of_squeezed] in H.
  destruct (cat_squeezed_Dim2 _ H) as [ms [-> ->]].
  apply mapR_inr_Forall2, Forall2_map_Dim2 in Hc. rewrite Hc, Hsplit.
  assert (Hrows : 1 <= length (Rolling.values ra))
    by (destruct (Rolling.values ra); [contradiction|simpl; lia]).
  transitivity (map (map nanlast_pick)
                    (concat (map (fun se => slice (fst se) (snd se) (Rolling.values ra))
                                 (Rolling.chunk_split (length (Rolling.values ra)) step)))).
  - rewrite concat_map, map_map. reflexivity.
  - now rewrite chunk_split_slices.
Qed.

End LastNonNan.

(** ** C9: an adjustment that is uniformly one *)

Lemma mapR_combine_fixes {A B} (f : A -> B -> result A) (xs : list A) (ys : list B) :
  Forall2 (fun x y => f x y = inr x) xs ys ->
  mapR (fun p => f (fst p) (snd p)) (combine xs ys) = inr xs.
Proof.
  induction 1 as [|x y xs ys H _ IH]; [reflexivity|].
  simpl. rewrite H. cbn [bind]. rewrite IH. reflexivity.
Qed.

(** Operands of equal length: the operation that returns its left operand
    at every position returns the left buffer. *)
Lemma broadcast2_fixes {A B} (f : A -> B -> result A) (xs : list A) (ys : list B) :
  Forall2 (fun x y => f x y = inr x) xs ys -> broadcast2 f xs ys = inr xs.
Proof.
  intros H. rewrite broadcast2_zip by exact (Forall2_length H).
  now apply mapR_combine_fixes.
Qed.

Lemma mapR_fixes {A} (g : A -> result A) (xs : list A) :
  Forall (fun x => g x = inr x) xs -> mapR g xs = inr xs.
Proof.
  induction 1 as [|x xs H _ IH]; [reflexivity|].
  simpl. rewrite H. cbn [bind]. rewrite IH. reflexivity.
Qed.

(** A right operand of size one is broadcast over the left one. *)
Lemma broadcast2_fixes_one {A B} (f : A -> B -> result A) (xs : list A) (y : B) :
  Forall (fun x => f x y = inr x) xs -> broadcast2 f xs [y] = inr xs.
Proof.
  intros H. unfold broadcast2.
  destruct (Nat.eqb_spec (length xs) (length [y])) as [E|E].
  - destruct xs as [|x [|x' xs]]; try discriminate.
    inversion H as [|? ? Hx _]; subst. simpl. rewrite Hx. reflexivity.
  - destruct xs as [|x [|x' xs]].
    + reflexivity.
    + now contradiction E.
    + now apply mapR_fixes.
Qed.

Lemma Forall2_firstn {A B} (R : A -> B -> Prop) (k : nat) (xs : list A) (ys : list B) :
  Forall2 R xs ys -> Forall2 R (firstn k xs) (firstn k ys).
Proof.
  intros H. revert k. induction H as [|x y xs ys H _ IH]; intros [|k]; simpl;
    constructor; auto.
Qed.

Lemma Forall2_skipn {A B} (R : A -> B -> Prop) (k : nat) (xs : list A) (ys : list B) :
  Forall2 R xs ys -> Forall2 R (skipn k xs) (skipn k ys).
Proof.
  intros H. revert k. induction H as [|x y xs ys H H' IH]; intros [|k]; simpl;
    try constructor; auto.
Qed.

Lemma Forall2_slice {A B} (R : A -> B -> Prop) (s e : nat) (xs : list A) (ys : list B) :
  Forall2 R xs ys -> Forall2 R (slice s e xs) (slice s e ys).
Proof. intros H. unfold slice. now apply Forall2_firstn, Forall2_skipn. Qed.

Lemma Forall2_py_slice {A B} (R : A -> B -> Prop) (s e : option Z)
      (xs : list A) (ys : list B) :
  Forall2 R xs ys -> Forall2 R (py_slice s e xs) (py_slice s e ys).
Proof.
  intros H. unfold py_slice. rewrite (Forall2_length H). now apply Forall2_slice.
Qed.

Lemma Forall2_map_both {A B C} (R : B -> C -> Prop) (f : A -> B) (g : A -> C)
      (l : list A) :
  (forall a, In a l -> R (f a) (g a)) -> Forall2 R (map f l) (map g l).
Proof.
  induction l as [|a l IH]; intros H; simpl; constructor.
  - apply H. now left.
  - apply IH. intros b Hb. apply H. now right.
Qed.

Section UnitAdjustment.
Variables prec emax : Z.
Hypothesis Hprec : (1 < prec)%Z.
Hypothesis Hemax : (prec < emax)%Z.

(** The adjustment buffer that holds one at every position of [x]. *)
Definition ones (x : Rolling.tensor2) : Rolling.tensor2 :=
  map (map (fun _ => F_of_Z prec emax 1)) x.

Lemma one_not_nan : is_nan (F_of_Z prec emax 1) = false.
Proof. rewrite (@one_canonical prec emax Hprec Hemax). reflexivity. Qed.

Lemma mul_padded_row (win : nat) (row : list spec_float) :
  Forall (fun v => valid_binary prec emax v = true) row ->
  Forall2 (fun v a => SFmul prec emax v a = v)
          (repeat S754_nan (win - 1) ++ row)
          (repeat S754_nan (win - 1) ++ map (fun _ => F_of_Z prec emax 1) row).
Proof.
  intros Hrow. apply Forall2_app.
  - induction (win - 1) as [|k IH]; simpl; constructor; [reflexivity|exact IH].
  - induction Hrow as [|v row Hv _ IH]; simpl; constructor; [|exact IH].
    now apply mul_one.
Qed.

Lemma mul_windows (win : nat) (row : list spec_float) :
  Forall (fun v => valid_binary prec emax v = true) row ->
  Forall2 (Forall2 (fun v a => SFmul prec emax v a = v))
          (windows win row) (windows win (map (fun _ => F_of_Z prec emax 1) row)).
Proof.
  intros Hrow. unfold windows. rewrite length_map.
  apply Forall2_map_both. intros i _.
  now apply Forall2_slice, mul_padded_row.
Qed.

(** Every window of the unit adjustment ends with one, which [nanlast]
    selects. *)
Lemma unit_window_last (win : nat) (row : list spec_float) (w : list spec_float) :
  1 <= win -> In w (windows win (map (fun _ => F_of_Z prec emax 1) row)) ->
  nanlast_pick w = F_of_Z prec emax 1.
Proof.
  intros Hw Hin. unfold windows in Hin. rewrite length_map in Hin.
  apply in_map_iff in Hin. destruct Hin as [i [<- Hi]].
  apply in_seq in Hi.
  set (p := repeat S754_nan (win - 1) ++ map (fun _ => F_of_Z prec emax 1) row).
  assert (Hp : length p = win - 1 + length row)
    by (unfold p; now rewrite length_app, repeat_length, length_map).
  assert (Hlen : length (slice i (i + win) p) = win)
    by (rewrite slice_length_min, Hp; lia).
  assert (Hlast : last (slice i (i + win) p) S754_nan = F_of_Z prec emax 1).
  { rewrite last_as_nth, Hlen.
    apply nth_error_nth. rewrite nth_error_slice by lia.
    unfold p. rewrite nth_error_app2 by (rewrite repeat_length; lia).
    rewrite repeat_length, nth_error_map.
    replace (i + (win - 1) - (win - 1)) with i by lia.
    destruct (nth_error row i) eqn:E; [reflexivity|].
    apply nth_error_None in E. lia. }
  rewrite nanlast_pick_last.
  - exact Hlast.
  - intros E. rewrite E in Hlen. simpl in Hlen. lia.
  - rewrite Hlast. exact one_not_nan.
Qed.

End UnitAdjustment.

Lemma Forall_slice {A} (P : A -> Prop) (s e : nat) (l : list A) :
  Forall P l -> Forall P (slice s e l).
Proof.
  intros H. unfold slice. apply Forall_forall. intros a Ha.
  rewrite Forall_forall in H. apply H.
  rewrite <- (firstn_skipn s l). apply in_or_app. right.
  rewrite <- (firstn_skipn (e - s) (skipn s l)). apply in_or_app. now left.
Qed.

Section UnitRows.
Variables prec emax : Z.
Hypothesis Hprec : (1 < prec)%Z.
Hypothesis Hemax : (prec < emax)%Z.

Let fmul (x y : spec_float) : result spec_float := inr (SFmul prec emax x y).
Let fdiv (x y : spec_float) : result spec_float := inr (SFdiv prec emax x y).
Let one : spec_float := F_of_Z prec emax 1.

Lemma mul_unit_rows (win : nat) (x : Rolling.tensor2) :
  Forall (Forall (fun v => valid_binary prec emax v = true)) x ->
  Forall2 (fun a b => broadcast2 (broadcast2 fmul) a b = inr a)
          (map (windows win) x) (map (windows win) (ones prec emax x)).
Proof.
  intros Hx. unfold ones. rewrite map_map.
  apply Forall2_map_both. intros row Hrow.
  rewrite Forall_forall in Hx.
  apply broadcast2_fixes.
  apply (@Forall2_impl _ _ (Forall2 (fun v a => SFmul prec emax v a = v))).
  - intros a b Hab. apply broadcast2_fixes.
    apply (@Forall2_impl _ _ (fun v a => SFmul prec emax v a = v)); [|exact Hab].
    intros v c Hv. unfold fmul. now rewrite Hv.
  - apply mul_windows; [assumption..|]. now apply Hx.
Qed.

Lemma div_unit_rows (win : nat) (x : Rolling.tensor2) :
  1 <= win ->
  Forall (Forall (fun v => valid_binary prec emax v = true)) x ->
  Forall2 (fun a b => broadcast2 (broadcast2 fdiv) a b = inr a)
          (map (windows win) x)
          (map (map (fun v => [v]))
               (map (map nanlast_pick) (map (windows win) (ones prec emax x)))).
Proof.
  intros Hw Hx. unfold ones. rewrite !map_map.
  apply Forall2_map_both. intros row Hrow.
  rewrite Forall_forall in Hx. specialize (Hx row Hrow).
  apply broadcast2_fixes. rewrite map_map.
  rewrite (map_ext_in _ (fun _ => [one])).
  2:{ intros w Hin. f_equal. now apply (@unit_window_last prec emax Hprec Hemax win row). }
  unfold windows. rewrite length_map, map_map.
  apply Forall2_map_both. intros i _.
  apply broadcast2_fixes_one.
  apply (@Forall_impl _ (fun v => valid_binary prec emax v = true)).
  - intros v Hv. unfold fdiv, one. now rewrite div_one.
  - apply Forall_slice, Forall_app. split; [|exact Hx].
    induction (win - 1) as [|k IH]; simpl; constructor; [reflexivity|exact IH].
Qed.

End UnitRows.

(** C9.  Adjustment neutrality.  In a format with [1 < prec < emax], an engine
    that the constructor builds from a buffer [x] of numbers of the format
    and the adjustment that is one everywhere returns, from [adjusted(s, e)]
    and for every pair of bounds, exactly the rows [values[s:e]]: the
    padding positions stay NaN and every other position keeps its value. *)
Theorem adjustment_neutral (prec emax : Z) (split_multi : spec_float) (x : Rolling.tensor2)
        (win : nat) (r : Rolling.t) (s e : option Z) :
  (1 < prec)%Z -> (prec < emax)%Z ->
  Forall (Forall (fun v => valid_binary prec emax v = true)) x ->
  Rolling.init prec emax split_multi x win (Some (ones prec emax x)) = inr r ->
  Rolling.adjusted prec emax r s e = inr (py_slice s e (Rolling.values r)).
Proof.
  intros Hprec Hemax Hx H. unfold Rolling.init in H.
  destruct (Rolling.init_plain split_multi x win) as [err|r0] eqn:H0; [discriminate|].
  cbn [bind] in H.
  destruct (Rolling.init_plain split_multi (ones prec emax x) win) as [err|ra] eqn:Ha;
    [discriminate|].
  cbn [bind] in H.
  destruct (Rolling.last_nonnan prec emax ra) as [err|nl] eqn:Hl; [discriminate|].
  cbn [bind] in H.
  destruct nl as [v|m]; [discriminate|]. cbn [add_last_axis bind] in H.
  injection H as <-.
  destruct (init_plain_chunked _ _ _ H0) as [_ [_ [Hu0 _]]].
  destruct (init_plain_chunked _ _ _ Ha) as [Hc [_ [Hua Hadj]]].
  destruct (unfold_windows _ _ Hu0) as [Hw [Hv0 _]].
  destruct (unfold_windows _ _ Hua) as [_ [Hva _]].
  pose proof (@last_nonnan_value prec emax ra m Hc Hadj Hl) as Hm.
  unfold Rolling.adjusted. cbn [Rolling.values Rolling.adjustments Rolling.adjustment_last].
  unfold Rolling.mul3, Rolling.div3.
  rewrite broadcast2_fixes.
  - cbn [bind]. apply broadcast2_fixes, Forall2_py_slice.
    rewrite Hm, Hva, Hv0. now apply div_unit_rows.
  - apply Forall2_py_slice. rewrite Hva, Hv0. now apply mul_unit_rows.
Qed.

Lemma adjustment_neutral_witness :
  exists r,
    Rolling.init 24 128 Rolling._split_multi [example_row 24 128] 2 (Some (ones 24 128 [example_row 24 128]))
    = inr r /\
    Rolling.adjusted 24 128 r None None = inr (py_slice None None (Rolling.values r)).
Proof.
  assert (H : exists r,
             Rolling.init 24 128 Rolling._split_multi [example_row 24 128] 2
                          (Some (ones 24 128 [example_row 24 128])) = inr r)
    by (eexists; vm_compute; reflexivity).
  destruct H as [r Hr]. exists r. split; [exact Hr|].
  apply (@adjustment_neutral 24 128 Rolling._split_multi [example_row 24 128] 2 r None None);
    [lia | lia | | exact Hr].
  repeat constructor.
Defined.

(** * Further properties of the rolling engine *)

(** ** The layout of the unfolded buffer *)

Lemma unfold_row_entry (win : nat) (fill : spec_float) (row : list spec_float)
      (ws : list (list spec_float)) :
  1 <= win -> Rolling.unfold_row win fill row = inr ws ->
  row <> [] /\ length ws = length row /\
  forall t, t < length row ->
    exists w, nth_error ws t = Some w /\ length w = win /\
      forall j, j < win ->
        nth_error w j = if t + j <? win - 1 then Some fill
                        else nth_error row (t + j - (win - 1)).
Proof.
  intros Hw. unfold Rolling.unfold_row.
  rewrite length_app, repeat_length.
  destruct (Nat.ltb_spec (win - 1 + length row) win) as [H|H]; [discriminate|].
  intros E. injection E as <-.
  split; [intros ->; simpl in H; lia|].
  split; [rewrite length_map, length_seq; lia|].
  intros t Ht. eexists. split; [|split].
  - rewrite nth_error_map, nth_error_seq.
    destruct (Nat.ltb_spec t (win - 1 + length row - win + 1)) as [_|?]; [|lia].
    reflexivity.
  - rewrite slice_length_min, length_app, repeat_length. lia.
  - intros j Hj. simpl. rewrite nth_error_slice by lia.
    destruct (Nat.ltb_spec (t + j) (win - 1)) as [Hp|Hp].
    + rewrite nth_error_app1 by (rewrite repeat_length; lia).
      apply nth_error_repeat. lia.
    + rewrite nth_error_app2 by (rewrite repeat_length; lia).
      now rewrite repeat_length.
Qed.

(** [unfold(x, win, fill)], when it returns, keeps the rows of [x]; row [n]
    has one window per time step of the input row, every window has [win]
    entries, and entry [j] of the window at time [t] is the input at time
    [t + j - (win - 1)], or [fill] before the start of the row. *)
Theorem unfold_entry (x : Rolling.tensor2) (win : nat) (fill : spec_float)
        (v : Rolling.tensor3) :
  Rolling.unfold x win fill = inr v ->
  length v = length x /\
  forall n row, nth_error x n = Some row ->
    exists ws, nth_error v n = Some ws /\ length ws = length row /\
      forall t, t < length row ->
        exists w, nth_error ws t = Some w /\ length w = win /\
          forall j, j < win ->
            nth_error w j = if t + j <? win - 1 then Some fill
                            else nth_error row (t + j - (win - 1)).
Proof.
  unfold Rolling.unfold. destruct (Nat.eqb_spec win 0) as [E|E]; [discriminate|].
  intros H. apply mapR_inr_Forall2 in H.
  split; [symmetry; exact (Forall2_length H)|].
  induction H as [|row0 ws0 x v Hrow _ IH]; intros n row Hn.
  - destruct n; discriminate.
  - destruct n as [|n]; simpl in Hn.
    + injection Hn as ->. exists ws0. split; [reflexivity|].
      destruct (@unfold_row_entry win fill row ws0 ltac:(lia) Hrow) as [_ [Hl Hw]].
      split; assumption.
    + apply (IH n row Hn).
Qed.

Lemma unfold_entry_witness :
  exists v, Rolling.unfold [example_row 24 128] 2 S754_nan = inr v /\ length v = 1.
Proof.
  assert (H : exists v, Rolling.unfold [example_row 24 128] 2 S754_nan = inr v)
    by (eexists; vm_compute; reflexivity).
  destruct H as [v Hv]. exists v. split; [exact Hv|].
  exact (proj1 (@unfold_entry [example_row 24 128] 2 S754_nan v Hv)).
Defined.

(** ** Selecting one entry of every window *)

Lemma mapR_nth_seq {A B} (g : A -> result B) (d : A) (l : list A) :
  mapR (fun i => g (nth i l d)) (seq 0 (length l)) = mapR g l.
Proof.
  rewrite <- (mapR_map g (fun i => nth i l d)). now rewrite map_nth_seq.
Qed.

(** An operator that maps every row on its own, applied through [agg] by an
    engine without adjustment, gives what it gives on the whole buffer. *)
Lemma agg_rows (prec emax : Z) {B} (g : list (list spec_float) -> result B)
      (r : Rolling.t) :
  chunked r -> Rolling.adjustments r = None ->
  Rolling.agg prec emax (fun x _ => mapR g x) r [] = mapR g (Rolling.values r).
Proof.
  intros [step [Hs [Hne Hsplit]]] Hadj.
  destruct (plain_adjusted prec emax r Hadj) as [Hfull Hagree].
  rewrite (agg_ext prec emax _ (rowwise (fun row _ => g row))).
  - rewrite (@agg_rowwise prec emax _ _ r [] step (Rolling.values r) []
               Hs Hne Hsplit eq_refl Hagree (Forall_nil _) Hfull eq_refl).
    unfold rowwise. apply mapR_nth_seq.
  - intros x os. unfold rowwise. symmetry. apply mapR_nth_seq.
Qed.

Lemma init_values (prec emax : Z) (split_multi : spec_float) (x : Rolling.tensor2) (win : nat)
      (adj : option Rolling.tensor2) (r : Rolling.t) :
  Rolling.init prec emax split_multi x win adj = inr r ->
  1 <= win /\ Rolling.values r = map (windows win) x /\
  (adj = None -> Rolling.adjustments r = None).
Proof.
  unfold Rolling.init. intros H.
  destruct (Rolling.init_plain split_multi x win) as [err|r0] eqn:H0; [discriminate|].
  cbn [bind] in H. destruct (init_plain_chunked _ _ _ H0) as [_ [_ [Hu Ha]]].
  destruct (unfold_windows _ _ Hu) as [Hw [Hv _]].
  destruct adj as [a|].
  - destruct (Rolling.init_plain split_multi a win) as [err|ra]; [discriminate|].
    cbn [bind] in H.
    destruct (Rolling.last_nonnan prec emax ra) as [err|nl]; [discriminate|].
    cbn [bind] in H. destruct (add_last_axis nl) as [err|al]; [discriminate|].
    cbn [bind] in H. injection H as <-. cbn [Rolling.values].
    split; [exact Hw|]. split; [exact Hv|discriminate].
  - injection H as <-. split; [exact Hw|]. split; [exact Hv|]. intros _. exact Ha.
Qed.

Lemma nth_seq_firstn {A} (d : A) (p : list A) (k : nat) :
  k <= length p -> map (fun t => nth t p d) (seq 0 k) = firstn k p.
Proof.
  revert k. induction p as [|a p IH]; intros k Hk.
  - simpl in Hk. assert (k = 0) by lia. subst. reflexivity.
  - destruct k as [|k]; [reflexivity|].
    simpl. f_equal. rewrite <- seq_shift, map_map. apply IH. simpl in Hk. lia.
Qed.

Lemma window_first (win : nat) (row : list spec_float) :
  1 <= win ->
  mapR (fun w => py_get w 0) (windows win row)
  = inr (firstn (length row) (repeat S754_nan (win - 1) ++ row)).
Proof.
  intros Hw. unfold windows. rewrite mapR_map.
  set (p := repeat S754_nan (win - 1) ++ row).
  assert (Hp : length p = win - 1 + length row)
    by (unfold p; now rewrite length_app, repeat_length).
  rewrite (mapR_ext_in _ (fun t => inr (nth t p S754_nan))).
  - rewrite mapR_pure. f_equal. apply nth_seq_firstn. lia.
  - intros t Ht. apply in_seq in Ht. unfold py_get.
    rewrite slice_length_min, Hp.
    replace (Nat.min (t + win - t) (win - 1 + length row - t)) with win by lia.
    change (0 <? 0)%Z with false. cbv iota.
    destruct (Z.leb_spec 0 0); [|lia].
    destruct (Z.ltb_spec 0 (Z.of_nat win)); [|lia]. cbn [andb Z.to_nat].
    rewrite nth_error_slice by lia. rewrite Nat.add_0_r.
    destruct (nth_error p t) as [v|] eqn:E.
    + f_equal. symmetry. now apply nth_error_nth.
    + apply nth_error_None in E. lia.
Qed.

Lemma window_last (win : nat) (row : list spec_float) :
  1 <= win -> mapR (fun w => py_get w (-1)) (windows win row) = inr row.
Proof.
  intros Hw. unfold windows. rewrite mapR_map.
  set (p := repeat S754_nan (win - 1) ++ row).
  assert (Hp : length p = win - 1 + length row)
    by (unfold p; now rewrite length_app, repeat_length).
  rewrite (mapR_ext_in _ (fun t => inr (nth t row S754_nan))).
  - rewrite mapR_pure. f_equal. apply map_nth_seq.
  - intros t Ht. apply in_seq in Ht. unfold py_get.
    rewrite slice_length_min, Hp.
    replace (Nat.min (t + win - t) (win - 1 + length row - t)) with win by lia.
    change (-1 <? 0)%Z with true. cbv iota.
    destruct (Z.leb_spec 0 (-1 + Z.of_nat win)); [|lia].
    destruct (Z.ltb_spec (-1 + Z.of_nat win) (Z.of_nat win)); [|lia]. cbn [andb].
    replace (Z.to_nat (-1 + Z.of_nat win)) with (win - 1) by lia.
    rewrite nth_error_slice by lia.
    unfold p. rewrite nth_error_app2 by (rewrite repeat_length; lia).
    rewrite repeat_length. replace (t + (win - 1) - (win - 1)) with t by lia.
    destruct (nth_error row t) as [v|] eqn:E.
    + f_equal. symmetry. now apply nth_error_nth.
    + apply nth_error_None in E. lia.
Qed.

(** [last()] of an engine built by the constructor, with or without
    adjustment, is the input buffer itself: the last entry of the window at
    time [t] is the input at time [t], and it is returned unadjusted. *)
Theorem rolling_last (prec emax : Z) (split_multi : spec_float) (x : Rolling.tensor2) (win : nat)
        (adj : option Rolling.tensor2) (r : Rolling.t) :
  Rolling.init prec emax split_multi x win adj = inr r ->
  Rolling.last prec emax r = inr x.
Proof.
  intros H. destruct (init_values _ _ _ _ _ _ H) as [Hw [Hv _]].
  unfold Rolling.last, Rolling.loc. change (-1 =? -1)%Z with true. cbv iota.
  unfold Rolling.index_axis2. rewrite Hv, mapR_map.
  rewrite (mapR_ext_in _ (fun row => inr row)).
  - rewrite mapR_pure. now rewrite map_id.
  - intros row _. now apply window_last.
Qed.

Lemma rolling_last_witness :
  exists r,
    Rolling.init 24 128 Rolling._split_multi [example_row 24 128] 2 (Some (ones 24 128 [example_row 24 128]))
    = inr r /\
    Rolling.last 24 128 r = inr [example_row 24 128].
Proof.
  assert (H : exists r,
             Rolling.init 24 128 Rolling._split_multi [example_row 24 128] 2
                          (Some (ones 24 128 [example_row 24 128])) = inr r)
    by (eexists; vm_compute; reflexivity).
  destruct H as [r Hr]. exists r. split; [exact Hr|].
  exact (@rolling_last 24 128 Rolling._split_multi [example_row 24 128] 2 _ r Hr).
Defined.

(** [first()] of an engine built without adjustment is the input delayed by
    [win - 1] time steps: every row is the row of the input, padded on the
    left with [win - 1] missing values and cut to its length. *)
Theorem rolling_first (prec emax : Z) (split_multi : spec_float) (x : Rolling.tensor2) (win : nat)
        (r : Rolling.t) :
  Rolling.init prec emax split_multi x win None = inr r ->
  Rolling.first prec emax r
  = inr (map (fun row => firstn (length row) (repeat S754_nan (win - 1) ++ row)) x).
Proof.
  intros H. destruct (init_values _ _ _ _ _ _ H) as [Hw [Hv Ha]].
  pose proof (init_chunked _ _ _ _ _ _ H) as Hc.
  unfold Rolling.first, Rolling.loc. change (0 =? -1)%Z with false. cbv iota.
  unfold Rolling.index_axis2.
  etransitivity;
    [exact (@agg_rows prec emax _ (mapR (fun w => py_get w 0)) r Hc (Ha eq_refl))|].
  rewrite Hv, mapR_map.
  rewrite (mapR_ext_in _
             (fun row => inr (firstn (length row) (repeat S754_nan (win - 1) ++ row)))).
  - apply mapR_pure.
  - intros row _. now apply window_first.
Qed.

Lemma rolling_first_witness :
  exists r,
    Rolling.init 24 128 Rolling._split_multi [example_row 24 128] 2 None = inr r /\
    Rolling.first 24 128 r
    = inr [[S754_nan; F_of_Z 24 128 10; F_of_Z 24 128 20; F_of_Z 24 128 30]].
Proof.
  assert (H : exists r, Rolling.init 24 128 Rolling._split_multi [example_row 24 128] 2 None = inr r)
    by (eexists; vm_compute; reflexivity).
  destruct H as [r Hr]. exists r. split; [exact Hr|].
  rewrite (@rolling_first 24 128 Rolling._split_multi [example_row 24 128] 2 r Hr). reflexivity.
Defined.

(** ** When the constructor returns *)

Lemma unfold_row_ok (win : nat) (row : list spec_float) :
  1 <= win -> row <> [] ->
  Rolling.unfold_row win S754_nan row = inr (windows win row).
Proof.
  intros Hw Hne. unfold Rolling.unfold_row, windows.
  rewrite length_app, repeat_length.
  assert (0 < length row) by (destruct row; [contradiction|simpl; lia]).
  destruct (Nat.ltb_spec (win - 1 + length row) win) as [Hl|Hl]; [lia|].
  do 3 f_equal. lia.
Qed.

Lemma unfold_ok (win : nat) (x : Rolling.tensor2) :
  1 <= win -> Forall (fun row => row <> []) x ->
  Rolling.unfold x win S754_nan = inr (map (windows win) x).
Proof.
  intros Hw Hx. unfold Rolling.unfold.
  destruct (Nat.eqb_spec win 0) as [E|_]; [lia|].
  induction Hx as [|row x Hrow _ IH]; [reflexivity|].
  simpl. rewrite (unfold_row_ok Hw Hrow). cbn [bind]. rewrite IH. reflexivity.
Qed.

Lemma unfold_empty_row (win : nat) (x : Rolling.tensor2) :
  1 <= win -> Exists (fun row => row = []) x ->
  Rolling.unfold x win S754_nan = inl RuntimeError.
Proof.
  intros Hw Hx. unfold Rolling.unfold.
  destruct (Nat.eqb_spec win 0) as [E|_]; [lia|].
  induction x as [|row x IH]; [inversion Hx|].
  simpl. destruct row as [|a row].
  - unfold Rolling.unfold_row. rewrite app_nil_r, repeat_length.
    destruct (Nat.ltb_spec (win - 1) win) as [_|Hl]; [reflexivity|lia].
  - rewrite unfold_row_ok by (assumption || discriminate). cbn [bind].
    rewrite IH; [reflexivity|]. inversion Hx as [? ? E|]; [discriminate|assumption].
Qed.

(** The outcome of the constructor.  With a window of zero, or a row
    without a time step, it raises the tensor library's error, whatever the
    tuning constant and the adjustment.  Whenever it returns, the window is
    at least one, the buffer has at least one row and every row at least one
    time step; the values of the engine are the windows of the rows, the
    window is stored, and without adjustment both adjustment fields are
    empty. *)
Theorem constructor_returns (prec emax : Z) (split_multi : spec_float)
        (x : Rolling.tensor2) (win : nat) (adj : option Rolling.tensor2) :
  (win = 0 \/ Exists (fun row => row = []) x ->
   Rolling.init prec emax split_multi x win adj = inl RuntimeError) /\
  (forall r,
      Rolling.init prec emax split_multi x win adj = inr r ->
      1 <= win /\ x <> [] /\ Forall (fun row => row <> []) x /\
      Rolling.values r = map (windows win) x /\ Rolling.win r = win /\
      (adj = None ->
       Rolling.adjustments r = None /\ Rolling.adjustment_last r = None)).
Proof.
  split.
  - intros Hbad. unfold Rolling.init, Rolling.init_plain.
    destruct Hbad as [->|Hbad].
    + reflexivity.
    + destruct win as [|k]; [reflexivity|].
      rewrite (@unfold_empty_row (S k) x ltac:(lia) Hbad). reflexivity.
  - intros r H. unfold Rolling.init in H.
    destruct (Rolling.init_plain split_multi x win) as [err|r0] eqn:H0; [discriminate|].
    cbn [bind] in H.
    destruct (init_plain_chunked _ _ _ H0) as [[_ [_ [Hne _]]] [Hwin [Hu Ha]]].
    destruct (unfold_windows _ _ Hu) as [Hw [Hv Hrows]].
    assert (Hx : x <> []) by (intros ->; apply Hne; now rewrite Hv).
    assert (Hl : Rolling.adjustment_last r0 = None).
    { unfold Rolling.init_plain in H0. rewrite Hu in H0. cbn [bind] in H0.
      destruct (Rolling.chunk_step split_multi (Rolling.values r0)); [discriminate|].
      cbn [bind] in H0. now injection H0 as <-. }
    destruct adj as [a|].
    + destruct (Rolling.init_plain split_multi a win) as [err|ra]; [discriminate|].
      cbn [bind] in H.
      destruct (Rolling.last_nonnan prec emax ra) as [err|nl]; [discriminate|].
      cbn [bind] in H. destruct (add_last_axis nl) as [err|al]; [discriminate|].
      cbn [bind] in H. injection H as <-. cbn [Rolling.values Rolling.win].
      split; [exact Hw|]. split; [exact Hx|]. split; [exact Hrows|].
      split; [exact Hv|]. split; [reflexivity|]. discriminate.
    + injection H as <-.
      split; [exact Hw|]. split; [exact Hx|]. split; [exact Hrows|].
      split; [exact Hv|]. split; [exact Hwin|]. intros _. split; assumption.
Qed.

Lemma constructor_returns_witness :
  exists r,
    Rolling.init 24 128 Rolling._split_multi [example_row 24 128] 2 None = inr r /\
    Rolling.values r = map (windows 2) [example_row 24 128] /\
    Rolling.adjustments r = None.
Proof.
  assert (H : exists r, Rolling.init 24 128 Rolling._split_multi
                                     [example_row 24 128] 2 None = inr r)
    by (eexists; vm_compute; reflexivity).
  destruct H as [r Hr]. exists r. split; [exact Hr|].
  destruct (proj2 (@constructor_returns 24 128 Rolling._split_multi
                                        [example_row 24 128] 2 None) r Hr)
    as [_ [_ [_ [Hv [_ Ha]]]]].
  split; [exact Hv|]. exact (proj1 (Ha eq_refl)).
Defined.

(** ** The chunks computed by the constructor *)

Lemma pairs_map_seq (f : nat -> nat) (z a n : nat) :
  pairs (map f (seq a (S n)) ++ [z])
  = map (fun k => (f k, if S k <? a + S n then f (S k) else z)) (seq a (S n)).
Proof.
  revert a. induction n as [|n IH]; intros a.
  - simpl. destruct (Nat.ltb_spec (S a) (a + 1)); [lia|reflexivity].
  - change (seq a (S (S n))) with (a :: seq (S a) (S n)).
    cbn [map app]. change (seq (S a) (S n)) with (S a :: seq (S (S a)) n) at 1.
    cbn [map app]. rewrite pairs_cons2.
    change (f (S a) :: map f (seq (S (S a)) n) ++ [z])
      with (map f (seq (S a) (S n)) ++ [z]).
    rewrite IH. f_equal.
    + destruct (Nat.ltb_spec (S a) (a + S (S n))); [reflexivity|lia].
    + apply map_ext. intros k. now replace (S a + S n) with (a + S (S n)) by lia.
Qed.

(** For at least one row, the chunks are [(0, step)], [(step, 2 * step)],
    and so on, the last one ending at the number of rows. *)
Lemma chunk_split_closed (rows step : nat) :
  1 <= step -> 1 <= rows ->
  Rolling.chunk_split rows step
  = map (fun k => (k * step, Nat.min (k * step + step) rows))
        (seq 0 ((rows + step - 1) / step)).
Proof.
  intros Hs Hr. unfold Rolling.chunk_split, py_range.
  set (n := (rows + step - 1) / step).
  pose proof (Nat.Div0.mul_div_le (rows + step - 1) step) as Hlo.
  pose proof (Nat.mul_succ_div_gt (rows + step - 1) step ltac:(lia)) as Hhi.
  fold n in Hlo, Hhi.
  assert (Hn : 1 <= n) by nia.
  destruct n as [|m] eqn:En; [lia|].
  rewrite pairs_map_seq. apply map_ext_in. intros k Hk. apply in_seq in Hk.
  f_equal. simpl "+" at 1.
  destruct (Nat.ltb_spec (S k) (S m)) as [H|H]; nia.
Qed.

Lemma init_plain_split (split_multi : spec_float) (x : Rolling.tensor2) (win : nat)
      (r : Rolling.t) :
  Rolling.init_plain split_multi x win = inr r ->
  exists step,
    Rolling.chunk_step split_multi (Rolling.values r) = inr step /\ 1 <= step /\
    1 <= length x /\ length (Rolling.values r) = length x /\
    Rolling.split r = Rolling.chunk_split (length x) step.
Proof.
  intros H. destruct (init_plain_chunked _ _ _ H) as [[_ [_ [Hne _]]] [_ [Hu _]]].
  destruct (unfold_windows _ _ Hu) as [_ [Hv _]].
  assert (Hlen : length (Rolling.values r) = length x) by (now rewrite Hv, length_map).
  unfold Rolling.init_plain in H. rewrite Hu in H. cbn [bind] in H.
  destruct (Rolling.chunk_step split_multi (Rolling.values r)) as [err|step] eqn:Hstep;
    [discriminate|].
  cbn [bind] in H. exists step. split; [reflexivity|].
  assert (Hs : 1 <= step) by exact (chunk_step_positive _ _ Hstep).
  split; [exact Hs|]. split.
  - rewrite <- Hlen. destruct (Rolling.values r); [contradiction|simpl; lia].
  - split; [exact Hlen|]. rewrite <- Hlen. now injection H as <-.
Qed.

(** The chunks of an engine built by the constructor.  With [step] the
    chunk size computed from the size of the unfolded buffer,
    [max(int(rows / memory_usage), 1)], the chunk list is [(0, step)],
    [(step, 2 * step)], ..., up to the number of rows: every chunk has at
    least one and at most [step] rows, and the chunks follow each other
    without gap from row 0 to the last row. *)
Theorem constructor_chunks (prec emax : Z) (split_multi : spec_float) (x : Rolling.tensor2)
        (win : nat) (adj : option Rolling.tensor2) (r : Rolling.t) :
  Rolling.init prec emax split_multi x win adj = inr r ->
  exists step,
    Rolling.chunk_step split_multi (Rolling.values r) = inr step /\ 1 <= step /\
    Rolling.split r
    = map (fun k => (k * step, Nat.min (k * step + step) (length x)))
          (seq 0 ((length x + step - 1) / step)) /\
    (forall s e, In (s, e) (Rolling.split r) -> s < e <= length x /\ e - s <= step) /\
    concat (map (fun se => seq (fst se) (snd se - fst se)) (Rolling.split r))
    = seq 0 (length x).
Proof.
  unfold Rolling.init. intros H.
  destruct (Rolling.init_plain split_multi x win) as [err|r0] eqn:H0; [discriminate|].
  cbn [bind] in H.
  destruct (init_plain_split _ _ _ H0) as [step [Hstep [Hs [Hr [Hlen Hsplit]]]]].
  assert (E : Rolling.values r = Rolling.values r0 /\ Rolling.split r = Rolling.split r0).
  { destruct adj as [a|]; [|injection H as <-; now split].
    destruct (Rolling.init_plain split_multi a win) as [err|ra]; [discriminate|].
    cbn [bind] in H.
    destruct (Rolling.last_nonnan prec emax ra) as [err|nl]; [discriminate|].
    cbn [bind] in H. destruct (add_last_axis nl) as [err|al]; [discriminate|].
    cbn [bind] in H. injection H as <-. now split. }
  destruct E as [Ev Es]. exists step. rewrite Ev, Es, Hsplit.
  split; [exact Hstep|]. split; [exact Hs|].
  split; [now apply chunk_split_closed|]. split.
  - intros s e Hin. rewrite chunk_split_closed in Hin by assumption.
    apply in_map_iff in Hin. destruct Hin as [k [E Hk]]. apply in_seq in Hk.
    injection E as <- <-.
    pose proof (Nat.Div0.mul_div_le (length x + step - 1) step) as Hlo.
    nia.
  - now apply chunk_split_cover.
Qed.

(** Five rows of one time step, window 1, and the tuning constant [2 ** 29]:
    the memory usage is 2.5 and the chunk size 2. *)
Definition five_row_engine : Rolling.t :=
  {| Rolling.values := map (fun z => [[F_of_Z 24 128 z]]) [1; 2; 3; 4; 5]%Z;
     Rolling.win := 1;
     Rolling.split := [(0, 2); (2, 4); (4, 5)];
     Rolling.adjustments := None;
     Rolling.adjustment_last := None |}.

Lemma constructor_chunks_witness :
  Rolling.init 24 128 (F_of_Z 53 1024 (2 ^ 29))
               (map (fun z => [F_of_Z 24 128 z]) [1; 2; 3; 4; 5]%Z) 1 None
  = inr five_row_engine /\
  Rolling.chunk_step (F_of_Z 53 1024 (2 ^ 29)) (Rolling.values five_row_engine) = inr 2 /\
  forall s e, In (s, e) [(0, 2); (2, 4); (4, 5)] -> s < e <= 5 /\ e - s <= 2.
Proof.
  assert (Hr : Rolling.init 24 128 (F_of_Z 53 1024 (2 ^ 29))
                 (map (fun z => [F_of_Z 24 128 z]) [1; 2; 3; 4; 5]%Z) 1 None
               = inr five_row_engine) by (vm_compute; reflexivity).
  split; [exact Hr|].
  destruct (@constructor_chunks 24 128 (F_of_Z 53 1024 (2 ^ 29))
              (map (fun z => [F_of_Z 24 128 z]) [1; 2; 3; 4; 5]%Z) 1 None
              five_row_engine Hr) as [step [Hstep [_ [_ [Hin _]]]]].
  assert (E : step = 2) by (vm_compute in Hstep; now injection Hstep as <-).
  subst step. split; [exact Hstep|]. exact Hin.
Defined.

(** ** A single time step with an adjustment *)

Lemma nanlast_single_step (data : list (list (list spec_float))) :
  data <> [] -> Forall (fun row => length row = 1) data ->
  nanlast data = inl IndexError \/ exists v, nanlast data = inr (Dim1 v).
Proof.
  intros Hne Hall. unfold nanlast. destruct data as [|row [|row' rest]].
  - contradiction.
  - inversion Hall as [|? ? H1 _]; subst. rewrite H1. now left.
  - right. assert (E : forallb (fun row => length row =? 1) (row :: row' :: rest) = true).
    { apply forallb_forall. intros r Hr. rewrite Forall_forall in Hall.
      apply Nat.eqb_eq. now apply Hall. }
    rewrite E. eexists. reflexivity.
Qed.

Lemma mapR_Dim1 {A} (g : A -> result squeezed) (l : list A) :
  (forall a, In a l -> g a = inl IndexError \/ exists v, g a = inr (Dim1 v)) ->
  mapR g l = inl IndexError \/ exists vs, mapR g l = inr (map Dim1 vs).
Proof.
  induction l as [|a l IH]; intros H.
  - right. exists []. reflexivity.
  - simpl. destruct (H a (or_introl eq_refl)) as [E|[v E]]; rewrite E; cbn [bind].
    + now left.
    + destruct IH as [E'|[vs E']].
      * intros b Hb. apply H. now right.
      * rewrite E'. now left.
      * rewrite E'. right. exists (v :: vs). reflexivity.
Qed.

Lemma cat_squeezed_Dim1 (vs : list (list spec_float)) :
  vs <> [] -> exists v, cat_squeezed (map Dim1 vs) = inr (Dim1 v).
Proof.
  destruct vs as [|v vs]; [contradiction|]. intros _. simpl.
  assert (E : mapR (fun c => match c with
                             | Dim1 w => inr w
                             | Dim2 _ => inl RuntimeError
                             end) (map Dim1 vs) = inr vs).
  { rewrite mapR_map. rewrite mapR_pure. now rewrite map_id. }
  rewrite E. cbn [bind]. eexists. reflexivity.
Qed.

Lemma init_plain_steps (split_multi : spec_float) (x : Rolling.tensor2) (win : nat) :
  1 <= win -> Forall (fun row => row <> []) x ->
  Rolling.init_plain split_multi x win
  = (step <- Rolling.chunk_step split_multi (map (windows win) x) ;;
     inr {| Rolling.values := map (windows win) x; Rolling.win := win;
            Rolling.split := Rolling.chunk_split (length (map (windows win) x)) step;
            Rolling.adjustments := None; Rolling.adjustment_last := None |}).
Proof.
  intros Hw Hx. unfold Rolling.init_plain. now rewrite (unfold_ok Hw Hx).
Qed.

Lemma single_step_rows (rows : Rolling.tensor2) :
  Forall (fun row => length row = 1) rows -> Forall (fun row => row <> []) rows.
Proof.
  apply Forall_impl. intros row H E. rewrite E in H. discriminate.
Qed.

(** On an engine without adjustment whose rows have a single window,
    [last_nonnan()] raises IndexError or returns a one-dimensional result,
    which [[:, :, None]] refuses with IndexError. *)
Lemma single_step_last_nonnan (prec emax : Z) (V : Rolling.tensor3) (win step : nat) :
  1 <= step -> V <> [] -> Forall (fun row => length row = 1) V ->
  (nl <- Rolling.last_nonnan prec emax
           {| Rolling.values := V; Rolling.win := win;
              Rolling.split := Rolling.chunk_split (length V) step;
              Rolling.adjustments := None; Rolling.adjustment_last := None |} ;;
   add_last_axis nl) = inl IndexError.
Proof.
  intros Hs Hne HV.
  assert (Hrows : 1 <= length V) by (destruct V; [contradiction|simpl; lia]).
  unfold Rolling.last_nonnan, Rolling.agg.
  cbn [forallb Rolling.split Rolling.values Rolling.adjustments].
  match goal with
  | |- context [mapR ?g (Rolling.chunk_split ?n ?s)] =>
      destruct (@mapR_Dim1 _ g (Rolling.chunk_split n s)) as [E|[vs E]]
  end.
  - intros [s e] Hin. unfold Rolling.adjusted.
    cbn [Rolling.adjustments Rolling.values bind mapR fst snd].
    rewrite py_slice_nat. apply nanlast_single_step.
    + rewrite chunk_split_closed in Hin by assumption.
      apply in_map_iff in Hin. destruct Hin as [k [Ek Hk]]. apply in_seq in Hk.
      injection Ek as <- <-.
      pose proof (Nat.Div0.mul_div_le (length V + step - 1) step) as Hlo.
      intros Hnil. apply (f_equal (@length _)) in Hnil.
      rewrite slice_length_min in Hnil. simpl in Hnil. nia.
    + now apply Forall_slice.
  - rewrite E. reflexivity.
  - rewrite E. cbn [bind cat cat_of_squeezed].
    destruct (@cat_squeezed_Dim1 vs) as [v Hv].
    + intros ->. apply mapR_length in E. simpl in E.
      apply (@chunk_split_nonempty (length V) step Hs Hrows).
      now apply length_zero_iff_nil.
    + rewrite Hv. reflexivity.
Qed.

(** The constructor on buffers of a single time step.  When every row of
    the input and of the adjustment has exactly one time step, the
    constructor called with the adjustment never returns, whatever the
    window size and the tuning constant.  Once the chunk sizes of the two
    engines are computed, the error is IndexError: [nanlast] squeezes the
    time axis away, so that its result is indexed with too many indices. *)
Theorem single_step_adjustment (prec emax : Z) (split_multi : spec_float)
        (x adj : Rolling.tensor2) (win : nat) :
  Forall (fun row => length row = 1) x ->
  Forall (fun row => length row = 1) adj ->
  (exists e, Rolling.init prec emax split_multi x win (Some adj) = inl e) /\
  (forall s0 s1,
      1 <= win ->
      Rolling.chunk_step split_multi (map (windows win) x) = inr s0 ->
      Rolling.chunk_step split_multi (map (windows win) adj) = inr s1 ->
      Rolling.init prec emax split_multi x win (Some adj) = inl IndexError).
Proof.
  intros Hx1 Ha1.
  destruct win as [|k].
  { split; [eexists; reflexivity|]. intros s0 s1 Hw. lia. }
  assert (Hw : 1 <= S k) by lia. revert Hw. generalize (S k). clear k.
  intros win Hw.
  assert (Hcore : forall s0 s1,
             Rolling.chunk_step split_multi (map (windows win) x) = inr s0 ->
             Rolling.chunk_step split_multi (map (windows win) adj) = inr s1 ->
             Rolling.init prec emax split_multi x win (Some adj) = inl IndexError).
  { intros s0 s1 H0 H1. unfold Rolling.init.
    rewrite (init_plain_steps split_multi Hw (single_step_rows Hx1)), H0.
    cbn [bind].
    rewrite (init_plain_steps split_multi Hw (single_step_rows Ha1)), H1.
    cbn [bind].
    set (V := map (windows win) adj) in *.
    assert (HV : Forall (fun row => length row = 1) V).
    { unfold V. apply Forall_map. eapply Forall_impl; [|exact Ha1].
      intros row Hrow. unfold windows. now rewrite length_map, length_seq. }
    assert (Hne : V <> []).
    { intros E. rewrite E in H1.
      destruct (chunk_step_nil split_multi) as [e He]. congruence. }
    pose proof (@single_step_last_nonnan prec emax V win s1
                  (chunk_step_positive _ _ H1) Hne HV) as Hl.
    destruct (Rolling.last_nonnan prec emax _) as [e|nl]; cbn [bind] in Hl |- *.
    - now injection Hl as ->.
    - rewrite Hl. reflexivity. }
  split; [|intros s0 s1 _; apply Hcore].
  destruct (Rolling.chunk_step split_multi (map (windows win) x)) as [e0|s0] eqn:H0.
  - exists e0. unfold Rolling.init.
    rewrite (init_plain_steps split_multi Hw (single_step_rows Hx1)), H0. reflexivity.
  - destruct (Rolling.chunk_step split_multi (map (windows win) adj)) as [e1|s1] eqn:H1.
    + exists e1. unfold Rolling.init.
      rewrite (init_plain_steps split_multi Hw (single_step_rows Hx1)), H0.
      cbn [bind].
      rewrite (init_plain_steps split_multi Hw (single_step_rows Ha1)), H1.
      reflexivity.
    + exists IndexError. now apply (Hcore s0 s1).
Qed.

Lemma single_step_adjustment_witness :
  Rolling.init 24 128 (F_of_Z 53 1024 (2 ^ 30))
               [[F_of_Z 24 128 5]; [F_of_Z 24 128 7]] 3
               (Some [[F_of_Z 24 128 1]; [F_of_Z 24 128 1]])
  = inl IndexError.
Proof.
  destruct (@single_step_adjustment 24 128 (F_of_Z 53 1024 (2 ^ 30))
              [[F_of_Z 24 128 5]; [F_of_Z 24 128 7]]
              [[F_of_Z 24 128 1]; [F_of_Z 24 128 1]] 3
              ltac:(repeat constructor) ltac:(repeat constructor)) as [_ H].
  apply (H 1 1); [lia | vm_compute; reflexivity | vm_compute; reflexivity].
Defined.

(** * Further properties of the NaN-aware reductions *)

(** ** nanmax and nanmin return an extremum of the cells that are present *)

Ltac compare_cases :=
  repeat match goal with
         | |- context [Z.compare ?a ?b] => destruct (Z.compare_spec a b)
         | |- context [Pos.compare_cont ?c ?a ?b] => rewrite (Pos.compare_cont_spec a b c)
         | |- context [Pos.compare ?a ?b] => destruct (Pos.compare_spec a b)
         end;
  simpl; try discriminate; try reflexivity; try lia; intros; subst; try lia.

Lemma SFltb_irrefl (x : spec_float) : SFltb x x = false.
Proof.
  unfold SFltb, SFcompare. destruct x as [[]|[]| |[] m e]; try reflexivity; compare_cases.
Qed.

Lemma SFltb_above (m y z : spec_float) :
  is_nan m = false -> is_nan y = false -> is_nan z = false ->
  SFltb m y = true -> SFltb m z = false -> SFltb y z = false.
Proof.
  unfold SFltb, SFcompare.
  destruct m as [[]|[]| |[] mm me], y as [[]|[]| |[] ym ye], z as [[]|[]| |[] zm ze];
    intros _ _ _; try discriminate; try reflexivity; compare_cases.
Qed.

Lemma SFltb_below (m y z : spec_float) :
  is_nan m = false -> is_nan y = false -> is_nan z = false ->
  SFltb y m = true -> SFltb z m = false -> SFltb z y = false.
Proof.
  unfold SFltb, SFcompare.
  destruct m as [[]|[]| |[] mm me], y as [[]|[]| |[] ym ye], z as [[]|[]| |[] zm ze];
    intros _ _ _; try discriminate; try reflexivity; compare_cases.
Qed.

Lemma fmax2_cases (m y : spec_float) :
  is_nan m = false -> is_nan y = false ->
  (fmax2 m y = y /\ SFltb m y = true) \/ (fmax2 m y = m /\ SFltb m y = false).
Proof.
  intros Hm Hy. unfold fmax2. rewrite Hm, Hy. destruct (SFltb m y); auto.
Qed.

Lemma fmin2_cases (m y : spec_float) :
  is_nan m = false -> is_nan y = false ->
  (fmin2 m y = y /\ SFltb y m = true) \/ (fmin2 m y = m /\ SFltb y m = false).
Proof.
  intros Hm Hy. unfold fmin2. rewrite Hm, Hy. destruct (SFltb y m); auto.
Qed.

Lemma fold_fmax2 (r : list spec_float) (x : spec_float) :
  is_nan x = false -> Forall (fun y => is_nan y = false) r ->
  let m := fold_left fmax2 r x in
  is_nan m = false /\ In m (x :: r) /\
  (forall z, is_nan z = false -> SFltb x z = false -> SFltb m z = false) /\
  (forall y, In y r -> SFltb m y = false).
Proof.
  intros Hx Hr. revert x Hx. induction Hr as [|y r Hy _ IH]; intros x Hx; cbn zeta.
  - simpl. split; [exact Hx|]. split; [now left|]. split; [auto|intros ? []].
  - cbn [fold_left].
    assert (Hn : is_nan (fmax2 x y) = false)
      by (destruct (fmax2_cases x y Hx Hy) as [[-> _]|[-> _]]; assumption).
    destruct (IH (fmax2 x y) Hn) as [Hm [Hin [Hdom Hall]]].
    assert (Hstep : forall z, is_nan z = false -> SFltb x z = false ->
                              SFltb (fmax2 x y) z = false).
    { intros z Hz Hxz. destruct (fmax2_cases x y Hx Hy) as [[-> Hlt]|[-> _]].
      - now apply (@SFltb_above x y z).
      - exact Hxz. }
    split; [exact Hm|]. split; [|split].
    + destruct Hin as [E|Hin]; [|right; now right].
      rewrite <- E. destruct (fmax2_cases x y Hx Hy) as [[-> _]|[-> _]];
        [right; now left|now left].
    + intros z Hz Hxz. apply Hdom; [exact Hz|]. now apply Hstep.
    + intros z [<-|Hz]; [|now apply Hall].
      apply Hdom; [exact Hy|].
      destruct (fmax2_cases x y Hx Hy) as [[-> _]|[-> Hlt]];
        [apply SFltb_irrefl|exact Hlt].
Qed.

Lemma fold_fmin2 (r : list spec_float) (x : spec_float) :
  is_nan x = false -> Forall (fun y => is_nan y = false) r ->
  let m := fold_left fmin2 r x in
  is_nan m = false /\ In m (x :: r) /\
  (forall z, is_nan z = false -> SFltb z x = false -> SFltb z m = false) /\
  (forall y, In y r -> SFltb y m = false).
Proof.
  intros Hx Hr. revert x Hx. induction Hr as [|y r Hy _ IH]; intros x Hx; cbn zeta.
  - simpl. split; [exact Hx|]. split; [now left|]. split; [auto|intros ? []].
  - cbn [fold_left].
    assert (Hn : is_nan (fmin2 x y) = false)
      by (destruct (fmin2_cases x y Hx Hy) as [[-> _]|[-> _]]; assumption).
    destruct (IH (fmin2 x y) Hn) as [Hm [Hin [Hdom Hall]]].
    assert (Hstep : forall z, is_nan z = false -> SFltb z x = false ->
                              SFltb z (fmin2 x y) = false).
    { intros z Hz Hxz. destruct (fmin2_cases x y Hx Hy) as [[-> Hlt]|[-> _]].
      - now apply (@SFltb_below x y z).
      - exact Hxz. }
    split; [exact Hm|]. split; [|split].
    + destruct Hin as [E|Hin]; [|right; now right].
      rewrite <- E. destruct (fmin2_cases x y Hx Hy) as [[-> _]|[-> _]];
        [right; now left|now left].
    + intros z Hz Hxz. apply Hdom; [exact Hz|]. now apply Hstep.
    + intros z [<-|Hz]; [|now apply Hall].
      apply Hdom; [exact Hy|].
      destruct (fmin2_cases x y Hx Hy) as [[-> _]|[-> Hlt]];
        [apply SFltb_irrefl|exact Hlt].
Qed.

Lemma fill_nan_present (v : spec_float) (row : list spec_float) :
  is_nan v = false -> Forall (fun y => is_nan y = false) (fill_nan v row).
Proof.
  intros Hv. unfold fill_nan. apply Forall_map, Forall_forall. intros y _.
  destruct (is_nan y) eqn:E; assumption.
Qed.

Lemma fill_nan_In (v m : spec_float) (row : list spec_float) :
  In m (fill_nan v row) -> In m row \/ m = v.
Proof.
  unfold fill_nan. intros H. apply in_map_iff in H. destruct H as [y [E Hy]].
  destruct (is_nan y); [right; now symmetry|left; now subst].
Qed.

Lemma fill_nan_keeps (v y : spec_float) (row : list spec_float) :
  In y row -> is_nan y = false -> In y (fill_nan v row).
Proof.
  intros Hy Hn. unfold fill_nan. apply in_map_iff. exists y. now rewrite Hn.
Qed.

(** [nanmax] and [nanmin] along a non-empty axis return a value; it is never
    NaN; it is a cell of the row, or the infinity that replaces the missing
    cells; and no cell that is present is greater than the result of
    [nanmax], or smaller than the result of [nanmin]. *)
Theorem nan_extrema (row : list spec_float) :
  row <> [] ->
  (exists m, nanmax_axis row = inr m /\ is_nan m = false /\
             (In m row \/ m = S754_infinity true) /\
             forall y, In y row -> is_nan y = false -> SFltb m y = false) /\
  (exists m, nanmin_axis row = inr m /\ is_nan m = false /\
             (In m row \/ m = S754_infinity false) /\
             forall y, In y row -> is_nan y = false -> SFltb y m = false).
Proof.
  intros Hne. split.
  - unfold nanmax_axis.
    pose proof (@fill_nan_present (S754_infinity true) row eq_refl) as Hall.
    pose proof (@fill_nan_In (S754_infinity true)) as Hin.
    pose proof (@fill_nan_keeps (S754_infinity true)) as Hkeep.
    destruct (fill_nan (S754_infinity true) row) as [|x r] eqn:E.
    { destruct row; [contradiction|discriminate]. }
    inversion Hall as [|? ? Hx Hr]; subst.
    destruct (@fold_fmax2 r x Hx Hr) as [Hm [Hmem [Hdom Hle]]].
    exists (fold_left fmax2 r x). split; [reflexivity|]. split; [exact Hm|].
    split; [apply Hin; now rewrite E|].
    intros y Hy Hn. specialize (Hkeep y row Hy Hn). rewrite E in Hkeep.
    destruct Hkeep as [<-|Hy']; [|now apply Hle].
    apply Hdom; [exact Hx|apply SFltb_irrefl].
  - unfold nanmin_axis.
    pose proof (@fill_nan_present (S754_infinity false) row eq_refl) as Hall.
    pose proof (@fill_nan_In (S754_infinity false)) as Hin.
    pose proof (@fill_nan_keeps (S754_infinity false)) as Hkeep.
    destruct (fill_nan (S754_infinity false) row) as [|x r] eqn:E.
    { destruct row; [contradiction|discriminate]. }
    inversion Hall as [|? ? Hx Hr]; subst.
    destruct (@fold_fmin2 r x Hx Hr) as [Hm [Hmem [Hdom Hle]]].
    exists (fold_left fmin2 r x). split; [reflexivity|]. split; [exact Hm|].
    split; [apply Hin; now rewrite E|].
    intros y Hy Hn. specialize (Hkeep y row Hy Hn). rewrite E in Hkeep.
    destruct Hkeep as [<-|Hy']; [|now apply Hle].
    apply Hdom; [exact Hx|apply SFltb_irrefl].
Qed.

Lemma nan_extrema_witness :
  (exists m, nanmax_axis [S754_nan; F_of_Z 24 128 3; F_of_Z 24 128 1] = inr m /\
             is_nan m = false) /\
  (exists m, nanmin_axis [S754_nan; F_of_Z 24 128 3; F_of_Z 24 128 1] = inr m /\
             is_nan m = false).
Proof.
  destruct (@nan_extrema [S754_nan; F_of_Z 24 128 3; F_of_Z 24 128 1]
                         ltac:(discriminate))
    as [[m [Hm [Hn _]]] [m' [Hm' [Hn' _]]]].
  split; [exists m|exists m']; split; assumption.
Defined.

(** ** C7: what the NaN-aware reductions return *)

Lemma fill_nan_id (v : spec_float) (row : list spec_float) :
  Forall (fun x => is_nan x = false) row -> fill_nan v row = row.
Proof.
  intros H. unfold fill_nan. induction H as [|x row Hx _ IH]; [reflexivity|].
  simpl. now rewrite Hx, IH.
Qed.

Lemma count_not_nan_present (row : list spec_float) :
  Forall (fun x => is_nan x = false) row -> count_not_nan row = Z.of_nat (length row).
Proof.
  intros H. unfold count_not_nan. f_equal.
  induction H as [|x row Hx _ IH]; [reflexivity|].
  simpl. rewrite Hx. simpl. now rewrite IH.
Qed.

Lemma count_not_nan_single (a c : nat) (v : spec_float) :
  is_nan v = false ->
  count_not_nan (repeat S754_nan a ++ v :: repeat S754_nan c) = 1%Z.
Proof.
  intros Hv. unfold count_not_nan. rewrite filter_app, length_app. cbn [filter].
  rewrite Hv. cbn [negb length].
  pose proof (count_not_nan_all a) as Ha. pose proof (count_not_nan_all c) as Hc.
  unfold count_not_nan in Ha, Hc. lia.
Qed.

Section SinglePresent.
Variables prec emax : Z.

Lemma SFadd_zero_l (v : spec_float) :
  v <> S754_zero true -> SFadd prec emax (S754_zero false) v = v.
Proof. destruct v as [[]|s| |s m e]; intros H; try reflexivity. contradiction. Qed.

Lemma SFadd_zero_r (v : spec_float) :
  v <> S754_zero true -> SFadd prec emax v (S754_zero false) = v.
Proof. destruct v as [[]|[]| |s m e]; intros H; try reflexivity. contradiction. Qed.

Lemma fold_add_zeros (k : nat) (v : spec_float) :
  v <> S754_zero true ->
  fold_left (SFadd prec emax) (repeat (S754_zero false) k) v = v.
Proof.
  intros H. induction k as [|k IH]; [reflexivity|].
  simpl. now rewrite SFadd_zero_r.
Qed.

Lemma nansum_single (a c : nat) (v : spec_float) :
  is_nan v = false -> v <> S754_zero true ->
  nansum_axis prec emax (repeat S754_nan a ++ v :: repeat S754_nan c) = v.
Proof.
  intros Hn Hv. unfold nansum_axis, fill_nan.
  rewrite map_app. cbn [map]. rewrite Hn.
  fold (fill_nan (S754_zero false) (repeat S754_nan a)).
  fold (fill_nan (S754_zero false) (repeat S754_nan c)).
  rewrite !fill_nan_all. unfold fsum. rewrite fold_left_app.
  pose proof (fsum_zeros prec emax a) as Hz. unfold fsum in Hz. rewrite Hz.
  cbn [fold_left]. rewrite SFadd_zero_l by exact Hv. now apply fold_add_zeros.
Qed.

End SinglePresent.

Lemma forallb_false_witness {A} (f : A -> bool) (l : list A) :
  forallb f l = false -> exists x, In x l /\ f x = false.
Proof.
  induction l as [|a l IH]; [discriminate|]. simpl.
  destruct (f a) eqn:E; simpl.
  - intros H. destruct (IH H) as [x [Hx Hf]]. exists x. split; [now right|exact Hf].
  - intros _. exists a. split; [now left|exact E].
Qed.

Lemma below_all_is_minus_infinity (y : spec_float) :
  is_nan y = false -> SFltb (S754_infinity true) y = false -> y = S754_infinity true.
Proof. destruct y as [s|[]| |[] m e]; intros Hn H; try discriminate; reflexivity. Qed.

(** The result of [nanmax] on a non-empty row. *)
Lemma nanmax_axis_maximum (row : list spec_float) :
  row <> [] ->
  exists m, nanmax_axis row = inr m /\ is_nan m = false /\
            (In m row \/
             (m = S754_infinity true /\ Forall (fun x => is_nan x = true) row)) /\
            forall y, In y row -> is_nan y = false -> SFltb m y = false.
Proof.
  intros Hne. unfold nanmax_axis.
  pose proof (@fill_nan_present (S754_infinity true) row eq_refl) as Hall.
  pose proof (@fill_nan_In (S754_infinity true)) as Hin.
  pose proof (@fill_nan_keeps (S754_infinity true)) as Hkeep.
  destruct (fill_nan (S754_infinity true) row) as [|x r] eqn:E.
  { destruct row; [contradiction|discriminate]. }
  inversion Hall as [|? ? Hx Hr]; subst.
  destruct (@fold_fmax2 r x Hx Hr) as [Hm [Hmem [Hdom Hle]]].
  exists (fold_left fmax2 r x). split; [reflexivity|]. split; [exact Hm|].
  assert (Hub : forall y, In y row -> is_nan y = false ->
                          SFltb (fold_left fmax2 r x) y = false).
  { intros y Hy Hn. specialize (Hkeep y row Hy Hn). rewrite E in Hkeep.
    destruct Hkeep as [<-|Hy']; [|now apply Hle].
    apply Hdom; [exact Hx|apply SFltb_irrefl]. }
  split; [|exact Hub].
  destruct (Hin (fold_left fmax2 r x) row) as [H|H]; [now rewrite E|now left|].
  destruct (forallb is_nan row) eqn:Hf.
  - right. split; [exact H|]. apply Forall_forall. now apply forallb_forall.
  - left. destruct (@forallb_false_witness _ is_nan row Hf) as [y [Hy Hn]].
    pose proof (Hub y Hy Hn) as Hlt. rewrite H in Hlt.
    rewrite H, <- (@below_all_is_minus_infinity y Hn Hlt). exact Hy.
Qed.

(** ** Rows of integers: the sums are exact *)

(** [m * 2 ^ d] for [0 <= d]. *)
Definition shiftl_pos (m : positive) (d : Z) : positive :=
  match d with Zpos p => Pos.iter xO m p | _ => m end.

Lemma shiftl_pos_Z (m : positive) (d : Z) :
  (0 <= d)%Z -> Zpos (shiftl_pos m d) = (Zpos m * 2 ^ d)%Z.
Proof.
  intros H. destruct d as [|p|p]; [simpl; lia| |lia].
  simpl shiftl_pos. apply Zpos_iter_xO.
Qed.

Lemma shiftl_pos_digits (m : positive) (d : Z) :
  (0 <= d)%Z -> Zpos (digits2_pos (shiftl_pos m d)) = (Zpos (digits2_pos m) + d)%Z.
Proof.
  intros H. destruct d as [|p|p]; [simpl; lia| |lia].
  simpl shiftl_pos. rewrite digits_iter_xO. lia.
Qed.

Lemma shiftl_pos_add (m : positive) (d k : Z) :
  (0 <= d)%Z -> (0 <= k)%Z -> shiftl_pos (shiftl_pos m d) k = shiftl_pos m (d + k).
Proof.
  intros Hd Hk. apply Pos2Z.inj. rewrite !shiftl_pos_Z by lia.
  rewrite Z.pow_add_r by lia. lia.
Qed.

Lemma digits_lower (m : positive) : (2 ^ (Zpos (digits2_pos m) - 1) <= Zpos m)%Z.
Proof.
  induction m as [m IH|m IH|]; cbn [digits2_pos]; [| |simpl; lia].
  - rewrite Pos2Z.inj_succ. replace (Z.succ (Zpos (digits2_pos m)) - 1)%Z
      with (Z.succ (Zpos (digits2_pos m) - 1)) by lia.
    rewrite Z.pow_succ_r by lia. lia.
  - rewrite Pos2Z.inj_succ. replace (Z.succ (Zpos (digits2_pos m)) - 1)%Z
      with (Z.succ (Zpos (digits2_pos m) - 1)) by lia.
    rewrite Z.pow_succ_r by lia. lia.
Qed.

Lemma digits_le_prec (prec : Z) (m : positive) :
  (Zpos m < 2 ^ prec)%Z -> (Zpos (digits2_pos m) <= prec)%Z.
Proof.
  intros H. pose proof (digits_lower m) as Hl.
  destruct (Z.le_gt_cases (Zpos (digits2_pos m)) prec) as [Hc|Hc]; [exact Hc|].
  exfalso.
  assert (2 ^ prec <= 2 ^ (Zpos (digits2_pos m) - 1))%Z.
  { destruct (Z.le_gt_cases 0 prec).
    - apply Z.pow_le_mono_r; lia.
    - rewrite (Z.pow_neg_r 2 prec) by lia. apply Z.pow_nonneg. lia. }
  lia.
Qed.

Section IntegerCells.
Variables prec emax : Z.
Hypothesis Hprec : (1 < prec)%Z.
Hypothesis Hemax : (prec < emax)%Z.

(** The exponent gap of a mantissa: how far it is shifted to have [prec] digits. *)
Definition gap (m : positive) : Z := (prec - Zpos (digits2_pos m))%Z.

Definition canon (z : Z) : spec_float :=
  match z with
  | Z0 => S754_zero false
  | Zpos m => S754_finite false (shiftl_pos m (gap m)) (- gap m)
  | Zneg m => S754_finite true (shiftl_pos m (gap m)) (- gap m)
  end.

Lemma gap_range (m : positive) : (Zpos m < 2 ^ prec)%Z -> (0 <= gap m < prec)%Z.
Proof.
  intros H. pose proof (@digits_le_prec prec m H). unfold gap. lia.
Qed.

Lemma canon_bounded (m : positive) :
  (Zpos m < 2 ^ prec)%Z -> bounded prec emax (shiftl_pos m (gap m)) (- gap m) = true.
Proof.
  intros H. pose proof (@gap_range m H) as Hg.
  unfold bounded, canonical_mantissa. rewrite shiftl_pos_digits by lia.
  unfold fexp, emin, gap in *. apply andb_true_intro. split.
  - apply Z.eqb_eq. lia.
  - apply Z.leb_le. lia.
Qed.

(** Rounding [m * 2 ^ K] at exponent [- K] gives the canonical form of [m]. *)
Lemma round_scaled (s : bool) (m : positive) (K : Z) :
  (Zpos m < 2 ^ prec)%Z -> (0 <= K)%Z ->
  binary_round prec emax s (shiftl_pos m K) (- K)
  = S754_finite s (shiftl_pos m (gap m)) (- gap m).
Proof.
  intros H HK. pose proof (@gap_range m H) as Hg. pose proof (@canon_bounded m H) as Hb.
  unfold binary_round. rewrite shiftl_pos_digits by lia.
  replace (fexp prec emax (Zpos (digits2_pos m) + K + - K)) with (- gap m)%Z
    by (unfold fexp, emin, gap in *; lia).
  unfold shl_align.
  destruct (- gap m - - K)%Z as [|p|p] eqn:E.
  - replace K with (gap m) by lia.
    now apply round_canonical.
  - replace (shiftl_pos m K) with (Pos.iter xO (shiftl_pos m (gap m)) p).
    + replace (- K)%Z with (- gap m - Zpos p)%Z by lia.
      now apply round_shifted.
    + change (Pos.iter xO (shiftl_pos m (gap m)) p)
        with (shiftl_pos (shiftl_pos m (gap m)) (Zpos p)).
      rewrite shiftl_pos_add by lia. f_equal. lia.
  - change (Pos.iter xO (shiftl_pos m K) p) with (shiftl_pos (shiftl_pos m K) (Zpos p)).
    rewrite shiftl_pos_add by lia.
    replace (K + Zpos p)%Z with (gap m) by lia.
    now apply round_canonical.
Qed.

Lemma F_of_Z_canon (z : Z) : (Z.abs z < 2 ^ prec)%Z -> F_of_Z prec emax z = canon z.
Proof.
  intros H. unfold F_of_Z, binary_normalize, canon. destruct z as [|m|m].
  - reflexivity.
  - apply (@round_scaled false m 0); [simpl in H; lia|lia].
  - apply (@round_scaled true m 0); [simpl in H; lia|lia].
Qed.

Lemma normalize_scaled (z K : Z) :
  (Z.abs z < 2 ^ prec)%Z -> (0 <= K)%Z ->
  binary_normalize prec emax (z * 2 ^ K) (- K) false = canon z.
Proof.
  intros H HK. destruct z as [|m|m].
  - reflexivity.
  - rewrite <- shiftl_pos_Z by exact HK. cbn [binary_normalize canon].
    apply round_scaled; [simpl in H; lia|exact HK].
  - change (Z.neg m) with (- Z.pos m)%Z. rewrite Z.mul_opp_l.
    rewrite <- shiftl_pos_Z by exact HK. cbn [Z.opp binary_normalize canon].
    apply round_scaled; [simpl in H; lia|exact HK].
Qed.

Lemma shl_align_shift (m : positive) (g K : Z) :
  (0 <= g <= K)%Z ->
  fst (shl_align (shiftl_pos m g) (- g) (- K)) = shiftl_pos m K.
Proof.
  intros H. unfold shl_align. destruct (- K - - g)%Z as [|p|p] eqn:E.
  - cbn [fst]. f_equal. lia.
  - lia.
  - cbn [fst]. change (Pos.iter xO (shiftl_pos m g) p)
      with (shiftl_pos (shiftl_pos m g) (Zpos p)).
    rewrite shiftl_pos_add by lia. f_equal. lia.
Qed.

Lemma SFadd_canon (a c : Z) :
  (Z.abs a < 2 ^ prec)%Z -> (Z.abs c < 2 ^ prec)%Z -> (Z.abs (a + c) < 2 ^ prec)%Z ->
  SFadd prec emax (canon a) (canon c) = canon (a + c).
Proof.
  intros Ha Hc Hac.
  destruct a as [|ma|ma], c as [|mc|mc]; try reflexivity;
    (assert (Hga : (0 <= gap ma < prec)%Z) by (apply gap_range; simpl in Ha; lia));
    (assert (Hgc : (0 <= gap mc < prec)%Z) by (apply gap_range; simpl in Hc; lia));
    cbn [canon SFadd];
    replace (Z.min (- gap ma) (- gap mc)) with (- Z.max (gap ma) (gap mc))%Z by lia;
    rewrite !shl_align_shift by lia;
    rewrite !shiftl_pos_Z by lia; cbn [cond_Zopp];
    rewrite <- ?Z.mul_opp_l, <- Z.mul_add_distr_r;
    apply normalize_scaled; solve [exact Hac | lia].
Qed.

Lemma canon_not_nan (z : Z) : is_nan (canon z) = false.
Proof. destruct z; reflexivity. Qed.

Lemma fold_canon (zs : list Z) (acc : Z) :
  (Z.abs acc + fold_right (fun z s => Z.abs z + s) 0 zs < 2 ^ prec)%Z ->
  fold_left (SFadd prec emax) (map canon zs) (canon acc)
  = canon (acc + fold_right Z.add 0%Z zs).
Proof.
  revert acc. induction zs as [|z zs IH]; intros acc H.
  - simpl. now rewrite Z.add_0_r.
  - cbn [map fold_left fold_right] in *.
    assert (Hnn : (0 <= fold_right (fun z s => Z.abs z + s) 0 zs)%Z).
    { clear. induction zs as [|y zs IH]; simpl; lia. }
    rewrite SFadd_canon by lia.
    rewrite IH by lia. f_equal. lia.
Qed.

End IntegerCells.

(** The cells of a row of integers, some of them missing. *)
Definition cell_float (prec emax : Z) (c : option Z) : spec_float :=
  match c with Some z => F_of_Z prec emax z | None => S754_nan end.

(** The values of the cells that are present, in order. *)
Definition present_values (cells : list (option Z)) : list Z :=
  flat_map (fun c => match c with Some z => [z] | None => [] end) cells.

Definition Zsum (zs : list Z) : Z := fold_right Z.add 0%Z zs.

Definition Zabs_sum (zs : list Z) : Z := fold_right (fun z s => (Z.abs z + s)%Z) 0%Z zs.

Section IntegerRows.
Variables prec emax : Z.
Hypothesis Hprec : (1 < prec)%Z.
Hypothesis Hemax : (prec < emax)%Z.

Let cell_value (c : option Z) : Z := match c with Some z => z | None => 0%Z end.

Lemma Zabs_sum_nonneg (zs : list Z) : (0 <= Zabs_sum zs)%Z.
Proof. induction zs as [|y zs IH]; simpl; lia. Qed.

Lemma Zsum_bound (zs : list Z) : (Z.abs (Zsum zs) <= Zabs_sum zs)%Z.
Proof. induction zs as [|y zs IH]; simpl; lia. Qed.

Lemma present_values_sum (cells : list (option Z)) :
  Zsum (map cell_value cells) = Zsum (present_values cells) /\
  Zabs_sum (map cell_value cells) = Zabs_sum (present_values cells).
Proof.
  induction cells as [|[z|] cells [IH1 IH2]]; simpl; [split; reflexivity| |].
  - unfold Zsum, Zabs_sum in *. simpl. split; lia.
  - unfold Zsum, Zabs_sum in *. simpl. split; lia.
Qed.

Lemma fill_cells (cells : list (option Z)) :
  (Zabs_sum (present_values cells) < 2 ^ prec)%Z ->
  fill_nan (S754_zero false) (map (cell_float prec emax) cells)
  = map (canon prec) (map cell_value cells) /\
  count_not_nan (map (cell_float prec emax) cells)
  = Z.of_nat (length (present_values cells)).
Proof.
  unfold count_not_nan.
  induction cells as [|[z|] cells IH]; intros H; [split; reflexivity| |].
  - cbn [present_values flat_map app Zabs_sum fold_right] in H.
    fold (present_values cells) in H. fold (Zabs_sum (present_values cells)) in H.
    pose proof (Zabs_sum_nonneg (present_values cells)) as Hnn.
    destruct IH as [IH1 IH2]; [lia|].
    cbn [map fill_nan cell_float cell_value].
    rewrite (@F_of_Z_canon prec emax Hprec Hemax z) by lia.
    rewrite canon_not_nan. cbn [negb filter length].
    rewrite canon_not_nan. cbn [negb length].
    fold (fill_nan (S754_zero false) (map (cell_float prec emax) cells)).
    rewrite IH1. split; [reflexivity|].
    cbn [present_values flat_map app length]. fold (present_values cells). lia.
  - destruct IH as [IH1 IH2]; [exact H|].
    cbn [map fill_nan cell_float cell_value is_nan negb filter].
    fold (fill_nan (S754_zero false) (map (cell_float prec emax) cells)).
    rewrite IH1. split; [reflexivity|exact IH2].
Qed.

(** On a row of integers whose absolute values add up to less than
    [2 ^ prec], [nansum] is the exact sum of the cells that are present and
    [nanmean] the quotient of that sum by their number. *)
Lemma integer_row (cells : list (option Z)) :
  (Zabs_sum (present_values cells) < 2 ^ prec)%Z ->
  nansum_axis prec emax (map (cell_float prec emax) cells)
  = F_of_Z prec emax (Zsum (present_values cells)) /\
  nanmean_axis prec emax (map (cell_float prec emax) cells)
  = SFdiv prec emax (F_of_Z prec emax (Zsum (present_values cells)))
          (F_of_Z prec emax (Z.of_nat (length (present_values cells)))).
Proof.
  intros H. destruct (fill_cells cells H) as [Hfill Hcount].
  destruct (present_values_sum cells) as [Hs Ha].
  pose proof (Zsum_bound (present_values cells)) as Hb.
  assert (E : fsum prec emax (fill_nan (S754_zero false)
                                       (map (cell_float prec emax) cells))
              = F_of_Z prec emax (Zsum (present_values cells))).
  { rewrite Hfill. unfold fsum.
    change (S754_zero false) with (canon prec 0).
    rewrite (@fold_canon prec emax Hprec Hemax).
    - rewrite Z.add_0_l. fold (Zsum (map cell_value cells)). rewrite Hs.
      symmetry. apply (@F_of_Z_canon prec emax Hprec Hemax). lia.
    - fold (Zabs_sum (map cell_value cells)). rewrite Ha. simpl. lia. }
  unfold nansum_axis, nanmean_axis. rewrite E, Hcount. split; reflexivity.
Qed.

End IntegerRows.

(** C7.  In single and in double precision, for
    [data = [[1, NaN, 3], [NaN, NaN, NaN]]] along axis 1: [nanmean] is
    [[2, NaN]], [nansum] is [[4, 0]] and [nanmax] is [[3, -inf]].  In every
    format: on a row without missing cell, [nansum] and [nanmean] are the
    plain sum and the plain sum divided by the length of the row; on a row
    with a single cell present, both return that cell, whatever the length
    of the row; on a row of integers whose absolute values add up to less
    than [2 ^ prec], [nansum] is the exact sum of the cells that are present
    and [nanmean] the quotient of that sum by their number; on a non-empty
    row [nanmax] returns a value that is not NaN, that is a cell of the row
    unless all cells are missing, when it is -infinity, and that no cell
    present exceeds; on a row of missing cells only, the three return 0,
    NaN and -infinity. *)
Theorem nan_reductions :
  (let one := F_of_Z 24 128 1 in let three := F_of_Z 24 128 3 in
   let data := [[one; S754_nan; three]; [S754_nan; S754_nan; S754_nan]] in
   nanmean 24 128 data = [F_of_Z 24 128 2; S754_nan] /\
   nansum 24 128 data = [F_of_Z 24 128 4; S754_zero false] /\
   nanmax data = inr [three; S754_infinity true]) /\
  (let one := F_of_Z 53 1024 1 in let three := F_of_Z 53 1024 3 in
   let data := [[one; S754_nan; three]; [S754_nan; S754_nan; S754_nan]] in
   nanmean 53 1024 data = [F_of_Z 53 1024 2; S754_nan] /\
   nansum 53 1024 data = [F_of_Z 53 1024 4; S754_zero false] /\
   nanmax data = inr [three; S754_infinity true]) /\
  (forall prec emax row,
      Forall (fun x => is_nan x = false) row ->
      nansum_axis prec emax row = fsum prec emax row /\
      nanmean_axis prec emax row
      = SFdiv prec emax (fsum prec emax row)
              (F_of_Z prec emax (Z.of_nat (length row)))) /\
  (forall prec emax a c v,
      (1 < prec)%Z -> (prec < emax)%Z ->
      valid_binary prec emax v = true -> is_nan v = false -> v <> S754_zero true ->
      nansum_axis prec emax (repeat S754_nan a ++ v :: repeat S754_nan c) = v /\
      nanmean_axis prec emax (repeat S754_nan a ++ v :: repeat S754_nan c) = v) /\
  (forall prec emax cells,
      (1 < prec)%Z -> (prec < emax)%Z ->
      (Zabs_sum (present_values cells) < 2 ^ prec)%Z ->
      nansum_axis prec emax (map (cell_float prec emax) cells)
      = F_of_Z prec emax (Zsum (present_values cells)) /\
      nanmean_axis prec emax (map (cell_float prec emax) cells)
      = SFdiv prec emax (F_of_Z prec emax (Zsum (present_values cells)))
              (F_of_Z prec emax (Z.of_nat (length (present_values cells))))) /\
  (forall row,
      row <> [] ->
      exists m, nanmax_axis row = inr m /\ is_nan m = false /\
                (In m row \/
                 (m = S754_infinity true /\ Forall (fun x => is_nan x = true) row)) /\
                forall y, In y row -> is_nan y = false -> SFltb m y = false) /\
  (forall prec emax k,
      nansum_axis prec emax (repeat S754_nan k) = S754_zero false /\
      nanmean_axis prec emax (repeat S754_nan k) = S754_nan /\
      nanmax_axis (repeat S754_nan (S k)) = inr (S754_infinity true)).
Proof.
  split; [vm_compute; repeat split; reflexivity|].
  split; [vm_compute; repeat split; reflexivity|].
  split; [|split; [|split; [|split]]].
  - intros prec emax row H. unfold nansum_axis, nanmean_axis.
    rewrite (@fill_nan_id (S754_zero false) row H), (@count_not_nan_present row H).
    split; reflexivity.
  - intros prec emax a c v Hprec Hemax Hv Hn Hz.
    pose proof (@nansum_single prec emax a c v Hn Hz) as Hs.
    split; [exact Hs|].
    unfold nansum_axis in Hs. unfold nanmean_axis.
    rewrite Hs, (@count_not_nan_single a c v Hn).
    now apply div_one.
  - intros prec emax cells Hprec Hemax H. now apply integer_row.
  - intros row Hne. now apply nanmax_axis_maximum.
  - intros. apply all_missing_axis.
Qed.

Lemma nan_reductions_witness :
  nansum_axis 24 128 [F_of_Z 24 128 1; S754_nan; F_of_Z 24 128 3] = F_of_Z 24 128 4 /\
  nanmean_axis 24 128 [S754_nan; F_of_Z 24 128 3; S754_nan] = F_of_Z 24 128 3 /\
  exists m, nanmax_axis [F_of_Z 24 128 1; S754_nan; F_of_Z 24 128 3] = inr m /\
            is_nan m = false.
Proof.
  destruct nan_reductions as [_ [_ [_ [Hone [Hint [Hmax _]]]]]].
  split; [|split].
  - exact (proj1 (Hint 24%Z 128%Z [Some 1%Z; None; Some 3%Z]
                       ltac:(lia) ltac:(lia) ltac:(vm_compute; reflexivity))).
  - exact (proj2 (Hone 24%Z 128%Z 1 1 (F_of_Z 24 128 3)
                       ltac:(lia) ltac:(lia) ltac:(vm_compute; reflexivity)
                       ltac:(vm_compute; reflexivity) ltac:(discriminate))).
  - destruct (Hmax [F_of_Z 24 128 1; S754_nan; F_of_Z 24 128 3] ltac:(discriminate))
      as [m [Hm [Hn _]]].
    exists m. split; assumption.
Defined.

(** In double precision the perturbation is absorbed by a large key:
    [2 ** 53 + 0.9] is [2 ** 53], so two rows with that key have equal
    perturbed keys, and their order is left to the sort primitive. *)
Example perturbed_keys_tie :
  ~ @perturbed_tie_free binary64 [inject_Z (2 ^ 53); inject_Z (2 ^ 53)].
Proof.
  intros H. specialize (H 0 1 ltac:(lia) ltac:(simpl; lia) ltac:(reflexivity)).
  vm_compute in H. discriminate H.
Qed.
